(** * A shallow embedding of the rtmidi-direct MIDI reader

    The definitions below transcribe [src/midi_reader.h] and
    [src/midi-reader/midi_reader.c].  C integers are [Z] with the
    wrap-around of their type written out, C arrays are lists of the
    array's fixed size updated by index, and the system calls the
    library issues ([close], [write], [dprintf]) and the invocations of
    the user callback are returned as a list of events, in program
    order. *)

From Stdlib Require Import ZArith List Lia Bool String Ascii.
From stdpp Require Import base list.

Open Scope Z_scope.

(** * The program

    ** midi_reader.h : constants and data types *)

Inductive midi_frame_state_t : Type :=
  | MIDIF_IOERROR   (* -3 : could not read data *)
  | MIDIF_NODATA    (* -2 : no byte read *)
  | MIDIF_ERROR     (* -1 : error, frame was reset *)
  | MIDIF_NEXT      (*  0 : waiting for next byte *)
  | MIDIF_COMPLETE  (*  1 : frame is complete *)
  | MIDIF_SKIPPED.  (*  2 : frame complete but skipped *)

Definition MIDI_FRAME_MAX : Z := 128.
Definition MIDI_READER_FRAMES_MAX : Z := 1024.
Definition MIDI_READER_BUF_MAX : Z := 256.
Definition MIDI_READER_IN_MAX : Z := 64.

Definition MIDIR_NONE : Z := 0.
Definition MIDIR_DEBUG : Z := 1.
Definition MIDIR_EXPAND : Z := 2.
Definition MIDIR_DUMPHEX : Z := 4.

(** [unsigned char] and [unsigned long] (LP64) arithmetic. *)
Definition uchar (x : Z) : Z := x mod 256.
Definition ulong (x : Z) : Z := x mod 2 ^ 64.

(** [a[i]] on an array of bytes. *)
Definition zget (l : list Z) (i : Z) : Z := nth (Z.to_nat i) l 0.

(** [a[i] = v]. *)
Definition zset {A : Type} (l : list A) (i : Z) (v : A) : list A :=
  <[Z.to_nat i := v]> l.

Record midi_frame_t : Type := mk_frame {
  len : Z;            (* unsigned char len *)
  data : list Z       (* unsigned char data[MIDI_FRAME_MAX] *)
}.

Record midi_frames_t : Type := mk_frames {
  q_len : Z;                     (* int len *)
  q_offset : Z;                  (* int offset *)
  q_frames : list midi_frame_t   (* midi_frame_t frames[MIDI_READER_FRAMES_MAX] *)
}.

Record midi_reader_stats_t : Type := mk_stats {
  read : Z;
  errors : Z;
  skipped : Z;
  missed : Z
}.

Record midi_reader_source_t : Type := mk_source {
  fd : Z;
  running : Z;        (* unsigned char *)
  buf : list Z;       (* unsigned char buf[MIDI_READER_BUF_MAX] *)
  buf_len : Z;
  buf_offset : Z;
  push_back : Z;
  current : midi_frame_t;
  channel : Z;
  stats : midi_reader_stats_t
}.

(** The user callback receives the frame and [user_data]; it returns a
    state and may rewrite the frame it was handed. *)
Definition midi_reader_callback_t : Type :=
  midi_frame_t -> Z -> midi_frame_state_t * midi_frame_t.

Record midi_reader_t : Type := mk_reader {
  flags : Z;
  sources : list midi_reader_source_t;  (* sources[MIDI_READER_IN_MAX] *)
  nsources : Z;
  dumpfd : Z;
  frames : midi_frames_t;
  to_skip : option (list Z);            (* NULL or zero-terminated array *)
  callback : option midi_reader_callback_t;
  user_data : Z;
  total : midi_reader_stats_t
}.

(** What the library does to the outside world. *)
Inductive event : Type :=
  | EvClose (f : Z)                          (* close (f) *)
  | EvWrite (f : Z) (bytes : list Z)         (* write (f, bytes, n) *)
  | EvDprintf (f : Z) (text : string)        (* dprintf (f, ...) *)
  | EvCallback (mf : midi_frame_t) (ud : Z). (* reader->callback (mf, ud) *)

(** [midi_frame_len] : frame length indexed by the status byte minus 0x80. *)
Definition midi_frame_len : list Z :=
  (* 80 note off *)        [3; 3; 3; 3; 3; 3; 3; 3; 3; 3; 3; 3; 3; 3; 3; 3] ++
  (* 90 note on *)         [3; 3; 3; 3; 3; 3; 3; 3; 3; 3; 3; 3; 3; 3; 3; 3] ++
  (* A0 aftertouch *)      [3; 3; 3; 3; 3; 3; 3; 3; 3; 3; 3; 3; 3; 3; 3; 3] ++
  (* B0 control change *)  [3; 3; 3; 3; 3; 3; 3; 3; 3; 3; 3; 3; 3; 3; 3; 3] ++
  (* C0 program change *)  [2; 2; 2; 2; 2; 2; 2; 2; 2; 2; 2; 2; 2; 2; 2; 2] ++
  (* D0 pressure *)        [2; 2; 2; 2; 2; 2; 2; 2; 2; 2; 2; 2; 2; 2; 2; 2] ++
  (* E0 pitch bend *)      [3; 3; 3; 3; 3; 3; 3; 3; 3; 3; 3; 3; 3; 3; 3; 3] ++
  (* F0 system common *)   [-0xf0; 2; 3; 2; 1; 1; 1; 1] ++
  (* F8 system real-time *) [1; 1; 1; 1; 1; 1; 1; 1].

(** ** Field updates *)

Definition set_len (v : Z) (mf : midi_frame_t) : midi_frame_t :=
  mk_frame v (data mf).
Definition set_data (v : list Z) (mf : midi_frame_t) : midi_frame_t :=
  mk_frame (len mf) v.

Definition set_fd (v : Z) (s : midi_reader_source_t) :=
  mk_source v (running s) (buf s) (buf_len s) (buf_offset s) (push_back s)
            (current s) (channel s) (stats s).
Definition set_running (v : Z) (s : midi_reader_source_t) :=
  mk_source (fd s) v (buf s) (buf_len s) (buf_offset s) (push_back s)
            (current s) (channel s) (stats s).
Definition set_buf (v : list Z) (s : midi_reader_source_t) :=
  mk_source (fd s) (running s) v (buf_len s) (buf_offset s) (push_back s)
            (current s) (channel s) (stats s).
Definition set_buf_len (v : Z) (s : midi_reader_source_t) :=
  mk_source (fd s) (running s) (buf s) v (buf_offset s) (push_back s)
            (current s) (channel s) (stats s).
Definition set_buf_offset (v : Z) (s : midi_reader_source_t) :=
  mk_source (fd s) (running s) (buf s) (buf_len s) v (push_back s)
            (current s) (channel s) (stats s).
Definition set_push_back (v : Z) (s : midi_reader_source_t) :=
  mk_source (fd s) (running s) (buf s) (buf_len s) (buf_offset s) v
            (current s) (channel s) (stats s).
Definition set_current (v : midi_frame_t) (s : midi_reader_source_t) :=
  mk_source (fd s) (running s) (buf s) (buf_len s) (buf_offset s) (push_back s)
            v (channel s) (stats s).
Definition set_channel (v : Z) (s : midi_reader_source_t) :=
  mk_source (fd s) (running s) (buf s) (buf_len s) (buf_offset s) (push_back s)
            (current s) v (stats s).
Definition set_stats (v : midi_reader_stats_t) (s : midi_reader_source_t) :=
  mk_source (fd s) (running s) (buf s) (buf_len s) (buf_offset s) (push_back s)
            (current s) (channel s) v.

Definition set_flags (v : Z) (r : midi_reader_t) :=
  mk_reader v (sources r) (nsources r) (dumpfd r) (frames r) (to_skip r)
            (callback r) (user_data r) (total r).
Definition set_sources (v : list midi_reader_source_t) (r : midi_reader_t) :=
  mk_reader (flags r) v (nsources r) (dumpfd r) (frames r) (to_skip r)
            (callback r) (user_data r) (total r).
Definition set_nsources (v : Z) (r : midi_reader_t) :=
  mk_reader (flags r) (sources r) v (dumpfd r) (frames r) (to_skip r)
            (callback r) (user_data r) (total r).
Definition set_dumpfd (v : Z) (r : midi_reader_t) :=
  mk_reader (flags r) (sources r) (nsources r) v (frames r) (to_skip r)
            (callback r) (user_data r) (total r).
Definition set_frames (v : midi_frames_t) (r : midi_reader_t) :=
  mk_reader (flags r) (sources r) (nsources r) (dumpfd r) v (to_skip r)
            (callback r) (user_data r) (total r).
Definition set_to_skip (v : option (list Z)) (r : midi_reader_t) :=
  mk_reader (flags r) (sources r) (nsources r) (dumpfd r) (frames r) v
            (callback r) (user_data r) (total r).
Definition set_callback (cb : option midi_reader_callback_t) (ud : Z)
    (r : midi_reader_t) :=
  mk_reader (flags r) (sources r) (nsources r) (dumpfd r) (frames r) (to_skip r)
            cb ud (total r).
Definition set_total (v : midi_reader_stats_t) (r : midi_reader_t) :=
  mk_reader (flags r) (sources r) (nsources r) (dumpfd r) (frames r) (to_skip r)
            (callback r) (user_data r) v.

(** [st.read++] and its siblings, on [unsigned long]. *)
Definition incr_read (st : midi_reader_stats_t) :=
  mk_stats (ulong (read st + 1)) (errors st) (skipped st) (missed st).
Definition incr_errors (st : midi_reader_stats_t) :=
  mk_stats (read st) (ulong (errors st + 1)) (skipped st) (missed st).
Definition incr_skipped (st : midi_reader_stats_t) :=
  mk_stats (read st) (errors st) (ulong (skipped st + 1)) (missed st).
Definition incr_missed (st : midi_reader_stats_t) :=
  mk_stats (read st) (errors st) (skipped st) (ulong (missed st + 1)).

(** [flags & bit] as a C truth value. *)
Definition has_flag (fl bit : Z) : bool := negb (Z.land fl bit =? 0).

(** ** memset (p, 0, sizeof ...) *)

Definition zero_frame : midi_frame_t :=
  mk_frame 0 (repeat 0 (Z.to_nat MIDI_FRAME_MAX)).
Definition zero_stats : midi_reader_stats_t := mk_stats 0 0 0 0.
Definition zero_source : midi_reader_source_t :=
  mk_source 0 0 (repeat 0 (Z.to_nat MIDI_READER_BUF_MAX)) 0 0 0
            zero_frame 0 zero_stats.
Definition zero_frames : midi_frames_t :=
  mk_frames 0 0 (repeat zero_frame (Z.to_nat MIDI_READER_FRAMES_MAX)).

(** [sources[i]]; the array has [MIDI_READER_IN_MAX] slots. *)
Definition get_source (r : midi_reader_t) (i : Z) : midi_reader_source_t :=
  nth (Z.to_nat i) (sources r) zero_source.

(** [frames.frames[i]]. *)
Definition get_frame (q : midi_frames_t) (i : Z) : midi_frame_t :=
  nth (Z.to_nat i) (q_frames q) zero_frame.

(** ** midi_reader.c *)

(** [midi_reader_reset_source]: the structure is cleared first, so the
    descriptor handed to [close] is the cleared field. *)
Definition midi_reader_reset_source (src : midi_reader_source_t)
    (to_close : bool) : midi_reader_source_t * list event :=
  let src := zero_source in
  let '(src, evs) :=
    if to_close then (set_fd (-1) src, [EvClose (fd src)])
    else (src, []) in
  let src := set_push_back (-1) src in
  let src := set_channel (-1) src in
  (src, evs).

Definition midi_reader_reset_source_n (reader : midi_reader_t) (src : Z)
    (to_close : bool) : midi_reader_t * list event :=
  if (0 <=? src) && (src <? MIDI_READER_IN_MAX) then
    let '(s, evs) := midi_reader_reset_source (get_source reader src) to_close in
    (set_sources (zset (sources reader) src s) reader, evs)
  else (reader, []).

(** [midi_reader_init]: the loop runs over all [MIDI_READER_IN_MAX] slots. *)
Definition midi_reader_init (fl : Z) (skip : option (list Z)) : midi_reader_t :=
  let reader :=
    mk_reader 0 (repeat zero_source (Z.to_nat MIDI_READER_IN_MAX)) 0 0
              zero_frames None None 0 zero_stats in
  let reader := set_flags fl reader in
  let reader :=
    fold_left (fun rd i => fst (midi_reader_reset_source_n rd (Z.of_nat i) false))
              (seq 0 (Z.to_nat MIDI_READER_IN_MAX)) reader in
  let reader := set_dumpfd (-1) reader in
  set_to_skip skip reader.

(** The scan of the first [nsources] slots for a descriptor: the index
    where the loop breaks, or [nsources] when it runs to the end. *)
Fixpoint find_fd (l : list midi_reader_source_t) (n : nat) (i : Z) (f : Z) : Z :=
  match n, l with
  | S n', s :: l' => if fd s =? f then i else find_fd l' n' (i + 1) f
  | _, _ => i
  end.

Definition midi_reader_add_source (reader : midi_reader_t) (f : Z) (chan : Z)
    : bool * midi_reader_t :=
  if (f >? -1) && (nsources reader <? MIDI_READER_IN_MAX) then
    if find_fd (sources reader) (Z.to_nat (nsources reader)) 0 f
         <? nsources reader
    then (true, reader)
    else
      let n := nsources reader in
      let s := set_fd f (get_source reader n) in
      let s := if (chan >=? 1) && (chan <=? 16) then set_channel chan s
               else set_channel (-1) s in
      let reader := set_sources (zset (sources reader) n s) reader in
      (true, set_nsources (n + 1) reader)
  else (false, reader).

(** The compaction loop of [midi_reader_remove_source]:
    [for (j = i + 1; j < MIDI_READER_IN_MAX; j++) sources[j-1] = sources[j]];
    returns the array and the final value of [j]. *)
Fixpoint shift_sources (n : nat) (j : Z) (l : list midi_reader_source_t)
    : list midi_reader_source_t * Z :=
  match n with
  | O => (l, j)
  | S n' =>
      if j <? MIDI_READER_IN_MAX
      then shift_sources n' (j + 1) (zset l (j - 1) (nth (Z.to_nat j) l zero_source))
      else (l, j)
  end.

Definition midi_reader_remove_source (reader : midi_reader_t) (f : Z)
    : bool * midi_reader_t * list event :=
  if (f <? 0) || (nsources reader =? 0) then (false, reader, [])
  else
    let i := find_fd (sources reader) (Z.to_nat (nsources reader)) 0 f in
    if i >=? nsources reader then (false, reader, [])
    else
      let '(reader, evs) := midi_reader_reset_source_n reader i true in
      let '(l, j) := shift_sources (Z.to_nat MIDI_READER_IN_MAX) (i + 1)
                                   (sources reader) in
      let reader := set_sources l reader in
      let '(reader, evs') := midi_reader_reset_source_n reader j false in
      (true, set_nsources (nsources reader - 1) reader, evs ++ evs').

Definition midi_reader_set_dump_fd (reader : midi_reader_t) (f : Z)
    : bool * midi_reader_t :=
  if f >? -1 then (true, set_dumpfd f reader) else (false, reader).

Definition midi_reader_set_callback (reader : midi_reader_t)
    (cb : option midi_reader_callback_t) (ud : Z) : midi_reader_t :=
  set_callback cb ud reader.

(** [midi_reader_read] for one source.  [rd f] is what [read] delivers
    on descriptor [f] at this call (nothing on error or when the
    descriptor would block); at most the free room of the buffer is
    taken from it. *)
Definition read_source (rd : Z -> list Z) (s : midi_reader_source_t)
    : midi_reader_source_t :=
  if push_back s >? -1 then s
  else
    let s := if buf_offset s >=? buf_len s
             then set_buf_offset 0 (set_buf_len 0 s) else s in
    if buf_len s >=? MIDI_READER_BUF_MAX then s
    else
      let room := Z.to_nat (MIDI_READER_BUF_MAX - buf_len s) in
      let got := map uchar (take room (rd (fd s))) in
      let r := Z.of_nat (length got) in
      if r >? 0 then
        let at_ := Z.to_nat (buf_len s) in
        set_buf_len (buf_len s + r)
          (set_buf (take at_ (buf s) ++ got
                    ++ drop (at_ + length got) (buf s)) s)
      else s.

Definition midi_reader_read (rd : Z -> list Z) (reader : midi_reader_t)
    : midi_reader_t :=
  fold_left
    (fun rdr i =>
       set_sources
         (zset (sources rdr) (Z.of_nat i)
               (read_source rd (get_source rdr (Z.of_nat i)))) rdr)
    (seq 0 (Z.to_nat (nsources reader))) reader.

Definition midi_reader_get_byte (s : midi_reader_source_t)
    : Z * midi_reader_source_t :=
  if push_back s >? -1 then
    (push_back s, set_push_back (-1) s)
  else if (buf_len s >? 0) && (buf_offset s <? buf_len s) then
    (zget (buf s) (buf_offset s), set_buf_offset (buf_offset s + 1) s)
  else (-1, s).

Definition midi_frame_reset (mf : midi_frame_t) : midi_frame_t :=
  set_data (zset (data mf) 0 0) (set_len 0 mf).

(** ["%.2x "] of a byte. *)
Definition hex_digit (n : Z) : ascii :=
  nth (Z.to_nat n) (list_ascii_of_string "0123456789abcdef") "0"%char.
Definition hex2 (b : Z) : string :=
  String (hex_digit (b / 16)) (String (hex_digit (b mod 16)) " "%string).

Definition midi_frame_dump (mf : midi_frame_t) (f : Z) : list event :=
  if f >? -1 then
    map (fun j => EvDprintf f (hex2 (zget (data mf) (Z.of_nat j))))
        (seq 0 (Z.to_nat (len mf)))
  else [].

(** [mf->data[mf->len++] = b]. *)
Definition frame_append (b : Z) (mf : midi_frame_t) : midi_frame_t :=
  mk_frame (uchar (len mf + 1)) (zset (data mf) (len mf) b).

(** The loop of [midi_frame_expand_running]:
    [for (i = 1; i < f.len; i += 2)]. *)
Fixpoint expand_loop (n : nat) (i : Z) (f mf : midi_frame_t) : midi_frame_t :=
  match n with
  | O => mf
  | S n' =>
      if i <? len f then
        let mf := frame_append (zget (data f) 0) mf in
        let mf := frame_append (zget (data f) i) mf in
        let mf := frame_append (zget (data f) (i + 1)) mf in
        expand_loop n' (i + 2) f mf
      else mf
  end.

Definition midi_frame_expand_running (mf : midi_frame_t)
    : bool * midi_frame_t :=
  if (zget (data mf) 0 <? 0x80) || (zget (data mf) 0 >? 0xef)
     || (len mf =? 3) then (true, mf)
  else if negb (Z.rem (len mf - 1) 2 =? 0) then (false, mf)
  else if len mf + Z.quot (len mf - 1) 2 >? MIDI_FRAME_MAX then (false, mf)
  else
    let f := mf in
    let mf := midi_frame_reset mf in
    (true, expand_loop (Z.to_nat (len f)) 1 f mf).

(** The scan of the zero-terminated skip array. *)
Fixpoint skip_scan (p : list Z) (b : Z) : bool :=
  match p with
  | [] => false
  | x :: p' => if x =? 0 then false
               else if b =? x then true else skip_scan p' b
  end.

Definition newline : string := String (ascii_of_nat 10) EmptyString.

Definition debug_output (fl : Z) (skp : bool) (mf : midi_frame_t) : list event :=
  if has_flag fl MIDIR_DEBUG then
    [EvDprintf 2 (String.append "incoming frame"
                    (if skp then " (skipped): " else ": "))]
    ++ midi_frame_dump mf 2 ++ [EvDprintf 2 newline]
  else [].

(** The [dump] step of [midi_frame_process]. *)
Definition dump_step (reader : midi_reader_t) (mf : midi_frame_t) : list event :=
  if dumpfd reader >? -1 then
    if has_flag (flags reader) MIDIR_DUMPHEX
    then midi_frame_dump mf (dumpfd reader)
    else [EvWrite (dumpfd reader) (take (Z.to_nat (len mf)) (data mf))]
  else [].

(** The [store] step of [midi_frame_process]. *)
Definition store_step (reader : midi_reader_t) (mf : midi_frame_t)
    : midi_reader_t :=
  let q := frames reader in
  let q := if q_len q =? q_offset q then mk_frames 0 0 (q_frames q) else q in
  if q_len q <? MIDI_READER_FRAMES_MAX then
    set_frames (mk_frames (q_len q + 1) (q_offset q)
                          (zset (q_frames q) (q_len q) mf)) reader
  else
    set_total (incr_missed (total reader)) (set_frames q reader).

(** The channel translation of [midi_frame_process]. *)
Definition channel_translate (chan : Z) (mf : midi_frame_t) : midi_frame_t :=
  if chan >? 0 then
    let d0 := zget (data mf) 0 in
    if (d0 >=? 0x80) && (d0 <=? 0xef) then
      let d0 := uchar (Z.land d0 0xF0) in
      let d0 := uchar (Z.lor d0 (chan - 1)) in
      set_data (zset (data mf) 0 d0) mf
    else mf
  else mf.

Definition midi_frame_process (reader : midi_reader_t)
    (src : midi_reader_source_t)
    : midi_frame_state_t * midi_reader_t * midi_reader_source_t * list event :=
  let mf := current src in
  if len mf =? 0 then (MIDIF_NODATA, reader, src, [])
  else
    let src := set_stats (incr_read (stats src)) src in
    let reader := set_total (incr_read (total reader)) reader in
    let skp := match to_skip reader with
               | Some p => skip_scan p (zget (data mf) 0)
               | None => false
               end in
    let dbg := debug_output (flags reader) skp mf in
    if skp then
      (MIDIF_SKIPPED,
       set_total (incr_skipped (total reader)) reader,
       set_stats (incr_skipped (stats src)) src, dbg)
    else
      let mf := channel_translate (channel src) mf in
      let mf := if has_flag (flags reader) MIDIR_EXPAND
                then snd (midi_frame_expand_running mf) else mf in
      let finish (mf : midi_frame_t) (evs : list event) :=
        (MIDIF_COMPLETE, store_step reader mf, set_current mf src,
         evs ++ dump_step reader mf) in
      match callback reader with
      | None => finish mf dbg
      | Some cb =>
          let evs := dbg ++ [EvCallback mf (user_data reader)] in
          let '(st, mf) := cb mf (user_data reader) in
          let src := set_current mf src in
          if len mf =? 0 then (MIDIF_NODATA, reader, src, evs)
          else match st with
               | MIDIF_SKIPPED =>
                   (MIDIF_SKIPPED,
                    set_total (incr_skipped (total reader)) reader,
                    set_stats (incr_skipped (stats src)) src, evs)
               | MIDIF_COMPLETE => finish mf evs
               | _ =>
                   (st,
                    set_total (incr_errors (total reader)) reader,
                    set_stats (incr_errors (stats src)) src, evs)
               end
      end.

(** [for (i = 0; i < reader->nsources; i++) midi_reader_reset_source_n (reader, i, true)]. *)
Definition close_sources (reader : midi_reader_t) : midi_reader_t * list event :=
  fold_left
    (fun '(rdr, evs) i =>
       let '(rdr, evs') := midi_reader_reset_source_n rdr (Z.of_nat i) true in
       (rdr, evs ++ evs'))
    (seq 0 (Z.to_nat (nsources reader))) (reader, []).

Definition midi_reader_close (reader : midi_reader_t)
    : midi_reader_t * list event :=
  if nsources reader =? 0 then (reader, [])
  else
    let '(reader, evs) := close_sources reader in
    if dumpfd reader >? -1
    then (set_dumpfd (-1) reader, evs ++ [EvClose (dumpfd reader)])
    else (reader, evs).

(** The error exits of [midi_reader_push_byte]. *)
Definition count_error (reader : midi_reader_t) (src : midi_reader_source_t)
    : midi_reader_t * midi_reader_source_t :=
  (set_total (incr_errors (total reader)) reader,
   set_stats (incr_errors (stats src)) src).

Definition midi_reader_push_byte (reader : midi_reader_t)
    (src : midi_reader_source_t) (dat : Z)
    : midi_frame_state_t * midi_reader_t * midi_reader_source_t * list event :=
  if dat <? 0 then (MIDIF_NODATA, reader, src, [])
  else if dat >? 0xFF then
    let '(reader, src) := count_error reader (set_running 0 src) in
    (MIDIF_IOERROR, reader, src, [])
  else
    let b := uchar dat in
    if len (current src) =? MIDI_FRAME_MAX then
      (* error, too long frame *)
      let '(reader, src) := count_error reader (set_running 0 src) in
      (MIDIF_ERROR, reader, src, [])
    else if negb (running src =? 0) && negb (Z.land b 0x80 =? 0) then
      let src := set_push_back b src in
      let src := set_running 0 src in
      if (len (current src) =? 0)
         || negb (Z.rem (len (current src) - 1) 2 =? 0) then
        let '(reader, src) := count_error reader src in
        (MIDIF_ERROR, reader, src, [])
      else midi_frame_process reader src
    else
      let src :=
        if len (current src) =? 0 then
          if (b >=? 0x80) && (b <=? 0xef) then set_running b src
          else set_running 0 src
        else src in
      let src := set_current (frame_append b (current src)) src in
      let mf := current src in
      if Z.land (zget (data mf) 0) 0x80 =? 0 then
        (* bad byte *)
        let '(reader, src) := count_error reader (set_running 0 src) in
        (MIDIF_ERROR, reader, src, [])
      else
        let l := nth (Z.to_nat (zget (data mf) 0 - 0x80)) midi_frame_len 0 in
        if (l =? -0xf0) && (len mf >? 1) then
          (* system exclusive *)
          if b =? 0xf7 then midi_frame_process reader src
          else (MIDIF_NEXT, reader, src, [])
        else if (running src =? 0) && (l =? len mf) then
          midi_frame_process reader src
        else (MIDIF_NEXT, reader, src, []).

(** The loop of [midi_reader_inject] over the bytes of [mf], on the
    local source [src]: the early [return (i)] if one is taken, the
    final [i], the reader, the local source and the events. *)
Fixpoint inject_loop (n : nat) (i : Z) (mf : midi_frame_t)
    (reader : midi_reader_t) (src : midi_reader_source_t)
    : option Z * Z * midi_reader_t * midi_reader_source_t * list event :=
  match n with
  | O => (None, i, reader, src, [])
  | S n' =>
      if i <? len mf then
        let '(st, reader, src, evs) :=
          midi_reader_push_byte reader src (zget (data mf) i) in
        match st with
        | MIDIF_COMPLETE | MIDIF_NEXT =>
            let '(ret, i, reader, src, evs') :=
              inject_loop n' (i + 1) mf reader src in
            (ret, i, reader, src, evs ++ evs')
        | _ => (Some i, i, reader, src, evs)
        end
      else (None, i, reader, src, [])
  end.

(** The local source of [midi_reader_inject]. *)
Definition inject_source : midi_reader_source_t :=
  set_fd (-1) (fst (midi_reader_reset_source zero_source false)).

Definition midi_reader_inject (reader : midi_reader_t) (mf : midi_frame_t)
    : Z * midi_reader_t * list event :=
  if len mf =? 0 then (0, reader, [])
  else
    let '(ret, i, reader, src, evs) :=
      inject_loop (Z.to_nat (len mf)) 0 mf reader inject_source in
    match ret with
    | Some v => (v, reader, evs)
    | None =>
        (* push a fake active-sensing to conclude any pending
           running-status frame *)
        if negb (running src =? 0) then
          let '(_, reader, _, evs') := midi_reader_push_byte reader src 0xfe in
          (i, reader, evs ++ evs')
        else (i, reader, evs)
    end.

(** The body of the loop of [midi_reader_update] for the source [src]. *)
Definition update_visit (reader : midi_reader_t) (src : Z)
    : midi_reader_t * list event :=
  let s := get_source reader src in
  let '(b, s) := midi_reader_get_byte s in
  let '(st, reader, s, evs) := midi_reader_push_byte reader s b in
  let s := match st with
           | MIDIF_COMPLETE | MIDIF_ERROR | MIDIF_IOERROR | MIDIF_SKIPPED =>
               set_current (midi_frame_reset (current s)) s
           | MIDIF_NODATA | MIDIF_NEXT => s
           end in
  (set_sources (zset (sources reader) src s) reader, evs).

(** [for (src = start, i = 0; i < reader->nsources; i++, src++)]. *)
Fixpoint update_loop (n : nat) (src : Z) (reader : midi_reader_t)
    : midi_reader_t * list event :=
  match n with
  | O => (reader, [])
  | S n' =>
      let src := if src >=? nsources reader then 0 else src in
      let '(reader, evs) := update_visit reader src in
      let '(reader, evs') := update_loop n' (src + 1) reader in
      (reader, evs ++ evs')
  end.

(** [midi_reader_update]; [start] is the function's static variable,
    passed in and returned. *)
Definition midi_reader_update (start : Z) (rd : Z -> list Z)
    (reader : midi_reader_t) : bool * Z * midi_reader_t * list event :=
  let reader := midi_reader_read rd reader in
  let start := start + 1 in
  let start := if start >=? nsources reader then 0 else start in
  let '(reader, evs) :=
    update_loop (Z.to_nat (nsources reader)) start reader in
  ((q_len (frames reader) >? 0)
   && (q_offset (frames reader) <? q_len (frames reader)),
   start, reader, evs).

Definition midi_reader_get_next (start : Z) (rd : Z -> list Z)
    (reader : midi_reader_t)
    : option midi_frame_t * Z * midi_reader_t * list event :=
  let '(ok, start, reader, evs) := midi_reader_update start rd reader in
  if ok then
    let q := frames reader in
    (Some (get_frame q (q_offset q)), start,
     set_frames (mk_frames (q_len q) (q_offset q + 1) (q_frames q)) reader,
     evs)
  else (None, start, reader, evs).

Definition midi_reader_clear_queue (reader : midi_reader_t) : midi_reader_t :=
  if q_len (frames reader) >? 0 then set_frames zero_frames reader
  else reader.

Definition midi_reader_get_stats (reader : midi_reader_t) (n : Z)
    : option midi_reader_stats_t :=
  if (n <? -1) || (n >=? nsources reader) then None
  else if n =? -1 then Some (total reader)
  else Some (stats (get_source reader n)).

Definition midi_reader_reset_stats (reader : midi_reader_t) (n : Z)
    : midi_reader_t :=
  if (n <? -1) || (n >=? nsources reader) then reader
  else if n =? -1 then set_total zero_stats reader
  else
    set_sources
      (zset (sources reader) n (set_stats zero_stats (get_source reader n)))
      reader.

(** ** midi_reader.c : the operations that wrap the ones above *)

Definition MIDI_READER_VERSION : Z := 104.

Definition midi_reader_get_version : Z := MIDI_READER_VERSION.

(** [midi_reader_add_source_path]; [open_ p] is what
    [open (p, O_RDONLY | O_NONBLOCK)] returns, [path] is [None] for a
    null pointer. *)
Definition midi_reader_add_source_path (reader : midi_reader_t)
    (open_ : string -> Z) (path : option string) (chan : Z)
    : bool * midi_reader_t * list event :=
  match path with
  | Some p =>
      let f := open_ p in
      if f >? -1 then
        let '(ok, reader') := midi_reader_add_source reader f chan in
        if negb ok then (false, reader', [EvClose f])
        else (true, reader', [])
      else (false, reader, [])
  | None => (false, reader, [])
  end.

(** [midi_reader_set_dump_file]; [open_ p trunc] is what
    [open (p, O_CREAT | O_WRONLY | O_CLOEXEC [| O_TRUNC], 0600)]
    returns. *)
Definition midi_reader_set_dump_file (reader : midi_reader_t)
    (open_ : string -> bool -> Z) (path : option string) (trunc : bool)
    : bool * midi_reader_t * list event :=
  match path with
  | Some p =>
      let f := open_ p trunc in
      if f >? -1 then
        let '(ok, reader') := midi_reader_set_dump_fd reader f in
        if negb ok then (false, reader', [EvClose f])
        else (true, reader', [])
      else (false, reader, [])
  | None => (false, reader, [])
  end.

(** [midi_reader_inject_bytes] (and [MidiReader::inject (int n, ...)],
    which has the same body): [args] are the variadic arguments, [f] is
    the automatic variable the frame is built in, with whatever the
    stack holds. *)
Definition midi_reader_inject_bytes (reader : midi_reader_t) (n : Z)
    (args : list Z) (f : midi_frame_t) : Z * midi_reader_t * list event :=
  if (n <=? 0) || (n >? MIDI_FRAME_MAX) then (0, reader, [])
  else
    let f := midi_frame_reset f in
    let f :=
      fold_left
        (fun (g : midi_frame_t) (i : nat) =>
           set_data (zset (data g) (Z.of_nat i) (uchar (nth i args 0))) g)
        (seq 0 (Z.to_nat n)) f in
    let f := set_len (uchar n) f in
    midi_reader_inject reader f.

(** ** MidiReader.cpp : the members that do more than forward *)

(** [MidiReader::~MidiReader]: [close ()] then [clearQueue ()]. *)
Definition MidiReader_destroy (reader : midi_reader_t)
    : midi_reader_t * list event :=
  let '(reader, evs) := midi_reader_close reader in
  (midi_reader_clear_queue reader, evs).

(** [MidiReader::available]. *)
Definition MidiReader_available (reader : midi_reader_t) : Z :=
  q_len (frames reader).

(** * Specification vocabulary

    Drivers that run the operations in sequence, observations on their
    results, well-formedness conditions and the invariants used below. *)

(** Feed the bytes of a list, one call of [midi_reader_push_byte] each,
    to one source; the outcomes are collected in order. *)
Fixpoint feed (reader : midi_reader_t) (src : midi_reader_source_t)
    (bytes : list Z)
    : list midi_frame_state_t * midi_reader_t * midi_reader_source_t
      * list event :=
  match bytes with
  | [] => ([], reader, src, [])
  | b :: bytes' =>
      let '(st, reader, src, evs) := midi_reader_push_byte reader src b in
      let '(sts, reader, src, evs') := feed reader src bytes' in
      (st :: sts, reader, src, evs ++ evs')
  end.

(** A source as [midi_reader_reset_source (src, false)] leaves it. *)
Definition fresh_source : midi_reader_source_t :=
  fst (midi_reader_reset_source zero_source false).

(** The bytes a frame holds: [data[0 .. len-1]]. *)
Definition frame_bytes (mf : midi_frame_t) : list Z :=
  take (Z.to_nat (len mf)) (data mf).

(** The result of the skip test of [midi_frame_process] for a first byte. *)
Definition skip_match (reader : midi_reader_t) (b : Z) : bool :=
  match to_skip reader with
  | Some p => skip_scan p b
  | None => false
  end.

(** The arrays have their declared sizes and the counts are within them. *)
Definition reader_wf (r : midi_reader_t) : Prop :=
  length (sources r) = Z.to_nat MIDI_READER_IN_MAX
  /\ 0 <= nsources r <= MIDI_READER_IN_MAX
  /\ length (q_frames (frames r)) = Z.to_nat MIDI_READER_FRAMES_MAX
  /\ 0 <= q_offset (frames r) <= q_len (frames r)
  /\ q_len (frames r) <= MIDI_READER_FRAMES_MAX.

(** Some source among the first [nsources] has descriptor [f]. *)
Definition has_fd (r : midi_reader_t) (f : Z) : Prop :=
  exists i, 0 <= i < nsources r /\ fd (get_source r i) = f.

(** Register the descriptors of a list, in order, without channel
    translation. *)
Definition add_sources (fds : list Z) (r : midi_reader_t) : midi_reader_t :=
  fold_left (fun rd f => snd (midi_reader_add_source rd f (-1))) fds r.

(** A reader with all [MIDI_READER_IN_MAX] slots taken, by the
    descriptors 0 .. 63. *)
Definition full_reader : midi_reader_t :=
  add_sources (map Z.of_nat (seq 0 (Z.to_nat MIDI_READER_IN_MAX)))
              (midi_reader_init MIDIR_NONE None).

(** A frame holding the given bytes, the rest of the array cleared. *)
Definition frame_of (bytes : list Z) : midi_frame_t :=
  mk_frame (Z.of_nat (length bytes))
           (bytes ++ repeat 0 (Z.to_nat MIDI_FRAME_MAX - length bytes)).

(** A run of [mf->data[mf->len++] = d], one per byte of a list. *)
Definition frame_append_all (ds : list Z) (mf : midi_frame_t) : midi_frame_t :=
  fold_left (fun f d => frame_append d f) ds mf.

(** The outcomes of a [feed]. *)
Definition outcomes
    (x : list midi_frame_state_t * midi_reader_t * midi_reader_source_t
         * list event) : list midi_frame_state_t :=
  fst (fst (fst x)).

(** The source a [feed] leaves. *)
Definition final_source
    (x : list midi_frame_state_t * midi_reader_t * midi_reader_source_t
         * list event) : midi_reader_source_t :=
  snd (fst x).

(** The outcome, the reader and the source in the result of
    [midi_frame_process] and [midi_reader_push_byte]. *)
Definition res_state
    (x : midi_frame_state_t * midi_reader_t * midi_reader_source_t
         * list event) : midi_frame_state_t := fst (fst (fst x)).
Definition res_reader
    (x : midi_frame_state_t * midi_reader_t * midi_reader_source_t
         * list event) : midi_reader_t := snd (fst (fst x)).
Definition res_source
    (x : midi_frame_state_t * midi_reader_t * midi_reader_source_t
         * list event) : midi_reader_source_t := snd (fst x).

(** Finalize the in-progress frames of a list of sources, one call of
    [midi_frame_process] each, in order. *)
Fixpoint process_all (reader : midi_reader_t)
    (ss : list midi_reader_source_t)
    : list midi_frame_state_t * midi_reader_t * list midi_reader_source_t
      * list event :=
  match ss with
  | [] => ([], reader, [], [])
  | s :: ss' =>
      let '(st, reader, s', evs) := midi_frame_process reader s in
      let '(sts, reader, ss'', evs') := process_all reader ss' in
      (st :: sts, reader, s' :: ss'', evs ++ evs')
  end.

(** Successive calls of [midi_reader_get_next], one per element of
    [rds] (what the descriptors deliver at that call); the frames
    returned, in order, and the reader left. *)
Fixpoint get_next_all (start : Z) (rds : list (Z -> list Z))
    (reader : midi_reader_t) : list (option midi_frame_t) * midi_reader_t :=
  match rds with
  | [] => ([], reader)
  | rd :: rds' =>
      let '(f, start, reader, _) := midi_reader_get_next start rd reader in
      let '(fs, reader) := get_next_all start rds' reader in
      (f :: fs, reader)
  end.

(** The frame as it stands in [midi_frame_process] when the callback is
    reached: after channel translation and expansion. *)
Definition prepared_frame (r : midi_reader_t) (s : midi_reader_source_t)
    : midi_frame_t :=
  let mf := channel_translate (channel s) (current s) in
  if has_flag (flags r) MIDIR_EXPAND
  then snd (midi_frame_expand_running mf) else mf.

(** The frame as it stands when the dump and store steps are reached. *)
Definition delivered_frame (r : midi_reader_t) (s : midi_reader_source_t)
    : midi_frame_t :=
  match callback r with
  | None => prepared_frame r s
  | Some cb => snd (cb (prepared_frame r s) (user_data r))
  end.

Definition is_complete (st : midi_frame_state_t) : bool :=
  match st with MIDIF_COMPLETE => true | _ => false end.

(** A source whose in-progress frame the reader accepts: the frame is
    not empty, its first byte is not skipped, and the callback, if any,
    answers MIDIF_COMPLETE without emptying the frame. *)
Definition acceptable (r : midi_reader_t) (s : midi_reader_source_t) : bool :=
  negb (len (current s) =? 0)
  && negb (skip_match r (zget (data (current s)) 0))
  && match callback r with
     | None => true
     | Some cb =>
         is_complete (fst (cb (prepared_frame r s) (user_data r)))
         && negb (len (snd (cb (prepared_frame r s) (user_data r))) =? 0)
     end.

(** The queue holds unconsumed frames. *)
Definition queue_pending (q : midi_frames_t) : Prop :=
  length (q_frames q) = Z.to_nat MIDI_READER_FRAMES_MAX
  /\ 0 <= q_offset q < q_len q
  /\ q_len q <= MIDI_READER_FRAMES_MAX.

(** [q'] is [q] with frames possibly added at the end: same read
    offset, and the frames [q] held are still in place. *)
Definition queue_ext (q q' : midi_frames_t) : Prop :=
  length (q_frames q') = length (q_frames q)
  /\ q_offset q' = q_offset q
  /\ q_len q <= q_len q' <= MIDI_READER_FRAMES_MAX
  /\ (forall i, 0 <= i < q_len q -> get_frame q' i = get_frame q i).

(** What [midi_frame_process] and [midi_reader_push_byte] may do to the
    reader: nothing, a change of the cumulative counters, or that and a
    run of the store step. *)
Inductive reader_shape (r : midi_reader_t) : midi_reader_t -> Prop :=
  | shape_same : reader_shape r r
  | shape_total (t : midi_reader_stats_t) : reader_shape r (set_total t r)
  | shape_store (t : midi_reader_stats_t) (mf : midi_frame_t) :
      reader_shape r (store_step (set_total t r) mf).

(** The queue of [r] holds exactly the frames [fs], oldest first, none
    of them consumed. *)
Definition queue_holds (r : midi_reader_t) (fs : list midi_frame_t) : Prop :=
  length (q_frames (frames r)) = Z.to_nat MIDI_READER_FRAMES_MAX
  /\ Z.of_nat (length fs) <= MIDI_READER_FRAMES_MAX
  /\ ((fs = [] /\ q_len (frames r) = q_offset (frames r))
      \/ (fs <> [] /\ q_offset (frames r) = 0
          /\ q_len (frames r) = Z.of_nat (length fs)))
  /\ (forall j, (j < length fs)%nat ->
        nth j (q_frames (frames r)) zero_frame = nth j fs zero_frame).

(** The source as [midi_frame_process] leaves it after an accepted
    frame. *)
Definition processed_source (r : midi_reader_t) (s : midi_reader_source_t)
    : midi_reader_source_t :=
  set_current (delivered_frame r s) (set_stats (incr_read (stats s)) s).

(** 1025 sources, each with a complete timing-clock frame in progress. *)
Definition clock_sources : list midi_reader_source_t :=
  repeat (set_current (frame_of [0xf8]) fresh_source) 1025.

(** A frame within the bounds of its array. *)
Definition frame_wf (mf : midi_frame_t) : Prop :=
  0 <= len mf <= MIDI_FRAME_MAX
  /\ length (data mf) = Z.to_nat MIDI_FRAME_MAX.

(** A callback that leaves the frame it was handed within the bounds of
    its array. *)
Definition callback_ok (cb : midi_reader_callback_t) : Prop :=
  forall mf ud, frame_wf mf -> frame_wf (snd (cb mf ud)).

Definition callbacks_ok (r : midi_reader_t) : Prop :=
  forall cb, callback r = Some cb -> callback_ok cb.

(** The parse state of a source: while a running status is tracked,
    the frame in progress starts with that status byte. *)
Definition source_inv (s : midi_reader_source_t) : Prop :=
  frame_wf (current s)
  /\ (running s <> 0 ->
      1 <= len (current s)
      /\ zget (data (current s)) 0 = running s
      /\ 0x80 <= running s <= 0xef).

Definition reader_inv (r : midi_reader_t) : Prop :=
  Forall source_inv (sources r) /\ callbacks_ok r.

(** The reader states reached from [midi_reader_init] by the public
    operations, the callbacks installed keeping frames within bounds.
    [midi_reader_add_source_path], [midi_reader_set_dump_file] and
    [midi_reader_inject_bytes] reach the states of the operation they
    wrap; [midi_reader_poll], [midi_reader_get_stats] and
    [midi_reader_get_version] change nothing.  The states between two
    steps of [midi_reader_update] are included ([reach_read],
    [reach_visit]), so that every call of [midi_reader_push_byte] the
    loop makes starts from a state of this set. *)
Inductive reachable : midi_reader_t -> Prop :=
  | reach_init (fl : Z) (skip : option (list Z)) :
      reachable (midi_reader_init fl skip)
  | reach_add_source r f chan :
      reachable r -> reachable (snd (midi_reader_add_source r f chan))
  | reach_remove_source r f :
      reachable r -> reachable (snd (fst (midi_reader_remove_source r f)))
  | reach_set_dump_fd r f :
      reachable r -> reachable (snd (midi_reader_set_dump_fd r f))
  | reach_set_callback r cb ud :
      reachable r -> (forall c, cb = Some c -> callback_ok c) ->
      reachable (midi_reader_set_callback r cb ud)
  | reach_update r start rd :
      reachable r -> reachable (snd (fst (midi_reader_update start rd r)))
  | reach_get_next r start rd :
      reachable r -> reachable (snd (fst (midi_reader_get_next start rd r)))
  | reach_inject r mf :
      reachable r -> reachable (snd (fst (midi_reader_inject r mf)))
  | reach_clear_queue r :
      reachable r -> reachable (midi_reader_clear_queue r)
  | reach_reset_stats r n :
      reachable r -> reachable (midi_reader_reset_stats r n)
  | reach_close r :
      reachable r -> reachable (fst (midi_reader_close r))
  | reach_read r rd :
      reachable r -> reachable (midi_reader_read rd r)
  | reach_visit r src :
      reachable r -> reachable (fst (update_visit r src)).

(** The states of the local source of [midi_reader_inject]: it starts
    reset and is only touched by [midi_reader_push_byte]. *)
Inductive inject_reach : midi_reader_source_t -> Prop :=
  | inject_start : inject_reach inject_source
  | inject_push r src b :
      callbacks_ok r -> inject_reach src ->
      inject_reach (res_source (midi_reader_push_byte r src b)).

(** The test that opens the running-status boundary branch of
    [midi_reader_push_byte] for the byte [b]. *)
Definition boundary_branch (src : midi_reader_source_t) (b : Z) : bool :=
  negb (running src =? 0) && negb (Z.land (uchar b) 0x80 =? 0).

(** The outcomes on which [midi_reader_update] resets the frame. *)
Definition is_terminal (st : midi_frame_state_t) : bool :=
  match st with
  | MIDIF_COMPLETE | MIDIF_ERROR | MIDIF_IOERROR | MIDIF_SKIPPED => true
  | MIDIF_NODATA | MIDIF_NEXT => false
  end.

(** What a call of the byte state machine (result [x], from reader [r]
    and source [s]) does to the counters: one and the same update [f]
    of [read], [errors] and [skipped] is applied to the counters of the
    source and to the cumulative ones, [f] is one of the updates the
    outcome allows, and [missed] is counted cumulatively only, on a
    completed frame. *)
Definition stats_mirrored (r : midi_reader_t) (s : midi_reader_source_t)
    (x : midi_frame_state_t * midi_reader_t * midi_reader_source_t
         * list event) : Prop :=
  exists f : midi_reader_stats_t -> midi_reader_stats_t,
    stats (res_source x) = f (stats s)
    /\ (total (res_reader x) = f (total r)
        \/ (res_state x = MIDIF_COMPLETE
            /\ total (res_reader x) = incr_missed (f (total r))))
    /\ match res_state x with
       | MIDIF_COMPLETE => f = incr_read
       | MIDIF_SKIPPED => f = (fun st => incr_skipped (incr_read st))
       | MIDIF_ERROR | MIDIF_IOERROR =>
           f = incr_errors \/ f = (fun st => incr_errors (incr_read st))
       | MIDIF_NEXT | MIDIF_NODATA =>
           f = (fun st => st) \/ f = incr_read
           \/ f = (fun st => incr_errors (incr_read st))
       end.

(** The events of [midi_frame_process] on an accepted frame: the
    diagnostic of the debug flag, the call of the callback if one is
    registered, the dump. *)
Definition accept_events (r : midi_reader_t) (s : midi_reader_source_t)
    : list event :=
  debug_output (flags r) false (current s)
  ++ match callback r with
     | None => []
     | Some _ => [EvCallback (prepared_frame r s) (user_data r)]
     end
  ++ dump_step r (delivered_frame r s).

(** A reader whose queue is full of timing-clock frames, none of them
    consumed. *)
Definition clogged_reader : midi_reader_t :=
  set_frames
    (mk_frames MIDI_READER_FRAMES_MAX 0
       (repeat (frame_of [0xf8]) (Z.to_nat MIDI_READER_FRAMES_MAX)))
    (midi_reader_set_callback
       (snd (midi_reader_set_dump_fd (midi_reader_init MIDIR_NONE None) 7))
       (Some (fun mf _ => (MIDIF_COMPLETE, mf))) 0).

(** The input buffer of a source within its bounds: read and write
    offsets ordered and within the array, bytes and push-back byte in
    the range of [unsigned char]. *)
Definition source_bounds (s : midi_reader_source_t) : Prop :=
  length (buf s) = Z.to_nat MIDI_READER_BUF_MAX
  /\ 0 <= buf_offset s <= buf_len s
  /\ buf_len s <= MIDI_READER_BUF_MAX
  /\ -1 <= push_back s <= 255
  /\ 0 <= running s <= 255
  /\ Forall (fun b => 0 <= b <= 255) (buf s).

(** Every index the reader keeps is within the array it indexes. *)
Definition reader_bounds (r : midi_reader_t) : Prop :=
  reader_wf r
  /\ Forall source_bounds (sources r)
  /\ Forall (fun s => frame_wf (current s)) (sources r).

(** One run of the body of the loop of [midi_reader_update] for each
    index of a list, in order. *)
Fixpoint visit_all (l : list Z) (r : midi_reader_t)
    : midi_reader_t * list event :=
  match l with
  | [] => (r, [])
  | i :: l' =>
      let '(r1, e1) := update_visit r i in
      let '(r2, e2) := visit_all l' r1 in
      (r2, e1 ++ e2)
  end.

(** The indices 0 .. n-1 in cyclic order from [start]. *)
Definition cyclic_order (n start : Z) : list Z :=
  map (fun k => (start + Z.of_nat k) mod n) (seq 0 (Z.to_nat n)).

(** The bytes a source holds that [midi_reader_get_byte] has not handed
    out yet, next one first: the pushed-back byte, then the unread part
    of the input buffer. *)
Definition pending_bytes (s : midi_reader_source_t) : list Z :=
  (if push_back s >? -1 then [push_back s] else [])
  ++ drop (Z.to_nat (buf_offset s)) (take (Z.to_nat (buf_len s)) (buf s)).

(** A slot of the source table as [midi_reader_reset_source] leaves it
    when asked to close. *)
Definition closed_source : midi_reader_source_t :=
  fst (midi_reader_reset_source zero_source true).

(** The configuration of the reader and its source table: what
    injection must leave alone. *)
Definition same_setup (r r' : midi_reader_t) : Prop :=
  flags r' = flags r /\ sources r' = sources r /\ nsources r' = nsources r
  /\ dumpfd r' = dumpfd r /\ to_skip r' = to_skip r
  /\ callback r' = callback r /\ user_data r' = user_data r.

(** The bytes 0 .. 255. *)
Definition all_bytes : list Z := map Z.of_nat (seq 0 256).

(** The test that two bytes with the same ["%.2x "] rendering are equal. *)
Definition hex2_distinct (a b : Z) : bool :=
  implb (String.eqb (hex2 a) (hex2 b)) (a =? b).

(** The event is an output on the descriptor [f]. *)
Definition writes_to (f : Z) (e : event) : bool :=
  match e with
  | EvWrite g _ | EvDprintf g _ => g =? f
  | EvClose _ | EvCallback _ _ => false
  end.

(** * Properties *)

(** Case analysis on every test of a conditional in the goal. *)
Ltac break_ifs :=
  repeat match goal with
         | |- context [if ?c then _ else _] => destruct c
         end.

(** ** Array lemmas *)

Lemma zget_zset_eq (l : list Z) (i v : Z) :
  (Z.to_nat i < length l)%nat -> zget (zset l i v) i = v.
Proof.
  intros H. unfold zget, zset.
  rewrite nth_lookup, list_lookup_insert_eq by exact H. reflexivity.
Qed.

Lemma zget_zset_ne (l : list Z) (i j v : Z) :
  Z.to_nat i <> Z.to_nat j -> zget (zset l i v) j = zget l j.
Proof.
  intros H. unfold zget, zset.
  rewrite !nth_lookup, list_lookup_insert_ne by exact H. reflexivity.
Qed.

Lemma nth_zset_eq {A : Type} (l : list A) (i : Z) (v d : A) :
  (Z.to_nat i < length l)%nat -> nth (Z.to_nat i) (zset l i v) d = v.
Proof.
  intros H. unfold zset.
  rewrite nth_lookup, list_lookup_insert_eq by exact H. reflexivity.
Qed.

Lemma nth_zset_ne {A : Type} (l : list A) (i : Z) (k : nat) (v d : A) :
  Z.to_nat i <> k -> nth k (zset l i v) d = nth k l d.
Proof.
  intros H. unfold zset.
  rewrite !nth_lookup, list_lookup_insert_ne by exact H. reflexivity.
Qed.

Lemma length_zset {A : Type} (l : list A) (i : Z) (v : A) :
  length (zset l i v) = length l.
Proof. unfold zset. apply length_insert. Qed.

(** A boolean property checked on every element of a range holds on the
    range. *)
Lemma Zrange_forallb (P : Z -> bool) (a : Z) (n : nat) :
  forallb P (map (fun k => a + Z.of_nat k) (seq 0 n)) = true ->
  forall x, a <= x < a + Z.of_nat n -> P x = true.
Proof.
  intros H x Hx. rewrite forallb_forall in H. apply H.
  apply in_map_iff. exists (Z.to_nat (x - a)). split; [lia|].
  apply in_seq. lia.
Qed.

(** ** Statistics reset (C10) *)

(** C10: [midi_reader_reset_stats] with index -1 zeroes the cumulative
    counters and leaves the source table as it is; with an index [n] of
    a registered source it zeroes the counters of source [n] and leaves
    the cumulative counters, every other field of source [n] and every
    other source as they are; with any other index the reader is
    unchanged. *)
Theorem reset_stats_frame (r : midi_reader_t) (n : Z) :
  reader_wf r ->
  (n = -1 ->
     total (midi_reader_reset_stats r n) = zero_stats
     /\ sources (midi_reader_reset_stats r n) = sources r
     /\ midi_reader_reset_stats r n = set_total zero_stats r)
  /\ (0 <= n < nsources r ->
        let r' := midi_reader_reset_stats r n in
        total r' = total r
        /\ stats (get_source r' n) = zero_stats
        /\ get_source r' n = set_stats zero_stats (get_source r n)
        /\ (forall m, 0 <= m -> m <> n -> get_source r' m = get_source r m)
        /\ r' = set_sources (sources r') r)
  /\ (n < -1 \/ n >= nsources r -> midi_reader_reset_stats r n = r).
Proof.
  intros (Hlen & Hn & _). unfold midi_reader_reset_stats.
  split; [|split].
  - intros ->. simpl.
    destruct (-1 >=? nsources r) eqn:E; [lia|]. simpl. auto.
  - intros Hr. cbv zeta.
    destruct (n <? -1) eqn:E1; [lia|].
    destruct (n >=? nsources r) eqn:E2; [lia|].
    destruct (n =? -1) eqn:E3; [lia|]. simpl.
    assert (Hin : (Z.to_nat n < length (sources r))%nat).
    { rewrite Hlen. unfold MIDI_READER_IN_MAX in *. lia. }
    set (r' := set_sources _ r).
    assert (Hget : get_source r' n = set_stats zero_stats (get_source r n)).
    { unfold get_source at 1. simpl. apply nth_zset_eq. exact Hin. }
    split; [reflexivity|]. rewrite Hget.
    split; [reflexivity|]. split; [reflexivity|]. split; [|reflexivity].
    intros m Hm Hne. unfold get_source. simpl.
    apply nth_zset_ne. lia.
  - intros [H|H].
    + destruct (n <? -1) eqn:E1; [reflexivity|lia].
    + destruct (n >=? nsources r) eqn:E2; [|lia].
      rewrite orb_true_r. reflexivity.
Qed.

Lemma reset_stats_frame_witness :
  let r := add_sources [3; 4] (midi_reader_init MIDIR_NONE None) in
  total (midi_reader_reset_stats r 1) = total r
  /\ stats (get_source (midi_reader_reset_stats r 1) 1) = zero_stats
  /\ get_source (midi_reader_reset_stats r 1) 1
     = set_stats zero_stats (get_source r 1)
  /\ (forall m, 0 <= m -> m <> 1 ->
        get_source (midi_reader_reset_stats r 1) m = get_source r m)
  /\ midi_reader_reset_stats r 1
     = set_sources (sources (midi_reader_reset_stats r 1)) r.
Proof.
  intros r.
  refine (proj1 (proj2 (reset_stats_frame r 1 _)) _).
  - repeat split; try reflexivity; vm_compute; congruence.
  - vm_compute. split; congruence.
Defined.

(** ** Adding a source (C8) *)

Lemma find_fd_bounds (l : list midi_reader_source_t) (n : nat) (k f : Z) :
  k <= find_fd l n k f <= k + Z.of_nat n.
Proof.
  revert n k. induction l as [|s l IH]; intros [|n] k; simpl; try lia.
  destruct (fd s =? f); [lia|]. specialize (IH n (k + 1)). lia.
Qed.

Lemma find_fd_found (l : list midi_reader_source_t) (n i : nat) (k f : Z) :
  (i < n)%nat -> fd (nth i l zero_source) = f ->
  find_fd l n k f <= k + Z.of_nat i.
Proof.
  revert n i k. induction l as [|s l IH]; intros [|n] i k Hi Hf; simpl; try lia.
  destruct (fd s =? f) eqn:E; [lia|].
  destruct i as [|i]; simpl in Hf; [lia|].
  specialize (IH n i (k + 1)). lia.
Qed.

Lemma find_fd_hit (l : list midi_reader_source_t) (n : nat) (k f : Z) :
  (n <= length l)%nat ->
  find_fd l n k f < k + Z.of_nat n ->
  fd (nth (Z.to_nat (find_fd l n k f - k)) l zero_source) = f.
Proof.
  revert n k. induction l as [|s l IH]; intros [|n] k Hn Hlt; simpl in *; try lia.
  destruct (fd s =? f) eqn:E.
  - replace (k - k) with 0 by lia. simpl. lia.
  - pose proof (find_fd_bounds l n (k + 1) f) as Hb.
    replace (Z.to_nat (find_fd l n (k + 1) f - k))
      with (S (Z.to_nat (find_fd l n (k + 1) f - (k + 1)))) by lia.
    simpl. apply IH; lia.
Qed.

Lemma has_fd_found (r : midi_reader_t) (f : Z) :
  has_fd r f ->
  find_fd (sources r) (Z.to_nat (nsources r)) 0 f < nsources r.
Proof.
  intros (i & Hi & Hf). unfold get_source in Hf.
  pose proof (find_fd_found (sources r) (Z.to_nat (nsources r)) (Z.to_nat i) 0 f
                ltac:(lia) Hf). lia.
Qed.

(** C8, as stated, fails on a full reader: descriptor 5 is registered,
    yet adding it again is refused. *)
Lemma add_source_full_counterexample :
  (0 <= 5 < nsources full_reader /\ fd (get_source full_reader 5) = 5)
  /\ midi_reader_add_source full_reader 5 (-1) = (false, full_reader).
Proof. vm_compute. repeat split; congruence. Qed.

(** C8 (amended): while the reader holds fewer than 64 sources, adding a
    descriptor (>= 0) that is already registered returns true and leaves
    the reader unchanged; once the reader holds 64 sources every
    addition is refused and leaves the reader unchanged, whether or not
    the descriptor is registered. *)
Theorem add_source_present_or_full (r : midi_reader_t) (f chan : Z) :
  (has_fd r f -> 0 <= f -> nsources r < MIDI_READER_IN_MAX ->
     midi_reader_add_source r f chan = (true, r))
  /\ (nsources r >= MIDI_READER_IN_MAX ->
        midi_reader_add_source r f chan = (false, r)).
Proof.
  unfold midi_reader_add_source. split.
  - intros Hp Hf Hn. apply has_fd_found in Hp.
    destruct (f >? -1) eqn:E1; [|lia].
    destruct (nsources r <? MIDI_READER_IN_MAX) eqn:E2; [|lia]. simpl.
    destruct (find_fd _ _ _ _ <? nsources r) eqn:E3; [reflexivity|lia].
  - intros Hn.
    destruct (nsources r <? MIDI_READER_IN_MAX) eqn:E2; [lia|].
    rewrite andb_false_r. reflexivity.
Qed.

Lemma add_source_present_or_full_witness :
  midi_reader_add_source
    (add_sources [7; 9] (midi_reader_init MIDIR_NONE None)) 9 3
  = (true, add_sources [7; 9] (midi_reader_init MIDIR_NONE None)).
Proof.
  apply (proj1 (add_source_present_or_full _ 9 3)).
  - exists 1. vm_compute. repeat split; congruence.
  - lia.
  - vm_compute. reflexivity.
Defined.

(** ** Running-status expansion on short frames (C3) *)

(** C3, as stated, fails for the lengths 2 and 1: a two-byte frame is
    refused, and a one-byte frame is reported expanded but comes back
    empty. *)
Lemma expand_short_counterexample :
  midi_frame_expand_running (frame_of [0xC0; 0x05])
    = (false, frame_of [0xC0; 0x05])
  /\ fst (midi_frame_expand_running (frame_of [0x90])) = true
  /\ len (snd (midi_frame_expand_running (frame_of [0x90]))) = 0
  /\ frame_of [0x90] <> snd (midi_frame_expand_running (frame_of [0x90])).
Proof. vm_compute. repeat split; congruence. Qed.

(** C3 (amended): on a frame whose first byte is a channel-voice status,
    expansion of a frame of length 3 returns true and leaves the frame
    unchanged, and expansion of a frame of length 2 returns false and
    leaves the frame unchanged. *)
Theorem expand_running_len3_len2 (mf : midi_frame_t) :
  0x80 <= zget (data mf) 0 <= 0xef ->
  (len mf = 3 -> midi_frame_expand_running mf = (true, mf))
  /\ (len mf = 2 -> midi_frame_expand_running mf = (false, mf)).
Proof.
  intros Hs. unfold midi_frame_expand_running. split; intros Hl; rewrite Hl.
  - rewrite orb_true_r. reflexivity.
  - destruct (zget (data mf) 0 <? 128) eqn:E1; [lia|].
    destruct (zget (data mf) 0 >? 239) eqn:E2; [lia|]. reflexivity.
Qed.

Lemma expand_running_len3_len2_witness :
  midi_frame_expand_running (frame_of [0x90; 0x40; 0x7f])
    = (true, frame_of [0x90; 0x40; 0x7f])
  /\ midi_frame_expand_running (frame_of [0xD3; 0x11])
    = (false, frame_of [0xD3; 0x11]).
Proof.
  split.
  - apply (proj1 (expand_running_len3_len2 (frame_of [0x90; 0x40; 0x7f])
                    ltac:(vm_compute; split; congruence))).
    reflexivity.
  - apply (proj2 (expand_running_len3_len2 (frame_of [0xD3; 0x11])
                    ltac:(vm_compute; split; congruence))).
    reflexivity.
Defined.

(** ** Skipped frames (C7) *)

Lemma skip_scan_entry (pre post : list Z) (b : Z) :
  Forall (fun x => x <> 0) pre -> b <> 0 ->
  skip_scan (pre ++ b :: post) b = true.
Proof.
  intros Hpre Hb. induction Hpre as [|x pre Hx _ IH]; simpl.
  - destruct (b =? 0) eqn:E; [lia|]. rewrite Z.eqb_refl. reflexivity.
  - destruct (x =? 0) eqn:E; [lia|]. destruct (b =? x); [reflexivity|exact IH].
Qed.

Lemma debug_output_stderr (fl : Z) (skp : bool) (mf : midi_frame_t) (e : event) :
  In e (debug_output fl skp mf) -> exists text, e = EvDprintf 2 text.
Proof.
  unfold debug_output, midi_frame_dump. destruct (has_flag fl MIDIR_DEBUG); [|intros []].
  simpl. intros [<-|H]; [eauto|].
  apply in_app_or in H. destruct H as [H|[<-|[]]]; [|eauto].
  apply in_map_iff in H. destruct H as (j & <- & _). eauto.
Qed.

(** C7, as stated, fails when the debug flag is set and the dump
    descriptor is 2: the diagnostic of the skipped frame, with the
    hexadecimal rendering of its bytes, is printed on descriptor 2, which
    is the dump sink. *)
Lemma process_skipped_counterexample :
  let r := snd (midi_reader_set_dump_fd
                  (midi_reader_init MIDIR_DEBUG (Some [0xfe; 0])) 2) in
  let src := set_current (frame_of [0xfe]) fresh_source in
  skip_match r (zget (data (current src)) 0) = true
  /\ res_state (midi_frame_process r src) = MIDIF_SKIPPED
  /\ In (EvDprintf (dumpfd r) "fe ") (snd (midi_frame_process r src))
  /\ existsb (writes_to (dumpfd r)) (snd (midi_frame_process r src)) = true.
Proof.
  cbv zeta. split; [vm_compute; reflexivity|].
  split; [vm_compute; reflexivity|].
  split; [|vm_compute; reflexivity].
  right. left. vm_compute. reflexivity.
Qed.

(** C7 (amended): when a skip array is configured and the first byte of
    a non-empty frame is one of its entries (a non-zero byte that
    precedes the terminator), [midi_frame_process] returns MIDIF_SKIPPED,
    adds one to the [skipped] counter of the source and to the
    cumulative one (after having counted the frame as read), and leaves
    the frame queue and the frame untouched; neither the callback nor
    the dump step is reached.  The only output is the diagnostic of the
    debug flag, on descriptor 2: nothing at all without that flag, and
    nothing on the dump descriptor unless the flag is set and the dump
    descriptor is 2. *)
Theorem process_skipped (r : midi_reader_t) (src : midi_reader_source_t)
    (p pre post : list Z) (b : Z) :
  to_skip r = Some p ->
  p = pre ++ b :: post -> Forall (fun x => x <> 0) pre -> b <> 0 ->
  len (current src) <> 0 ->
  zget (data (current src)) 0 = b ->
  let r' := set_total (incr_skipped (incr_read (total r))) r in
  let src' := set_stats (incr_skipped (incr_read (stats src))) src in
  let evs := debug_output (flags r) true (current src) in
  midi_frame_process r src = (MIDIF_SKIPPED, r', src', evs)
  /\ skipped (total r') = ulong (skipped (total r) + 1)
  /\ skipped (stats src') = ulong (skipped (stats src) + 1)
  /\ frames r' = frames r
  /\ current src' = current src
  /\ (forall e, In e evs -> exists text, e = EvDprintf 2 text)
  /\ (has_flag (flags r) MIDIR_DEBUG = false -> evs = [])
  /\ (forall e mf ud, In e evs -> e <> EvCallback mf ud)
  /\ (has_flag (flags r) MIDIR_DEBUG = false \/ dumpfd r <> 2 ->
      forall e, In e evs -> writes_to (dumpfd r) e = false).
Proof.
  intros Hskip -> Hpre Hb Hlen Hd0 r' src' evs.
  assert (Hfd : forall e, In e evs -> exists text, e = EvDprintf 2 text).
  { intros e He. exact (debug_output_stderr _ _ _ _ He). }
  assert (Hoff : has_flag (flags r) MIDIR_DEBUG = false -> evs = []).
  { intros Hf. unfold evs, debug_output. rewrite Hf. reflexivity. }
  split; [|split; [|split; [|split; [|split; [|split; [|split; [|split]]]]]]];
    try reflexivity.
  - unfold midi_frame_process.
    destruct (len (current src) =? 0) eqn:E; [lia|].
    cbn [to_skip set_total]. rewrite Hskip, Hd0.
    rewrite (skip_scan_entry pre post b Hpre Hb). reflexivity.
  - exact Hfd.
  - exact Hoff.
  - intros e mf ud He. destruct (Hfd e He) as (text & ->). discriminate.
  - intros [Hf|Hd] e He.
    + rewrite (Hoff Hf) in He. destruct He.
    + destruct (Hfd e He) as (text & ->). cbn [writes_to].
      apply Z.eqb_neq. congruence.
Qed.

Lemma process_skipped_witness :
  midi_frame_process
    (midi_reader_init MIDIR_DEBUG (Some [0xf8; 0xfe; 0]))
    (set_current (frame_of [0xfe]) fresh_source)
  = (MIDIF_SKIPPED,
     set_total (incr_skipped (incr_read zero_stats))
       (midi_reader_init MIDIR_DEBUG (Some [0xf8; 0xfe; 0])),
     set_stats (incr_skipped (incr_read zero_stats))
       (set_current (frame_of [0xfe]) fresh_source),
     debug_output MIDIR_DEBUG true (frame_of [0xfe])).
Proof.
  refine (proj1 (process_skipped
            (midi_reader_init MIDIR_DEBUG (Some [0xf8; 0xfe; 0]))
            (set_current (frame_of [0xfe]) fresh_source)
            [0xf8; 0xfe; 0] [0xf8] [0] 0xfe _ _ _ _ _ _)).
  - reflexivity.
  - reflexivity.
  - repeat constructor. lia.
  - lia.
  - simpl. lia.
  - reflexivity.
Defined.

(** ** Byte classes *)

Lemma status_voice_facts (b : Z) :
  0x80 <= b <= 0xef ->
  (Z.land b 0x80 =? 0) = false
  /\ (nth (Z.to_nat (b - 0x80)) midi_frame_len 0 =? -0xf0) = false
  /\ uchar b = b.
Proof.
  intros Hb.
  pose proof (Zrange_forallb
    (fun b => negb (Z.land b 0x80 =? 0)
              && negb (nth (Z.to_nat (b - 0x80)) midi_frame_len 0 =? -0xf0)
              && (uchar b =? b))
    0x80 112 ltac:(vm_compute; reflexivity) b ltac:(lia)) as H.
  simpl in H. rewrite !andb_true_iff, !negb_true_iff in H.
  destruct H as ((H1 & H2) & H3). repeat split; try assumption. lia.
Qed.

Lemma status_byte_facts (b : Z) :
  0x80 <= b <= 0xff -> (Z.land b 0x80 =? 0) = false /\ uchar b = b.
Proof.
  intros Hb.
  pose proof (Zrange_forallb
    (fun b => negb (Z.land b 0x80 =? 0) && (uchar b =? b))
    0x80 128 ltac:(vm_compute; reflexivity) b ltac:(lia)) as H.
  simpl in H. rewrite !andb_true_iff, !negb_true_iff in H.
  destruct H as (H1 & H3). split; [assumption|lia].
Qed.

Lemma data_byte_facts (d : Z) :
  0 <= d < 0x80 -> (Z.land d 0x80 =? 0) = true /\ uchar d = d.
Proof.
  intros Hd.
  pose proof (Zrange_forallb
    (fun b => (Z.land b 0x80 =? 0) && (uchar b =? b))
    0 128 ltac:(vm_compute; reflexivity) d ltac:(lia)) as H.
  simpl in H. rewrite !andb_true_iff in H.
  destruct H as (H1 & H3). split; [assumption|lia].
Qed.

(** ** The byte state machine on channel-voice messages (C1, C2) *)

(** A status byte 0x80-0xEF opening an empty frame starts a running
    status and waits. *)
Lemma push_byte_voice_status (r : midi_reader_t) (src : midi_reader_source_t)
    (b : Z) :
  running src = 0 -> len (current src) = 0 ->
  (0 < length (data (current src)))%nat ->
  0x80 <= b <= 0xef ->
  midi_reader_push_byte r src b
  = (MIDIF_NEXT, r,
     set_current (frame_append b (current src)) (set_running b src), []).
Proof.
  intros Hrun Hlen Hdata Hb.
  destruct (status_voice_facts b Hb) as (Hhi & Htab & Hu).
  unfold midi_reader_push_byte.
  destruct (b <? 0) eqn:E1; [lia|].
  destruct (b >? 255) eqn:E2; [lia|].
  rewrite Hu, Hlen, Hrun. cbn [Z.eqb negb andb].
  destruct (b >=? 128) eqn:E3; [|lia].
  destruct (b <=? 239) eqn:E4; [|lia].
  cbn [andb current set_current set_running running frame_append data len].
  rewrite Hlen, zget_zset_eq by (simpl; lia).
  rewrite Hhi, Htab. cbn [andb].
  destruct (b =? 0) eqn:E5; [lia|]. reflexivity.
Qed.

Lemma uchar_small (x : Z) : 0 <= x < 256 -> uchar x = x.
Proof. intros H. unfold uchar. apply Z.mod_small. exact H. Qed.

(** A data byte arriving during a running status is appended and the
    machine keeps waiting. *)
Lemma push_byte_voice_data (r : midi_reader_t) (src : midi_reader_source_t)
    (d : Z) :
  running src <> 0 -> 0 <= d < 0x80 ->
  1 <= len (current src) < MIDI_FRAME_MAX ->
  0x80 <= zget (data (current src)) 0 <= 0xef ->
  midi_reader_push_byte r src d
  = (MIDIF_NEXT, r, set_current (frame_append d (current src)) src, []).
Proof.
  intros Hrun Hd Hlen Hd0. unfold MIDI_FRAME_MAX in Hlen.
  destruct (data_byte_facts d Hd) as (Hlo & Hu).
  destruct (status_voice_facts _ Hd0) as (Hhi & Htab & _).
  unfold midi_reader_push_byte.
  destruct (d <? 0) eqn:E1; [lia|].
  destruct (d >? 255) eqn:E2; [lia|].
  rewrite Hu, Hlo.
  destruct (len (current src) =? MIDI_FRAME_MAX) eqn:E3;
    [unfold MIDI_FRAME_MAX in E3; lia|].
  rewrite andb_false_r.
  destruct (len (current src) =? 0) eqn:E4; [lia|].
  cbn [current set_current frame_append data len running].
  rewrite zget_zset_ne by lia.
  rewrite Hhi, Htab. cbn [andb].
  destruct (running src =? 0) eqn:E5; [lia|]. reflexivity.
Qed.

(** A status byte arriving during a running status closes the run: it
    is pushed back and the frame accumulated so far is processed. *)
Lemma push_byte_boundary (r : midi_reader_t) (src : midi_reader_source_t)
    (t : Z) :
  running src <> 0 -> 0x80 <= t <= 0xff ->
  1 <= len (current src) < MIDI_FRAME_MAX ->
  Z.rem (len (current src) - 1) 2 = 0 ->
  midi_reader_push_byte r src t
  = midi_frame_process r (set_running 0 (set_push_back t src)).
Proof.
  intros Hrun Ht Hlen Hpar. unfold MIDI_FRAME_MAX in Hlen.
  destruct (status_byte_facts t Ht) as (Hhi & Hu).
  unfold midi_reader_push_byte.
  destruct (t <? 0) eqn:E1; [lia|].
  destruct (t >? 255) eqn:E2; [lia|].
  rewrite Hu, Hhi.
  destruct (len (current src) =? MIDI_FRAME_MAX) eqn:E3;
    [unfold MIDI_FRAME_MAX in E3; lia|].
  destruct (running src =? 0) eqn:E5; [lia|].
  cbn [negb andb current set_running set_push_back].
  destruct (len (current src) =? 0) eqn:E4; [lia|].
  rewrite Hpar. reflexivity.
Qed.

(** Processing with no skip match, no channel translation, no expansion
    and no callback: the frame is dumped and stored as it is. *)
Lemma process_plain (r : midi_reader_t) (src : midi_reader_source_t) :
  len (current src) <> 0 ->
  skip_match r (zget (data (current src)) 0) = false ->
  callback r = None ->
  has_flag (flags r) MIDIR_EXPAND = false ->
  channel src <= 0 ->
  midi_frame_process r src
  = (MIDIF_COMPLETE,
     store_step (set_total (incr_read (total r)) r) (current src),
     set_current (current src) (set_stats (incr_read (stats src)) src),
     debug_output (flags r) false (current src)
     ++ dump_step r (current src)).
Proof.
  intros Hlen Hskip Hcb Hex Hch. unfold midi_frame_process.
  destruct (len (current src) =? 0) eqn:E; [lia|].
  unfold skip_match in Hskip.
  cbn [to_skip set_total flags callback channel set_stats].
  rewrite Hskip, Hex, Hcb.
  unfold channel_translate.
  destruct (channel src >? 0) eqn:E1; [lia|]. reflexivity.
Qed.

Lemma frame_append_spec (d : Z) (mf : midi_frame_t) :
  0 <= len mf < MIDI_FRAME_MAX ->
  length (data mf) = Z.to_nat MIDI_FRAME_MAX ->
  len (frame_append d mf) = len mf + 1
  /\ length (data (frame_append d mf)) = Z.to_nat MIDI_FRAME_MAX
  /\ frame_bytes (frame_append d mf) = frame_bytes mf ++ [d]
  /\ (1 <= len mf ->
      zget (data (frame_append d mf)) 0 = zget (data mf) 0).
Proof.
  unfold MIDI_FRAME_MAX. intros Hlen Hdat.
  assert (Hl : len (frame_append d mf) = len mf + 1).
  { cbn [frame_append len]. apply uchar_small. lia. }
  split; [exact Hl|]. split; [|split].
  - cbn [frame_append data]. rewrite length_zset. exact Hdat.
  - unfold frame_bytes. rewrite Hl. cbn [frame_append data]. unfold zset.
    replace (Z.to_nat (len mf + 1)) with (S (Z.to_nat (len mf))) by lia.
    rewrite (take_S_r _ _ d) by (apply list_lookup_insert_eq; lia).
    rewrite take_insert_ge by lia. reflexivity.
  - intros H1. cbn [frame_append data]. apply zget_zset_ne. lia.
Qed.

Lemma frame_append_all_spec (ds : list Z) (mf : midi_frame_t) :
  0 <= len mf -> len mf + Z.of_nat (length ds) <= MIDI_FRAME_MAX ->
  length (data mf) = Z.to_nat MIDI_FRAME_MAX ->
  len (frame_append_all ds mf) = len mf + Z.of_nat (length ds)
  /\ length (data (frame_append_all ds mf)) = Z.to_nat MIDI_FRAME_MAX
  /\ frame_bytes (frame_append_all ds mf) = frame_bytes mf ++ ds
  /\ (1 <= len mf ->
      zget (data (frame_append_all ds mf)) 0 = zget (data mf) 0).
Proof.
  revert mf. induction ds as [|d ds IH]; intros mf Hlen Hsum Hdat.
  - simpl. rewrite Z.add_0_r, app_nil_r. auto.
  - simpl length in Hsum. cbn [frame_append_all fold_left]. fold (frame_append_all ds (frame_append d mf)).
    destruct (frame_append_spec d mf ltac:(lia) Hdat) as (H1 & H2 & H3 & H4).
    destruct (IH (frame_append d mf) ltac:(lia) ltac:(lia) H2)
      as (I1 & I2 & I3 & I4).
    split; [|split; [|split]].
    + rewrite I1, H1. simpl length. lia.
    + exact I2.
    + rewrite I3, H3, <- app_assoc. reflexivity.
    + intros Hge. rewrite I4 by lia. apply H4. exact Hge.
Qed.

(** Data bytes keep accumulating while the running status lasts. *)
Lemma feed_voice_data (r : midi_reader_t) (ds : list Z) :
  forall src : midi_reader_source_t,
  running src <> 0 ->
  Forall (fun d => 0 <= d < 0x80) ds ->
  1 <= len (current src) ->
  len (current src) + Z.of_nat (length ds) <= MIDI_FRAME_MAX ->
  length (data (current src)) = Z.to_nat MIDI_FRAME_MAX ->
  0x80 <= zget (data (current src)) 0 <= 0xef ->
  feed r src ds
  = (repeat MIDIF_NEXT (length ds), r,
     set_current (frame_append_all ds (current src)) src, []).
Proof.
  induction ds as [|d ds IH]; intros src Hrun Hds Hlen Hsum Hdat Hd0.
  - simpl. destruct src as [? ? ? ? ? ? [? ?] ? ?]. reflexivity.
  - inversion Hds as [|? ? Hd Hds']; subst. simpl length in Hsum.
    cbn [feed].
    rewrite push_byte_voice_data by (try assumption; lia).
    destruct (frame_append_spec d (current src) ltac:(lia) Hdat)
      as (H1 & H2 & _ & H4).
    rewrite IH; cbn [current set_current running]; try assumption; try lia.
    reflexivity.
Qed.

Lemma table_lengths (s : Z) :
  (0x80 <= s <= 0xbf \/ 0xe0 <= s <= 0xef ->
     nth (Z.to_nat (s - 0x80)) midi_frame_len 0 = 3)
  /\ (0xc0 <= s <= 0xdf ->
        nth (Z.to_nat (s - 0x80)) midi_frame_len 0 = 2).
Proof.
  split.
  - intros [H|H].
    + pose proof (Zrange_forallb
        (fun b => nth (Z.to_nat (b - 0x80)) midi_frame_len 0 =? 3)
        0x80 64 ltac:(vm_compute; reflexivity) s ltac:(lia)) as E.
      cbv beta in E. apply Z.eqb_eq in E. exact E.
    + pose proof (Zrange_forallb
        (fun b => nth (Z.to_nat (b - 0x80)) midi_frame_len 0 =? 3)
        0xe0 16 ltac:(vm_compute; reflexivity) s ltac:(lia)) as E.
      cbv beta in E. apply Z.eqb_eq in E. exact E.
  - intros H.
    pose proof (Zrange_forallb
      (fun b => nth (Z.to_nat (b - 0x80)) midi_frame_len 0 =? 2)
      0xc0 32 ltac:(vm_compute; reflexivity) s ltac:(lia)) as E.
    cbv beta in E. apply Z.eqb_eq in E. exact E.
Qed.

(** The state of a fresh source after a status byte 0x80-0xEF and a run
    of data bytes. *)
Lemma feed_voice_run (r : midi_reader_t) (s : Z) (ds : list Z) :
  0x80 <= s <= 0xef ->
  Forall (fun d => 0 <= d < 0x80) ds ->
  1 + Z.of_nat (length ds) <= MIDI_FRAME_MAX ->
  let mf := frame_append_all ds (frame_append s zero_frame) in
  feed r fresh_source (s :: ds)
  = (repeat MIDIF_NEXT (S (length ds)), r,
     set_current mf (set_running s fresh_source), [])
  /\ len mf = 1 + Z.of_nat (length ds)
  /\ length (data mf) = Z.to_nat MIDI_FRAME_MAX
  /\ frame_bytes mf = s :: ds
  /\ zget (data mf) 0 = s.
Proof.
  intros Hs Hds Hlen mf.
  assert (Hz : 0 <= len zero_frame < MIDI_FRAME_MAX) by (vm_compute; split; congruence).
  destruct (frame_append_spec s zero_frame Hz eq_refl) as (A1 & A2 & A3 & _).
  change (len zero_frame) with 0 in A1.
  assert (A4 : zget (data (frame_append s zero_frame)) 0 = s).
  { cbn [frame_append data]. apply zget_zset_eq. simpl. lia. }
  destruct (frame_append_all_spec ds (frame_append s zero_frame)
              ltac:(lia) ltac:(lia) A2) as (B1 & B2 & B3 & B4).
  split; [|split; [|split; [|split]]].
  - cbn [feed].
    rewrite push_byte_voice_status by (try reflexivity; try assumption; simpl; lia).
    rewrite feed_voice_data; cbn [current set_current running set_running];
      try assumption; try lia.
    + reflexivity.
    + change (current fresh_source) with zero_frame. lia.
  - unfold mf. rewrite B1, A1. lia.
  - exact B2.
  - unfold mf. rewrite B3, A3. reflexivity.
  - unfold mf. rewrite B4 by lia. exact A4.
Qed.

(** C1, as stated, fails: the three bytes of a note-on and the two bytes
    of a program change each yield MIDIF_NEXT, the last one included. *)
Lemma voice_message_counterexample :
  outcomes (feed (midi_reader_init MIDIR_NONE None) fresh_source
                 [0x90; 0x40; 0x7f])
    = [MIDIF_NEXT; MIDIF_NEXT; MIDIF_NEXT]
  /\ outcomes (feed (midi_reader_init MIDIR_NONE None) fresh_source
                    [0xC0; 0x05])
    = [MIDIF_NEXT; MIDIF_NEXT].
Proof. split; vm_compute; reflexivity. Qed.

(** C1 (amended): for every fixed-length channel-voice message (status
    in 0x80-0xBF or 0xE0-0xEF with table length 3, or in 0xC0-0xDF with
    table length 2, data bytes below 0x80), feeding a fresh source
    exactly the expected byte count yields MIDIF_NEXT on every byte, the
    final one included: the running status stays active, the reader is
    untouched and the frame stays in progress holding the bytes fed. *)
Theorem voice_message_waits (r : midi_reader_t) (s d1 d2 : Z) :
  0 <= d1 < 0x80 -> 0 <= d2 < 0x80 ->
  (0x80 <= s <= 0xbf \/ 0xe0 <= s <= 0xef ->
     exists src',
       nth (Z.to_nat (s - 0x80)) midi_frame_len 0 = 3
       /\ feed r fresh_source [s; d1; d2]
          = ([MIDIF_NEXT; MIDIF_NEXT; MIDIF_NEXT], r, src', [])
       /\ running src' = s /\ running src' <> 0
       /\ len (current src') = 3
       /\ frame_bytes (current src') = [s; d1; d2])
  /\ (0xc0 <= s <= 0xdf ->
        exists src',
          nth (Z.to_nat (s - 0x80)) midi_frame_len 0 = 2
          /\ feed r fresh_source [s; d1]
             = ([MIDIF_NEXT; MIDIF_NEXT], r, src', [])
          /\ running src' = s /\ running src' <> 0
          /\ len (current src') = 2
          /\ frame_bytes (current src') = [s; d1]).
Proof.
  intros Hd1 Hd2. split; intros Hs.
  - destruct (feed_voice_run r s [d1; d2] ltac:(lia)
                ltac:(repeat constructor; lia)
                ltac:(unfold MIDI_FRAME_MAX; simpl; lia))
      as (F & L & _ & B & _).
    eexists. split; [apply table_lengths; exact Hs|].
    split; [exact F|]. cbn [running set_current set_running current].
    repeat split; try assumption; lia.
  - destruct (feed_voice_run r s [d1] ltac:(lia)
                ltac:(repeat constructor; lia)
                ltac:(unfold MIDI_FRAME_MAX; simpl; lia))
      as (F & L & _ & B & _).
    eexists. split; [apply table_lengths; exact Hs|].
    split; [exact F|]. cbn [running set_current set_running current].
    repeat split; try assumption; lia.
Qed.

Lemma voice_message_waits_witness :
  (exists src',
     nth (Z.to_nat (0x91 - 0x80)) midi_frame_len 0 = 3
     /\ feed (midi_reader_init MIDIR_NONE None) fresh_source [0x91; 0x3c; 0x64]
        = ([MIDIF_NEXT; MIDIF_NEXT; MIDIF_NEXT],
           midi_reader_init MIDIR_NONE None, src', [])
     /\ running src' = 0x91 /\ running src' <> 0
     /\ len (current src') = 3
     /\ frame_bytes (current src') = [0x91; 0x3c; 0x64]).
Proof.
  apply (proj1 (voice_message_waits (midi_reader_init MIDIR_NONE None)
                  0x91 0x3c 0x64 ltac:(lia) ltac:(lia))).
  left. lia.
Defined.

(** ** Running-status expansion (C2) *)

Lemma frame_append_get (d : Z) (mf : midi_frame_t) :
  0 <= len mf < MIDI_FRAME_MAX ->
  length (data mf) = Z.to_nat MIDI_FRAME_MAX ->
  zget (data (frame_append d mf)) (len mf) = d
  /\ (forall j, 0 <= j -> j <> len mf ->
        zget (data (frame_append d mf)) j = zget (data mf) j).
Proof.
  unfold MIDI_FRAME_MAX. intros Hlen Hdat. cbn [frame_append data]. split.
  - apply zget_zset_eq. lia.
  - intros j Hj Hne. apply zget_zset_ne. lia.
Qed.

(** One round of the expansion loop: three appends at [3k]. *)
Lemma frame_append3 (a b c k : Z) (mf : midi_frame_t) :
  len mf = 3 * k -> 0 <= k -> 3 * k + 3 <= MIDI_FRAME_MAX ->
  length (data mf) = Z.to_nat MIDI_FRAME_MAX ->
  let mf3 := frame_append c (frame_append b (frame_append a mf)) in
  len mf3 = 3 * (k + 1)
  /\ length (data mf3) = Z.to_nat MIDI_FRAME_MAX
  /\ zget (data mf3) (3 * k) = a
  /\ zget (data mf3) (3 * k + 1) = b
  /\ zget (data mf3) (3 * k + 2) = c
  /\ (forall j, 0 <= j < 3 * k -> zget (data mf3) j = zget (data mf) j).
Proof.
  intros Hlen Hk Hmax Hdat mf3.
  destruct (frame_append_spec a mf ltac:(lia) Hdat) as (A1 & A2 & _).
  destruct (frame_append_get a mf ltac:(lia) Hdat) as (A3 & A4).
  set (m1 := frame_append a mf) in *.
  destruct (frame_append_spec b m1 ltac:(lia) A2) as (B1 & B2 & _).
  destruct (frame_append_get b m1 ltac:(lia) A2) as (B3 & B4).
  set (m2 := frame_append b m1) in *.
  destruct (frame_append_spec c m2 ltac:(lia) B2) as (C1 & C2 & _).
  destruct (frame_append_get c m2 ltac:(lia) B2) as (C3 & C4).
  fold mf3 in C1, C2, C3, C4.
  split; [lia|]. split; [exact C2|].
  split; [|split; [|split]].
  - rewrite C4, B4 by lia. rewrite <- Hlen. exact A3.
  - rewrite C4 by lia. replace (3 * k + 1) with (len m1) by lia. exact B3.
  - replace (3 * k + 2) with (len m2) by lia. exact C3.
  - intros j Hj. rewrite C4, B4, A4 by lia. reflexivity.
Qed.

Lemma expand_loop_spec (f : midi_frame_t) (N : Z) (n : nat) :
  forall (k : Z) (mf : midi_frame_t),
  len f = 1 + 2 * N -> len mf = 3 * k -> 0 <= k <= N ->
  (Z.to_nat (N - k) <= n)%nat -> 3 * N <= MIDI_FRAME_MAX ->
  length (data mf) = Z.to_nat MIDI_FRAME_MAX ->
  let res := expand_loop n (1 + 2 * k) f mf in
  len res = 3 * N
  /\ length (data res) = Z.to_nat MIDI_FRAME_MAX
  /\ (forall j, 0 <= j < 3 * k -> zget (data res) j = zget (data mf) j)
  /\ (forall k', k <= k' < N ->
        zget (data res) (3 * k') = zget (data f) 0
        /\ zget (data res) (3 * k' + 1) = zget (data f) (2 * k' + 1)
        /\ zget (data res) (3 * k' + 2) = zget (data f) (2 * k' + 2)).
Proof.
  induction n as [|n IH]; intros k mf Hf Hmf Hk Hn Hmax Hdat.
  - assert (k = N) by lia. subst k. simpl.
    repeat split; try assumption; try lia.
  - cbn [expand_loop]. rewrite Hf.
    destruct (1 + 2 * k <? 1 + 2 * N) eqn:E.
    + apply Z.ltb_lt in E.
      destruct (frame_append3 (zget (data f) 0) (zget (data f) (1 + 2 * k))
                  (zget (data f) (1 + 2 * k + 1)) k mf Hmf
                  ltac:(lia) ltac:(lia) Hdat)
        as (L3 & D3 & G0 & G1 & G2 & Gold).
      set (mf3 := frame_append _ (frame_append _ (frame_append _ mf))) in *.
      replace (1 + 2 * k + 2) with (1 + 2 * (k + 1)) by lia.
      destruct (IH (k + 1) mf3 Hf L3 ltac:(lia) ltac:(lia) Hmax D3)
        as (I1 & I2 & I3 & I4).
      split; [exact I1|]. split; [exact I2|]. split.
      * intros j Hj. rewrite I3 by lia. apply Gold. exact Hj.
      * intros k' Hk'. destruct (Z.eq_dec k' k) as [->|Hne].
        -- rewrite !I3 by lia. rewrite G0, G1, G2.
           replace (1 + 2 * k) with (2 * k + 1) by lia.
           replace (2 * k + 1 + 1) with (2 * k + 2) by lia. auto.
        -- apply I4. lia.
    + apply Z.ltb_ge in E. assert (k = N) by lia. subst k.
      repeat split; try assumption; try lia.
Qed.

(** A frame made of a status byte 0x80-0xEF and N pairs, N <= 42, is
    rewritten as N three-byte messages. *)
Lemma expand_running_spec (mf : midi_frame_t) (N : Z) :
  len mf = 1 + 2 * N -> 1 <= N <= 42 ->
  0x80 <= zget (data mf) 0 <= 0xef ->
  length (data mf) = Z.to_nat MIDI_FRAME_MAX ->
  exists mf',
    midi_frame_expand_running mf = (true, mf')
    /\ len mf' = 3 * N
    /\ (forall k, 0 <= k < N ->
          zget (data mf') (3 * k) = zget (data mf) 0
          /\ zget (data mf') (3 * k + 1) = zget (data mf) (2 * k + 1)
          /\ zget (data mf') (3 * k + 2) = zget (data mf) (2 * k + 2)).
Proof.
  intros Hlen HN Hd0 Hdat. unfold midi_frame_expand_running.
  destruct (zget (data mf) 0 <? 128) eqn:E1; [lia|].
  destruct (zget (data mf) 0 >? 239) eqn:E2; [lia|].
  cbn [orb]. destruct (len mf =? 3) eqn:E3.
  - assert (N = 1) by lia. subst N. exists mf.
    split; [reflexivity|]. split; [lia|].
    intros k Hk. assert (k = 0) by lia. subst k. auto.
  - rewrite Hlen.
    replace (1 + 2 * N - 1) with (N * 2) by lia.
    rewrite Z.rem_mul, Z.quot_mul by lia. cbn [Z.eqb negb].
    destruct (1 + 2 * N + N >? MIDI_FRAME_MAX) eqn:E4;
      [unfold MIDI_FRAME_MAX in E4; lia|].
    eexists. split; [reflexivity|].
    destruct (expand_loop_spec mf N (Z.to_nat (1 + 2 * N)) 0 (midi_frame_reset mf)
                Hlen eq_refl ltac:(lia) ltac:(lia)
                ltac:(unfold MIDI_FRAME_MAX; lia)
                ltac:(cbn [midi_frame_reset set_data set_len data];
                      rewrite length_zset; exact Hdat))
      as (R1 & _ & _ & R4).
    split; [exact R1|]. intros k Hk. apply R4. lia.
Qed.

Lemma feed_app (l1 l2 : list Z) :
  forall (r : midi_reader_t) (src : midi_reader_source_t),
  feed r src (l1 ++ l2)
  = let '(o1, r1, s1, e1) := feed r src l1 in
    let '(o2, r2, s2, e2) := feed r1 s1 l2 in
    (o1 ++ o2, r2, s2, e1 ++ e2).
Proof.
  induction l1 as [|b l1 IH]; intros r src.
  - simpl. destruct (feed r src l2) as [[[? ?] ?] ?]. reflexivity.
  - cbn [feed app].
    destruct (midi_reader_push_byte r src b) as [[[st r1] s1] e1].
    rewrite IH.
    destruct (feed r1 s1 l1) as [[[o1 r2] s2] e2].
    destruct (feed r2 s2 l2) as [[[o2 r3] s3] e3].
    rewrite app_assoc. reflexivity.
Qed.

Lemma frame_bytes_get (mf : midi_frame_t) (l : list Z) (j : Z) :
  frame_bytes mf = l -> 0 <= j < len mf ->
  zget (data mf) j = nth (Z.to_nat j) l 0.
Proof.
  intros <- Hj. unfold frame_bytes, zget. rewrite nth_firstn.
  destruct (Z.to_nat j <? Z.to_nat (len mf))%nat eqn:E; [reflexivity|].
  apply Nat.ltb_ge in E. lia.
Qed.

(** C2, as stated, fails for long runs: with N = 43 pairs the run is
    accumulated and completes, but its expansion is refused; with
    N = 64 pairs the frame overflows and the closing status byte meets
    an error. *)
Lemma running_status_counterexample :
  (let x := feed (midi_reader_init MIDIR_NONE None) fresh_source
                 (0x90 :: repeat 0x01 86 ++ [0xfe]) in
   last (outcomes x) = Some MIDIF_COMPLETE
   /\ len (current (final_source x)) = 1 + 2 * 43
   /\ fst (midi_frame_expand_running (current (final_source x))) = false)
  /\ (let x := feed (midi_reader_init MIDIR_NONE None) fresh_source
                    (0x90 :: repeat 0x01 128 ++ [0xfe]) in
      last (outcomes x) = Some MIDIF_ERROR).
Proof. split; vm_compute; repeat split; reflexivity. Qed.

(** C2 (amended): for every channel-voice status byte s in 0x80-0xEF,
    every N with 1 <= N <= 63, data bytes d1..d2N below 0x80 and any
    byte t with its high bit set, feeding a fresh source (no skip entry
    equal to s, no callback, expand flag clear) the sequence
    s, d1..d2N, t yields MIDIF_NEXT on every byte before t and
    MIDIF_COMPLETE on t; the frame handed to the store step holds s
    followed by d1..d2N (length 1+2N), t is pushed back and the running
    status is cleared.  Expanding that frame succeeds when N <= 42 and
    rewrites it as N three-byte messages, the k-th being
    s, d(2k-1), d(2k), in order; for 43 <= N <= 63 the expansion is
    refused and the frame is left unchanged. *)
Theorem running_status_run (r : midi_reader_t) (s t N : Z) (ds : list Z) :
  0x80 <= s <= 0xef -> 0x80 <= t <= 0xff ->
  Forall (fun d => 0 <= d < 0x80) ds ->
  Z.of_nat (length ds) = 2 * N -> 1 <= N <= 63 ->
  skip_match r s = false -> callback r = None ->
  has_flag (flags r) MIDIR_EXPAND = false ->
  exists mf src',
    feed r fresh_source (s :: ds ++ [t])
    = (repeat MIDIF_NEXT (S (length ds)) ++ [MIDIF_COMPLETE],
       store_step (set_total (incr_read (total r)) r) mf, src',
       debug_output (flags r) false mf ++ dump_step r mf)
    /\ current src' = mf /\ push_back src' = t /\ running src' = 0
    /\ len mf = 1 + 2 * N
    /\ frame_bytes mf = s :: ds
    /\ (N <= 42 ->
        exists mf',
          midi_frame_expand_running mf = (true, mf')
          /\ len mf' = 3 * N
          /\ (forall k, 0 <= k < N ->
                zget (data mf') (3 * k) = s
                /\ zget (data mf') (3 * k + 1) = nth (Z.to_nat (2 * k)) ds 0
                /\ zget (data mf') (3 * k + 2)
                   = nth (Z.to_nat (2 * k + 1)) ds 0))
    /\ (43 <= N -> midi_frame_expand_running mf = (false, mf)).
Proof.
  intros Hs Ht Hds Hlen HN Hskip Hcb Hex.
  destruct (feed_voice_run r s ds Hs Hds
              ltac:(unfold MIDI_FRAME_MAX; lia))
    as (F & L & D & B & G0).
  set (mf := frame_append_all ds (frame_append s zero_frame)) in *.
  set (src1 := set_current mf (set_running s fresh_source)) in *.
  exists mf. eexists.
  split; [|split; [|split; [|split; [|split; [|split; [|split]]]]]].
  - change (s :: ds ++ [t]) with ((s :: ds) ++ [t]).
    rewrite feed_app, F. cbn [feed].
    rewrite (push_byte_boundary r src1 t);
      [| cbn [src1 running set_current set_running]; lia
       | exact Ht
       | cbn [src1 current set_current]; unfold MIDI_FRAME_MAX; lia
       | cbn [src1 current set_current]; rewrite L;
         replace (1 + Z.of_nat (length ds) - 1) with (N * 2) by lia;
         apply Z.rem_mul; lia ].
    rewrite process_plain;
      [| cbn [src1 current set_current set_running set_push_back]; lia
       | cbn [src1 current set_current set_running set_push_back];
         rewrite G0; exact Hskip
       | exact Hcb | exact Hex
       | cbn; lia ].
    cbn [src1 current set_current set_running set_push_back].
    rewrite app_nil_l, app_nil_r. reflexivity.
  - reflexivity.
  - reflexivity.
  - reflexivity.
  - lia.
  - exact B.
  - intros H42.
    destruct (expand_running_spec mf N ltac:(lia) ltac:(lia)
                ltac:(rewrite G0; exact Hs) D) as (mf' & E & L' & K).
    exists mf'. split; [exact E|]. split; [exact L'|].
    intros k Hk. destruct (K k Hk) as (K0 & K1 & K2).
    rewrite K0, K1, K2, G0.
    rewrite (frame_bytes_get mf (s :: ds) (2 * k + 1) B) by lia.
    rewrite (frame_bytes_get mf (s :: ds) (2 * k + 2) B) by lia.
    replace (Z.to_nat (2 * k + 1)) with (S (Z.to_nat (2 * k))) by lia.
    replace (Z.to_nat (2 * k + 2)) with (S (S (Z.to_nat (2 * k)))) by lia.
    auto.
  - intros H43. unfold midi_frame_expand_running. rewrite G0.
    destruct (s <? 128) eqn:E1; [lia|].
    destruct (s >? 239) eqn:E2; [lia|]. cbn [orb].
    destruct (len mf =? 3) eqn:E3; [lia|].
    replace (len mf - 1) with (N * 2) by lia.
    rewrite Z.rem_mul, Z.quot_mul by lia. cbn [Z.eqb negb].
    destruct (len mf + N >? MIDI_FRAME_MAX) eqn:E4;
      [reflexivity | unfold MIDI_FRAME_MAX in E4; lia].
Qed.

Lemma running_status_run_witness :
  exists mf src',
    feed (midi_reader_init MIDIR_NONE None) fresh_source
         (0x90 :: [0x3c; 0x64; 0x40; 0x65] ++ [0x80])
    = (repeat MIDIF_NEXT 5 ++ [MIDIF_COMPLETE],
       store_step (set_total (incr_read zero_stats)
                     (midi_reader_init MIDIR_NONE None)) mf, src',
       debug_output MIDIR_NONE false mf
       ++ dump_step (midi_reader_init MIDIR_NONE None) mf)
    /\ current src' = mf /\ push_back src' = 0x80 /\ running src' = 0
    /\ len mf = 1 + 2 * 2
    /\ frame_bytes mf = 0x90 :: [0x3c; 0x64; 0x40; 0x65]
    /\ (2 <= 42 ->
        exists mf',
          midi_frame_expand_running mf = (true, mf')
          /\ len mf' = 3 * 2
          /\ (forall k, 0 <= k < 2 ->
                zget (data mf') (3 * k) = 0x90
                /\ zget (data mf') (3 * k + 1)
                   = nth (Z.to_nat (2 * k)) [0x3c; 0x64; 0x40; 0x65] 0
                /\ zget (data mf') (3 * k + 2)
                   = nth (Z.to_nat (2 * k + 1)) [0x3c; 0x64; 0x40; 0x65] 0))
    /\ (43 <= 2 ->
        midi_frame_expand_running mf = (false, mf)).
Proof.
  apply (running_status_run (midi_reader_init MIDIR_NONE None)
           0x90 0x80 2 [0x3c; 0x64; 0x40; 0x65]).
  - lia.
  - lia.
  - repeat constructor; lia.
  - reflexivity.
  - lia.
  - reflexivity.
  - reflexivity.
  - reflexivity.
Defined.

(** ** Removing a source (C4) *)

Lemma shift_sources_spec (n : nat) :
  forall (j : Z) (l : list midi_reader_source_t),
  length l = Z.to_nat MIDI_READER_IN_MAX ->
  1 <= j <= MIDI_READER_IN_MAX ->
  (Z.to_nat (MIDI_READER_IN_MAX - j) <= n)%nat ->
  snd (shift_sources n j l) = MIDI_READER_IN_MAX
  /\ length (fst (shift_sources n j l)) = Z.to_nat MIDI_READER_IN_MAX
  /\ (forall k : nat, (k < 64)%nat ->
        nth k (fst (shift_sources n j l)) zero_source
        = if Z.of_nat k <? j - 1 then nth k l zero_source
          else if (k <? 63)%nat then nth (S k) l zero_source
               else nth 63 l zero_source).
Proof.
  unfold MIDI_READER_IN_MAX.
  assert (Hbase : forall (l : list midi_reader_source_t) (k : nat),
             (k < 64)%nat ->
             nth k l zero_source
             = if Z.of_nat k <? 64 - 1 then nth k l zero_source
               else if (k <? 63)%nat then nth (S k) l zero_source
                    else nth 63 l zero_source).
  { intros l k Hk. destruct (Z.of_nat k <? 64 - 1) eqn:E; [reflexivity|].
    apply Z.ltb_ge in E. assert (k = 63%nat) by lia. subst k. reflexivity. }
  induction n as [|n IH]; intros j l Hl Hj Hn.
  - assert (j = 64) by lia. subst j. simpl. auto.
  - cbn [shift_sources]. unfold MIDI_READER_IN_MAX.
    destruct (j <? 64) eqn:E.
    + apply Z.ltb_lt in E.
      set (l' := zset l (j - 1) (nth (Z.to_nat j) l zero_source)).
      destruct (IH (j + 1) l' ltac:(unfold l'; rewrite length_zset; exact Hl)
                  ltac:(lia) ltac:(lia)) as (I1 & I2 & I3).
      split; [exact I1|]. split; [exact I2|].
      intros k Hk. rewrite (I3 k Hk).
      replace (j + 1 - 1) with j by lia.
      destruct (Z.of_nat k <? j) eqn:E1.
      * apply Z.ltb_lt in E1. destruct (Z.of_nat k <? j - 1) eqn:E2.
        -- apply Z.ltb_lt in E2. unfold l'. apply nth_zset_ne. lia.
        -- apply Z.ltb_ge in E2. assert (Hkj : k = Z.to_nat (j - 1)) by lia.
           destruct (k <? 63)%nat eqn:E3; [|apply Nat.ltb_ge in E3; lia].
           rewrite Hkj. unfold l'. rewrite nth_zset_eq by lia.
           f_equal. lia.
      * apply Z.ltb_ge in E1.
        destruct (Z.of_nat k <? j - 1) eqn:E2; [apply Z.ltb_lt in E2; lia|].
        destruct (k <? 63)%nat eqn:E3; unfold l'; apply nth_zset_ne; lia.
    + apply Z.ltb_ge in E. assert (j = 64) by lia. subst j. simpl. auto.
Qed.

Lemma reset_source_n_in (r : midi_reader_t) (i : Z) (c : bool) :
  0 <= i < MIDI_READER_IN_MAX ->
  midi_reader_reset_source_n r i c
  = (set_sources (zset (sources r) i
                    (fst (midi_reader_reset_source zero_source c))) r,
     snd (midi_reader_reset_source zero_source c)).
Proof.
  intros Hi. unfold midi_reader_reset_source_n.
  destruct (0 <=? i) eqn:E1; [|lia].
  destruct (i <? MIDI_READER_IN_MAX) eqn:E2; [|lia].
  destruct c; reflexivity.
Qed.

(** C4: when a source among the registered ones has descriptor [f]
    (>= 0), [midi_reader_remove_source] returns true, the count drops by
    one and the registered sources that remain are the former ones
    without the first source of descriptor [f], in their former order;
    but the one [close] it issues is on descriptor 0, the field having
    been cleared before it is read: descriptor [f] is not closed unless
    it is 0.  When no registered source has descriptor [f], the function
    returns false, changes nothing and closes nothing. *)
Theorem remove_source_closes_zero (r : midi_reader_t) (f : Z) :
  reader_wf r ->
  (has_fd r f -> 0 <= f ->
     exists r',
       let i := find_fd (sources r) (Z.to_nat (nsources r)) 0 f in
       midi_reader_remove_source r f = (true, r', [EvClose 0])
       /\ (0 <= i < nsources r /\ fd (get_source r i) = f)
       /\ nsources r' = nsources r - 1
       /\ take (Z.to_nat (nsources r - 1)) (sources r')
          = take (Z.to_nat i) (sources r)
            ++ drop (S (Z.to_nat i)) (take (Z.to_nat (nsources r)) (sources r)))
  /\ (~ has_fd r f -> midi_reader_remove_source r f = (false, r, [])).
Proof.
  intros (Hlen & Hn & _). unfold MIDI_READER_IN_MAX in *.
  pose proof (find_fd_bounds (sources r) (Z.to_nat (nsources r)) 0 f) as Hb.
  split.
  - intros Hp Hf. pose proof (has_fd_found r f Hp) as Hi.
    unfold midi_reader_remove_source.
    set (i := find_fd (sources r) (Z.to_nat (nsources r)) 0 f) in *.
    destruct (f <? 0) eqn:E1; [lia|].
    destruct (nsources r =? 0) eqn:E2; [lia|]. cbn [orb].
    destruct (i >=? nsources r) eqn:E3; [lia|].
    rewrite reset_source_n_in by (unfold MIDI_READER_IN_MAX; lia).
    cbn [sources set_sources midi_reader_reset_source fst snd].
    set (l1 := zset (sources r) i _).
    destruct (shift_sources_spec (Z.to_nat MIDI_READER_IN_MAX) (i + 1) l1
                ltac:(unfold l1; rewrite length_zset; exact Hlen)
                ltac:(unfold MIDI_READER_IN_MAX; lia) ltac:(lia))
      as (S1 & S2 & S3).
    destruct (shift_sources (Z.to_nat MIDI_READER_IN_MAX) (i + 1) l1)
      as [l2 j] eqn:Esh.
    cbn [fst snd] in S1, S2, S3. subst j.
    unfold MIDI_READER_IN_MAX in S2.
    eexists. cbv zeta. split; [reflexivity|].
    split.
    { split; [lia|]. unfold get_source.
      pose proof (find_fd_hit (sources r) (Z.to_nat (nsources r)) 0 f
                    ltac:(lia) ltac:(fold i; lia)) as Hh.
      fold i in Hh. rewrite Z.sub_0_r in Hh. exact Hh. }
    split; [reflexivity|].
    cbn [sources set_sources set_nsources].
    apply (nth_ext _ _ zero_source zero_source).
    + rewrite length_app, !length_take, length_drop, length_take. lia.
    + intros k Hk. rewrite length_take in Hk.
      rewrite nth_firstn.
      destruct (k <? Z.to_nat (nsources r - 1))%nat eqn:Ek;
        [|apply Nat.ltb_ge in Ek; lia].
      apply Nat.ltb_lt in Ek. rewrite (S3 k ltac:(lia)).
      replace (i + 1 - 1) with i by lia.
      destruct (Z.of_nat k <? i) eqn:E4.
      * apply Z.ltb_lt in E4.
        rewrite app_nth1 by (rewrite length_take; lia).
        rewrite nth_firstn.
        destruct (k <? Z.to_nat i)%nat eqn:E5; [|apply Nat.ltb_ge in E5; lia].
        unfold l1. apply nth_zset_ne. lia.
      * apply Z.ltb_ge in E4.
        destruct (k <? 63)%nat eqn:E5; [|apply Nat.ltb_ge in E5; lia].
        rewrite app_nth2 by (rewrite length_take; lia).
        rewrite length_take, nth_skipn, nth_firstn.
        replace (S (Z.to_nat i) + (k - Z.to_nat i `min` length (sources r)))%nat
          with (S k) by lia.
        destruct (S k <? Z.to_nat (nsources r))%nat eqn:E6;
          [|apply Nat.ltb_ge in E6; lia].
        unfold l1. apply nth_zset_ne. lia.
  - intros Hnp. unfold midi_reader_remove_source.
    destruct ((f <? 0) || (nsources r =? 0)) eqn:E1; [reflexivity|].
    apply orb_false_iff in E1. destruct E1 as (E1 & E2).
    set (i := find_fd (sources r) (Z.to_nat (nsources r)) 0 f) in *.
    destruct (i >=? nsources r) eqn:E3; [reflexivity|].
    exfalso. apply Hnp. exists i. split; [lia|]. unfold get_source.
    pose proof (find_fd_hit (sources r) (Z.to_nat (nsources r)) 0 f
                  ltac:(lia) ltac:(fold i; lia)) as Hh.
    fold i in Hh. rewrite Z.sub_0_r in Hh. exact Hh.
Qed.

Lemma remove_source_closes_zero_witness :
  exists r',
    let r := add_sources [5] (midi_reader_init MIDIR_NONE None) in
    let i := find_fd (sources r) (Z.to_nat (nsources r)) 0 5 in
    midi_reader_remove_source r 5 = (true, r', [EvClose 0])
    /\ (0 <= i < nsources r /\ fd (get_source r i) = 5)
    /\ nsources r' = nsources r - 1
    /\ take (Z.to_nat (nsources r - 1)) (sources r')
       = take (Z.to_nat i) (sources r)
         ++ drop (S (Z.to_nat i)) (take (Z.to_nat (nsources r)) (sources r)).
Proof.
  apply (proj1 (remove_source_closes_zero
                  (add_sources [5] (midi_reader_init MIDIR_NONE None)) 5
                  ltac:(repeat split; try reflexivity; vm_compute; congruence))).
  - exists 0. vm_compute. repeat split; congruence.
  - lia.
Defined.

(** ** The frame queue *)

Lemma queue_ext_refl (q : midi_frames_t) :
  q_len q <= MIDI_READER_FRAMES_MAX -> queue_ext q q.
Proof. intros H. repeat split; auto; lia. Qed.

Lemma queue_ext_trans (q1 q2 q3 : midi_frames_t) :
  queue_ext q1 q2 -> queue_ext q2 q3 -> queue_ext q1 q3.
Proof.
  intros (A1 & A2 & A3 & A4) (B1 & B2 & B3 & B4).
  repeat split; try congruence; try lia.
  intros i Hi. rewrite B4 by lia. apply A4. exact Hi.
Qed.

Lemma queue_ext_pending (q q' : midi_frames_t) :
  queue_pending q -> queue_ext q q' -> queue_pending q'.
Proof.
  intros (P1 & P2 & P3) (A1 & A2 & A3 & A4).
  repeat split; try congruence; try lia.
Qed.

Lemma store_step_frames_total (r : midi_reader_t) (t : midi_reader_stats_t)
    (mf : midi_frame_t) :
  frames (store_step (set_total t r) mf) = frames (store_step r mf).
Proof.
  unfold store_step. cbn [frames set_total].
  destruct (q_len (frames r) =? q_offset (frames r));
    cbn [q_len q_offset q_frames];
    match goal with |- context [if ?b then _ else _] => destruct b end;
    reflexivity.
Qed.

Lemma store_step_ext (r : midi_reader_t) (mf : midi_frame_t) :
  queue_pending (frames r) ->
  queue_ext (frames r) (frames (store_step r mf)).
Proof.
  intros (P1 & P2 & P3). unfold store_step.
  destruct (q_len (frames r) =? q_offset (frames r)) eqn:E; [lia|].
  destruct (q_len (frames r) <? MIDI_READER_FRAMES_MAX) eqn:E1.
  - cbn [frames set_frames]. unfold queue_ext, get_frame.
    cbn [q_len q_offset q_frames]. rewrite length_zset.
    repeat split; try lia.
    intros i Hi. apply nth_zset_ne. lia.
  - cbn [frames set_frames set_total]. apply queue_ext_refl. exact P3.
Qed.

Lemma process_shape (r : midi_reader_t) (s : midi_reader_source_t) :
  reader_shape r (res_reader (midi_frame_process r s)).
Proof.
  unfold midi_frame_process, res_reader.
  destruct (len (current s) =? 0); [constructor|].
  cbv zeta.
  destruct (match to_skip (set_total (incr_read (total r)) r) with
            | Some p => skip_scan p (zget (data (current s)) 0)
            | None => false
            end).
  { cbn [fst snd]. apply (shape_total r). }
  destruct (callback (set_total (incr_read (total r)) r)) as [cb|].
  - destruct (cb _ _) as [st mf].
    destruct (len mf =? 0); [cbn [fst snd]; apply (shape_total r)|].
    destruct st; cbn [fst snd];
      first [apply (shape_total r) | apply (shape_store r)].
  - cbn [fst snd]. apply (shape_store r).
Qed.

Lemma push_byte_shape (r : midi_reader_t) (s : midi_reader_source_t) (b : Z) :
  reader_shape r (res_reader (midi_reader_push_byte r s b)).
Proof.
  unfold midi_reader_push_byte.
  repeat match goal with
         | |- context [midi_frame_process ?a ?b] =>
             let H := fresh "H" in
             pose proof (process_shape a b) as H;
             generalize dependent (midi_frame_process a b); intros
         end.
  unfold count_error, res_reader in *.
  break_ifs; cbn [fst snd]; try assumption; try constructor.
Qed.

Lemma store_step_config (r : midi_reader_t) (mf : midi_frame_t) :
  flags (store_step r mf) = flags r
  /\ sources (store_step r mf) = sources r
  /\ nsources (store_step r mf) = nsources r
  /\ dumpfd (store_step r mf) = dumpfd r
  /\ to_skip (store_step r mf) = to_skip r
  /\ callback (store_step r mf) = callback r
  /\ user_data (store_step r mf) = user_data r.
Proof.
  unfold store_step.
  break_ifs; repeat split.
Qed.

Lemma shape_config (r r' : midi_reader_t) :
  reader_shape r r' ->
  flags r' = flags r
  /\ sources r' = sources r
  /\ nsources r' = nsources r
  /\ dumpfd r' = dumpfd r
  /\ to_skip r' = to_skip r
  /\ callback r' = callback r
  /\ user_data r' = user_data r.
Proof.
  intros [|t|t mf]; [repeat split..|].
  apply (store_step_config (set_total t r) mf).
Qed.

Lemma shape_ext (r r' : midi_reader_t) :
  reader_shape r r' -> queue_pending (frames r) ->
  queue_ext (frames r) (frames r').
Proof.
  intros [|t|t mf] Hp.
  - apply queue_ext_refl. apply Hp.
  - apply queue_ext_refl. apply Hp.
  - rewrite store_step_frames_total. apply store_step_ext. exact Hp.
Qed.

Lemma update_visit_shape (r : midi_reader_t) (src : Z) :
  exists r1 l,
    fst (update_visit r src) = set_sources l r1 /\ reader_shape r r1.
Proof.
  unfold update_visit.
  destruct (midi_reader_get_byte (get_source r src)) as [b s1].
  pose proof (push_byte_shape r s1 b) as H.
  destruct (midi_reader_push_byte r s1 b) as [[[st r1] s2] e].
  cbn [fst snd res_reader] in *. eauto.
Qed.

Lemma update_visit_ext (r : midi_reader_t) (src : Z) :
  queue_pending (frames r) ->
  queue_ext (frames r) (frames (fst (update_visit r src))).
Proof.
  intros Hp. destruct (update_visit_shape r src) as (r1 & l & -> & Hs).
  cbn [frames set_sources]. apply shape_ext; assumption.
Qed.

Lemma update_loop_ext (n : nat) :
  forall (src : Z) (r : midi_reader_t),
  queue_pending (frames r) ->
  queue_ext (frames r) (frames (fst (update_loop n src r))).
Proof.
  induction n as [|n IH]; intros src r Hp.
  - simpl. apply queue_ext_refl. apply Hp.
  - cbn [update_loop].
    set (src' := if src >=? nsources r then 0 else src).
    pose proof (update_visit_ext r src' Hp) as H1.
    destruct (update_visit r src') as [r1 e1]. cbn [fst] in H1.
    pose proof (IH (src' + 1) r1 (queue_ext_pending _ _ Hp H1)) as H2.
    destruct (update_loop n (src' + 1) r1) as [r2 e2]. cbn [fst] in *.
    eapply queue_ext_trans; eassumption.
Qed.

Lemma read_frames (rd : Z -> list Z) (r : midi_reader_t) :
  frames (midi_reader_read rd r) = frames r.
Proof.
  unfold midi_reader_read.
  generalize (seq 0 (Z.to_nat (nsources r))). intros l. revert r.
  induction l as [|i l IH]; intros r; [reflexivity|].
  cbn [fold_left]. rewrite IH. reflexivity.
Qed.

Lemma update_ext (start : Z) (rd : Z -> list Z) (r : midi_reader_t) :
  queue_pending (frames r) ->
  exists start' r' evs,
    midi_reader_update start rd r = (true, start', r', evs)
    /\ queue_ext (frames r) (frames r').
Proof.
  intros Hp. unfold midi_reader_update.
  set (r0 := midi_reader_read rd r).
  set (st := if start + 1 >=? nsources r0 then 0 else start + 1).
  assert (Hp0 : queue_pending (frames r0)) by (unfold r0; rewrite read_frames; exact Hp).
  pose proof (update_loop_ext (Z.to_nat (nsources r0)) st r0 Hp0) as H.
  destruct (update_loop (Z.to_nat (nsources r0)) st r0) as [r1 e1].
  cbn [fst] in H. unfold r0 in H. rewrite read_frames in H.
  destruct (queue_ext_pending _ _ Hp H) as (Q1 & Q2 & Q3).
  exists st, r1, e1. split; [|exact H].
  destruct (q_len (frames r1) >? 0) eqn:E1; [|lia].
  destruct (q_offset (frames r1) <? q_len (frames r1)) eqn:E2; [|lia].
  reflexivity.
Qed.

(** With unconsumed frames in the queue, [midi_reader_get_next] returns
    the oldest of them and moves the read offset past it; whatever the
    sources deliver meanwhile is added behind. *)
Lemma get_next_pending (start : Z) (rd : Z -> list Z) (r : midi_reader_t) :
  queue_pending (frames r) ->
  exists start' r' evs,
    midi_reader_get_next start rd r
    = (Some (get_frame (frames r) (q_offset (frames r))), start', r', evs)
    /\ length (q_frames (frames r')) = length (q_frames (frames r))
    /\ q_offset (frames r') = q_offset (frames r) + 1
    /\ q_len (frames r) <= q_len (frames r') <= MIDI_READER_FRAMES_MAX
    /\ (forall i, 0 <= i < q_len (frames r) ->
          get_frame (frames r') i = get_frame (frames r) i).
Proof.
  intros Hp. unfold midi_reader_get_next.
  destruct (update_ext start rd r Hp) as (st & r1 & e1 & -> & (A1 & A2 & A3 & A4)).
  destruct Hp as (P1 & P2 & P3).
  eexists _, _, _. split.
  - rewrite A2, A4 by lia. reflexivity.
  - cbn [frames set_frames q_frames q_offset q_len]. unfold get_frame in *.
    cbn [q_frames]. repeat split; try assumption; try lia.
Qed.

Lemma get_next_all_pending (rds : list (Z -> list Z)) :
  forall (start : Z) (r : midi_reader_t),
  length (q_frames (frames r)) = Z.to_nat MIDI_READER_FRAMES_MAX ->
  0 <= q_offset (frames r) ->
  q_offset (frames r) + Z.of_nat (length rds) <= q_len (frames r) ->
  q_len (frames r) <= MIDI_READER_FRAMES_MAX ->
  fst (get_next_all start rds r)
  = map (fun j => Some (get_frame (frames r)
                          (q_offset (frames r) + Z.of_nat j)))
        (seq 0 (length rds)).
Proof.
  induction rds as [|rd rds IH]; intros start r Hl Ho Hn Hm; [reflexivity|].
  cbn [get_next_all length]. simpl length in Hn.
  destruct (get_next_pending start rd r ltac:(repeat split; try assumption; lia))
    as (st & r1 & e1 & -> & B1 & B2 & B3 & B4).
  specialize (IH st r1 ltac:(congruence) ltac:(lia) ltac:(lia) ltac:(lia)).
  destruct (get_next_all st rds r1) as [fs r2]. cbn [fst] in *.
  rewrite IH. cbn [seq map]. rewrite Z.add_0_r. f_equal.
  rewrite <- seq_shift, map_map. apply map_ext_in.
  intros j Hj. apply in_seq in Hj. rewrite B2, B4 by lia.
  do 2 f_equal. lia.
Qed.

(** ** Queue shedding (C5) *)

Lemma process_acceptable (r : midi_reader_t) (s : midi_reader_source_t) :
  acceptable r s = true ->
  exists evs,
    midi_frame_process r s
    = (MIDIF_COMPLETE,
       store_step (set_total (incr_read (total r)) r) (delivered_frame r s),
       processed_source r s, evs).
Proof.
  intros H. unfold acceptable in H.
  apply andb_true_iff in H. destruct H as (H & H3).
  apply andb_true_iff in H. destruct H as (H1 & H2).
  apply negb_true_iff in H1, H2. unfold skip_match in H2.
  unfold midi_frame_process. rewrite H1. cbv zeta.
  cbn [to_skip set_total flags callback user_data channel set_stats current].
  rewrite H2. unfold processed_source, delivered_frame, prepared_frame in *.
  destruct (callback r) as [cb|].
  - apply andb_true_iff in H3. destruct H3 as (H3 & H4).
    apply negb_true_iff in H4.
    destruct (cb _ _) as [st mf]. cbn [fst snd] in *. rewrite H4.
    destruct st; try discriminate. eexists. reflexivity.
  - eexists. reflexivity.
Qed.

Lemma acceptable_config (r r' : midi_reader_t) (s : midi_reader_source_t) :
  flags r' = flags r -> to_skip r' = to_skip r ->
  callback r' = callback r -> user_data r' = user_data r ->
  acceptable r' s = acceptable r s
  /\ delivered_frame r' s = delivered_frame r s.
Proof.
  intros H1 H2 H3 H4.
  unfold acceptable, delivered_frame, prepared_frame, skip_match.
  rewrite H1, H2, H3, H4. split; reflexivity.
Qed.

Lemma take_app_take {A : Type} (n : nat) (l l' : list A) :
  take n (take n l ++ l') = take n (l ++ l').
Proof.
  revert l. induction n as [|n IH]; intros l; [reflexivity|].
  destruct l as [|x l]; [reflexivity|]. simpl. rewrite IH. reflexivity.
Qed.

Lemma ulong_add_l (a b : Z) : ulong (ulong a + b) = ulong (a + b).
Proof. unfold ulong. apply Zplus_mod_idemp_l. Qed.

(** The store step on a queue holding [fs]: the frame is added behind
    them while there is room, and counted as missed otherwise. *)
Lemma store_step_holds (r : midi_reader_t) (fs : list midi_frame_t)
    (mf : midi_frame_t) :
  queue_holds r fs ->
  queue_holds (store_step r mf)
              (take (Z.to_nat MIDI_READER_FRAMES_MAX) (fs ++ [mf]))
  /\ read (total (store_step r mf)) = read (total r)
  /\ errors (total (store_step r mf)) = errors (total r)
  /\ skipped (total (store_step r mf)) = skipped (total r)
  /\ missed (total (store_step r mf))
     = if Z.of_nat (length fs) <? MIDI_READER_FRAMES_MAX
       then missed (total r) else ulong (missed (total r) + 1).
Proof.
  intros (Q1 & Q2 & Q3 & Q4). unfold MIDI_READER_FRAMES_MAX in *.
  assert (Hcases :
    let q := if q_len (frames r) =? q_offset (frames r)
             then mk_frames 0 0 (q_frames (frames r)) else frames r in
    q_offset q = 0 /\ q_len q = Z.of_nat (length fs)
    /\ q_frames q = q_frames (frames r)).
  { destruct Q3 as [(-> & E)|(Hne & E1 & E2)].
    - rewrite E, Z.eqb_refl. simpl. auto.
    - destruct (q_len (frames r) =? q_offset (frames r)) eqn:E.
      + apply Z.eqb_eq in E. destruct fs; [congruence|simpl in *; lia].
      + auto. }
  unfold store_step, MIDI_READER_FRAMES_MAX.
  destruct (if q_len (frames r) =? q_offset (frames r)
            then mk_frames 0 0 (q_frames (frames r)) else frames r)
    as [ql qo qf] eqn:Eq.
  cbn [q_offset q_len q_frames] in Hcases. destruct Hcases as (-> & -> & ->).
  cbn [q_len q_offset q_frames].
  destruct (Z.of_nat (length fs) <? 1024) eqn:E.
  - apply Z.ltb_lt in E.
    rewrite firstn_all2 by (rewrite length_app; simpl; lia).
    split; [|cbn [total set_frames]; auto].
    unfold queue_holds. cbn [frames set_frames q_frames q_len q_offset].
    rewrite length_zset, length_app. simpl length.
    split; [exact Q1|]. split; [unfold MIDI_READER_FRAMES_MAX; lia|].
    split.
    + right. split; [destruct fs; discriminate|]. split; [reflexivity|lia].
    + intros j Hj. destruct (Nat.eq_dec j (length fs)) as [->|Hne].
      * rewrite app_nth2, Nat.sub_diag by lia. simpl.
        replace (length fs) with (Z.to_nat (Z.of_nat (length fs))) at 1 by lia.
        apply nth_zset_eq. lia.
      * rewrite app_nth1 by lia. rewrite nth_zset_ne by lia. apply Q4. lia.
  - apply Z.ltb_ge in E.
    rewrite firstn_app, firstn_all2 by lia.
    replace (Z.to_nat 1024 - length fs)%nat with 0%nat by lia.
    simpl firstn. rewrite app_nil_r.
    split; [|cbn [total set_total set_frames incr_missed read errors skipped missed]; auto].
    unfold queue_holds. cbn [frames set_frames set_total q_frames q_len q_offset].
    split; [exact Q1|]. split; [unfold MIDI_READER_FRAMES_MAX; lia|].
    split; [|exact Q4].
    right. split; [destruct fs; [simpl in E; lia|discriminate]|]. auto.
Qed.

Lemma queue_holds_total (r : midi_reader_t) (t : midi_reader_stats_t)
    (fs : list midi_frame_t) :
  queue_holds r fs -> queue_holds (set_total t r) fs.
Proof. intros H. exact H. Qed.

Lemma process_all_holds (r0 : midi_reader_t) (ss : list midi_reader_source_t) :
  forall (r : midi_reader_t) (fs : list midi_frame_t),
  flags r = flags r0 -> to_skip r = to_skip r0 ->
  callback r = callback r0 -> user_data r = user_data r0 ->
  forallb (acceptable r0) ss = true ->
  queue_holds r fs ->
  exists r' evs,
    process_all r ss
    = (repeat MIDIF_COMPLETE (length ss), r',
       map (processed_source r0) ss, evs)
    /\ queue_holds r' (take (Z.to_nat MIDI_READER_FRAMES_MAX)
                            (fs ++ map (delivered_frame r0) ss))
    /\ errors (total r') = errors (total r)
    /\ skipped (total r') = skipped (total r)
    /\ missed (total r')
       = let d := Z.of_nat (length fs) + Z.of_nat (length ss)
                  - MIDI_READER_FRAMES_MAX in
         if d <=? 0 then missed (total r) else ulong (missed (total r) + d).
Proof.
  induction ss as [|s ss IH]; intros r fs C1 C2 C3 C4 Hacc Hq.
  - exists r, []. cbn [process_all length repeat map].
    pose proof Hq as (_ & Q2 & _).
    rewrite app_nil_r, firstn_all2 by lia.
    split; [reflexivity|]. split; [exact Hq|]. split; [reflexivity|].
    split; [reflexivity|]. cbv zeta. simpl length.
    destruct (_ <=? 0) eqn:E; [reflexivity|apply Z.leb_gt in E; lia].
  - cbn [forallb] in Hacc. apply andb_true_iff in Hacc.
    destruct Hacc as (Ha & Hacc).
    destruct (acceptable_config r0 r s C1 C2 C3 C4) as (A1 & A2).
    rewrite <- A1 in Ha.
    destruct (process_acceptable r s Ha) as (e1 & Hp).
    assert (Hps : processed_source r s = processed_source r0 s)
      by (unfold processed_source; rewrite A2; reflexivity).
    rewrite Hps, A2 in Hp.
    cbn [process_all]. rewrite Hp.
    set (mf := delivered_frame r0 s) in *.
    set (r1 := store_step (set_total (incr_read (total r)) r) mf).
    destruct (store_step_holds (set_total (incr_read (total r)) r) fs mf
                (queue_holds_total r _ fs Hq))
      as (H1 & _ & H3 & H4 & H5).
    fold r1 in H1, H3, H4, H5.
    destruct (store_step_config (set_total (incr_read (total r)) r) mf)
      as (K1 & _ & _ & _ & K2 & K3 & K4).
    fold r1 in K1, K2, K3, K4. cbn [flags to_skip callback user_data set_total] in *.
    destruct (IH r1 _ ltac:(congruence) ltac:(congruence) ltac:(congruence)
                ltac:(congruence) Hacc H1)
      as (r' & e2 & Hall & I1 & I2 & I3 & I4).
    rewrite Hall. exists r', (e1 ++ e2).
    split; [reflexivity|].
    split.
    { rewrite take_app_take, <- app_assoc in I1. exact I1. }
    cbn [total set_total incr_read errors skipped missed] in H3, H4, H5.
    split; [congruence|]. split; [congruence|].
    rewrite I4, H5. cbv zeta.
    pose proof Hq as (_ & Q2 & _). unfold MIDI_READER_FRAMES_MAX in *.
    rewrite length_take, length_app. simpl length.
    destruct (Z.of_nat (length fs) <? 1024) eqn:E.
    + apply Z.ltb_lt in E.
      replace (Z.of_nat (Z.to_nat 1024 `min` (length fs + 1))
               + Z.of_nat (length ss) - 1024)
        with (Z.of_nat (length fs) + Z.of_nat (S (length ss)) - 1024) by lia.
      reflexivity.
    + apply Z.ltb_ge in E.
      replace (Z.of_nat (Z.to_nat 1024 `min` (length fs + 1))
               + Z.of_nat (length ss) - 1024)
        with (Z.of_nat (length ss)) by lia.
      destruct (Z.of_nat (length fs) + Z.of_nat (S (length ss)) - 1024 <=? 0)
        eqn:E1; [apply Z.leb_le in E1; lia|].
      destruct (Z.of_nat (length ss) <=? 0) eqn:E2.
      * apply Z.leb_le in E2. f_equal. lia.
      * rewrite ulong_add_l. f_equal. lia.
Qed.

Lemma map_nth_seq_id {A : Type} (d : A) (l : list A) :
  map (fun j => nth j l d) (seq 0 (length l)) = l.
Proof.
  induction l as [|x l IH]; [reflexivity|].
  simpl. f_equal. rewrite <- seq_shift, map_map. exact IH.
Qed.

(** C5: starting from a queue with nothing unconsumed, when 1024 + k
    acceptable frames (k >= 1) are finalized in a row, every call
    returns MIDIF_COMPLETE, the queue ends up holding the first 1024 of
    them in completion order, the next 1024 calls of get-next return
    them in that order whatever the sources deliver meanwhile, the
    cumulative [missed] counter has grown by k (modulo 2^64) while the
    cumulative [errors] and [skipped] counters and the [missed],
    [errors] and [skipped] counters of every source involved are
    unchanged. *)
Theorem queue_shedding (r : midi_reader_t) (ss : list midi_reader_source_t)
    (k : Z) :
  length (q_frames (frames r)) = Z.to_nat MIDI_READER_FRAMES_MAX ->
  q_len (frames r) = q_offset (frames r) ->
  Z.of_nat (length ss) = MIDI_READER_FRAMES_MAX + k -> 1 <= k ->
  forallb (acceptable r) ss = true ->
  exists r' ss' evs,
    process_all r ss = (repeat MIDIF_COMPLETE (length ss), r', ss', evs)
    /\ q_len (frames r') = MIDI_READER_FRAMES_MAX
    /\ q_offset (frames r') = 0
    /\ q_frames (frames r')
       = map (delivered_frame r)
             (take (Z.to_nat MIDI_READER_FRAMES_MAX) ss)
    /\ (forall start rds,
          length rds = Z.to_nat MIDI_READER_FRAMES_MAX ->
          fst (get_next_all start rds r')
          = map (fun s => Some (delivered_frame r s))
                (take (Z.to_nat MIDI_READER_FRAMES_MAX) ss))
    /\ missed (total r') = ulong (missed (total r) + k)
    /\ errors (total r') = errors (total r)
    /\ skipped (total r') = skipped (total r)
    /\ Forall2 (fun s s' =>
                  current s' = delivered_frame r s
                  /\ missed (stats s') = missed (stats s)
                  /\ errors (stats s') = errors (stats s)
                  /\ skipped (stats s') = skipped (stats s)) ss ss'.
Proof.
  intros Hlen Hempty Hss Hk Hacc.
  destruct (process_all_holds r ss r [] eq_refl eq_refl eq_refl eq_refl Hacc)
    as (r' & evs & Hall & Hq & He & Hs & Hm).
  { unfold queue_holds. split; [exact Hlen|]. split; [simpl; unfold MIDI_READER_FRAMES_MAX; lia|].
    split; [left; auto|]. intros j Hj. simpl in Hj. lia. }
  exists r', (map (processed_source r) ss), evs.
  cbn [app] in Hq. rewrite firstn_map in Hq.
  set (fs := map (delivered_frame r) (take (Z.to_nat MIDI_READER_FRAMES_MAX) ss)) in *.
  assert (Hfs : length fs = Z.to_nat MIDI_READER_FRAMES_MAX).
  { unfold fs. rewrite length_map, length_take.
    unfold MIDI_READER_FRAMES_MAX in *. lia. }
  destruct Hq as (Q1 & Q2 & Q3 & Q4).
  destruct Q3 as [(Hnil & _)|(_ & Q5 & Q6)].
  { rewrite Hnil in Hfs. simpl in Hfs. unfold MIDI_READER_FRAMES_MAX in Hfs. lia. }
  assert (Hframes : q_frames (frames r') = fs).
  { apply (nth_ext _ _ zero_frame zero_frame); [congruence|].
    intros j Hj. apply Q4. rewrite Hfs, <- Q1. exact Hj. }
  split; [exact Hall|].
  split; [rewrite Q6, Hfs; unfold MIDI_READER_FRAMES_MAX; lia|].
  split; [exact Q5|]. split; [exact Hframes|]. split.
  { intros start rds Hrds.
    rewrite get_next_all_pending;
      [| exact Q1 | lia | rewrite Q5, Q6, Hfs, Hrds; lia
       | rewrite Q6, Hfs; unfold MIDI_READER_FRAMES_MAX; lia ].
    transitivity (map Some fs); [|unfold fs; apply map_map].
    rewrite Q5, Hrds, <- Hfs.
    assert (H : map Some fs
                = map Some (map (fun j => nth j fs zero_frame)
                                (seq 0 (length fs))))
      by (rewrite map_nth_seq_id; reflexivity).
    rewrite H, map_map. apply map_ext. intros j.
    unfold get_frame. rewrite Hframes. do 2 f_equal. lia. }
  split.
  { rewrite Hm. cbv zeta. simpl length.
    destruct (_ <=? 0) eqn:E; [apply Z.leb_le in E; lia|]. f_equal. lia. }
  split; [exact He|]. split; [exact Hs|].
  clear. induction ss as [|s ss IH]; constructor; [|exact IH].
  repeat split.
Qed.

Lemma queue_shedding_witness :
  let r := midi_reader_init MIDIR_NONE None in
  let ss := clock_sources in
  exists r' ss' evs,
    process_all r ss = (repeat MIDIF_COMPLETE (length ss), r', ss', evs)
    /\ q_len (frames r') = MIDI_READER_FRAMES_MAX
    /\ q_offset (frames r') = 0
    /\ q_frames (frames r')
       = map (delivered_frame r)
             (take (Z.to_nat MIDI_READER_FRAMES_MAX) ss)
    /\ (forall start rds,
          length rds = Z.to_nat MIDI_READER_FRAMES_MAX ->
          fst (get_next_all start rds r')
          = map (fun s => Some (delivered_frame r s))
                (take (Z.to_nat MIDI_READER_FRAMES_MAX) ss))
    /\ missed (total r') = ulong (missed (total r) + 1)
    /\ errors (total r') = errors (total r)
    /\ skipped (total r') = skipped (total r)
    /\ Forall2 (fun s s' =>
                  current s' = delivered_frame r s
                  /\ missed (stats s') = missed (stats s)
                  /\ errors (stats s') = errors (stats s)
                  /\ skipped (stats s') = skipped (stats s)) ss ss'.
Proof.
  intros r ss.
  apply (queue_shedding r ss 1).
  - vm_compute. reflexivity.
  - reflexivity.
  - vm_compute. reflexivity.
  - lia.
  - vm_compute. reflexivity.
Defined.

(** ** Injection of a note-on (C6) *)

Lemma store_step_room (r : midi_reader_t) (mf : midi_frame_t) :
  length (q_frames (frames r)) = Z.to_nat MIDI_READER_FRAMES_MAX ->
  0 <= q_offset (frames r) <= q_len (frames r) ->
  q_len (frames r) < MIDI_READER_FRAMES_MAX ->
  let r' := store_step r mf in
  let n := if q_len (frames r) =? q_offset (frames r)
           then 0 else q_len (frames r) in
  length (q_frames (frames r')) = Z.to_nat MIDI_READER_FRAMES_MAX
  /\ q_len (frames r') = n + 1
  /\ q_offset (frames r') = q_len (frames r') - 1
                             - (q_len (frames r) - q_offset (frames r))
  /\ get_frame (frames r') n = mf
  /\ total r' = total r.
Proof.
  unfold MIDI_READER_FRAMES_MAX. intros Hl Ho Hn. cbv zeta. unfold store_step.
  destruct (q_len (frames r) =? q_offset (frames r)) eqn:E;
    cbn [q_len q_offset q_frames]; unfold MIDI_READER_FRAMES_MAX.
  - apply Z.eqb_eq in E. cbn [Z.ltb Z.compare].
    cbn [frames set_frames q_len q_offset q_frames total].
    rewrite length_zset. repeat split; try assumption; try lia.
    unfold get_frame. cbn [q_frames].
    apply (nth_zset_eq (q_frames (frames r)) 0). simpl. lia.
  - apply Z.eqb_neq in E.
    destruct (q_len (frames r) <? 1024) eqn:E1; [|lia].
    cbn [frames set_frames q_len q_offset q_frames total].
    rewrite length_zset. repeat split; try assumption; try lia.
    unfold get_frame. cbn [q_frames]. apply nth_zset_eq. lia.
Qed.

Lemma last_map_seq {A : Type} (f : nat -> A) (p : nat) :
  last (map f (seq 0 (S p))) = Some (f p).
Proof.
  rewrite seq_S, map_app. simpl. apply last_snoc.
Qed.

Lemma inject_loop_next (n : nat) (i : Z) (mf : midi_frame_t)
    (r r' : midi_reader_t) (src src' : midi_reader_source_t) :
  i < len mf ->
  midi_reader_push_byte r src (zget (data mf) i) = (MIDIF_NEXT, r', src', []) ->
  inject_loop (S n) i mf r src = inject_loop n (i + 1) mf r' src'.
Proof.
  intros Hi Hp. cbn [inject_loop].
  destruct (i <? len mf) eqn:E; [|lia]. rewrite Hp.
  destruct (inject_loop n (i + 1) mf r' src') as [[[[? ?] ?] ?] ?].
  reflexivity.
Qed.

(** C6: for a well-formed three-byte note-on frame (status 0x90-0x9F,
    two data bytes below 0x80), with no skip entry matching its status,
    no callback and the queue below capacity, [midi_reader_inject]
    returns 3; the three bytes each wait, the running status being
    active, and the run is closed by one more call of the byte state
    machine with the byte 0xFE, which is pushed back on the local source
    and is not part of the frame; exactly that frame is added behind the
    frames waiting in the queue, so that get-next returns it once those
    have been returned. *)
Theorem inject_note_on (r : midi_reader_t) (mf : midi_frame_t) (s d1 d2 : Z) :
  len mf = 3 ->
  zget (data mf) 0 = s -> zget (data mf) 1 = d1 -> zget (data mf) 2 = d2 ->
  0x90 <= s <= 0x9f -> 0 <= d1 < 0x80 -> 0 <= d2 < 0x80 ->
  skip_match r s = false -> callback r = None ->
  length (q_frames (frames r)) = Z.to_nat MIDI_READER_FRAMES_MAX ->
  0 <= q_offset (frames r) <= q_len (frames r) ->
  q_len (frames r) < MIDI_READER_FRAMES_MAX ->
  let F := frame_of [s; d1; d2] in
  exists r' evs src3 src4,
    midi_reader_inject r mf = (3, r', evs)
    /\ inject_loop 3 0 mf r inject_source = (None, 3, r, src3, [])
    /\ running src3 = s /\ running src3 <> 0
    /\ midi_reader_push_byte r src3 0xfe = (MIDIF_COMPLETE, r', src4, evs)
    /\ push_back src4 = 0xfe /\ current src4 = F
    /\ ~ In 0xfe (frame_bytes F)
    /\ r' = store_step (set_total (incr_read (total r)) r) F
    /\ q_len (frames r')
       = (if q_len (frames r) =? q_offset (frames r)
          then 0 else q_len (frames r)) + 1
    /\ get_frame (frames r') (q_len (frames r') - 1) = F
    /\ q_len (frames r') - q_offset (frames r')
       = q_len (frames r) - q_offset (frames r) + 1
    /\ (forall start rds,
          Z.of_nat (length rds) = q_len (frames r') - q_offset (frames r') ->
          last (fst (get_next_all start rds r')) = Some (Some F)).
Proof.
  intros Hlen H0 H1 H2 Hs Hd1 Hd2 Hskip Hcb Hql Hqo Hqn F.
  set (src1 := set_current (frame_append s (current inject_source))
                 (set_running s inject_source)).
  set (src2 := set_current (frame_append d1 (current src1)) src1).
  set (src3 := set_current (frame_append d2 (current src2)) src2).
  assert (Hcur : current src3 = F) by reflexivity.
  assert (P1 : midi_reader_push_byte r inject_source s
               = (MIDIF_NEXT, r, src1, [])).
  { apply push_byte_voice_status; try reflexivity; simpl; lia. }
  assert (P2 : midi_reader_push_byte r src1 d1 = (MIDIF_NEXT, r, src2, [])).
  { apply push_byte_voice_data.
    - cbn. lia.
    - exact Hd1.
    - vm_compute. split; congruence.
    - change (zget (data (current src1)) 0) with s. lia. }
  assert (P3 : midi_reader_push_byte r src2 d2 = (MIDIF_NEXT, r, src3, [])).
  { apply push_byte_voice_data.
    - cbn. lia.
    - exact Hd2.
    - vm_compute. split; congruence.
    - change (zget (data (current src2)) 0) with s. lia. }
  assert (Hloop : inject_loop 3 0 mf r inject_source = (None, 3, r, src3, [])).
  { rewrite (inject_loop_next 2 0 mf r r inject_source src1)
      by (rewrite ?H0; try assumption; lia).
    rewrite (inject_loop_next 1 (0 + 1) mf r r src1 src2)
      by (change (0 + 1) with 1; rewrite ?H1; try assumption; lia).
    rewrite (inject_loop_next 0 (0 + 1 + 1) mf r r src2 src3)
      by (change (0 + 1 + 1) with 2; rewrite ?H2; try assumption; lia).
    reflexivity. }
  set (src3' := set_running 0 (set_push_back 0xfe src3)).
  assert (Hacc : acceptable r src3' = true).
  { unfold acceptable. rewrite Hcb.
    change (current src3') with F.
    change (zget (data F) 0) with s. rewrite Hskip. reflexivity. }
  assert (Hdel : delivered_frame r src3' = F).
  { unfold delivered_frame, prepared_frame. rewrite Hcb.
    change (channel src3') with (-1). change (current src3') with F.
    unfold channel_translate. cbn [Z.gtb Z.compare].
    destruct (has_flag (flags r) MIDIR_EXPAND); [|reflexivity].
    unfold midi_frame_expand_running. change (len F) with 3.
    rewrite orb_true_r. reflexivity. }
  destruct (process_acceptable r src3' Hacc) as (evs & Hproc).
  rewrite Hdel in Hproc. unfold processed_source in Hproc.
  rewrite Hdel in Hproc.
  assert (P4 : midi_reader_push_byte r src3 0xfe
               = (MIDIF_COMPLETE,
                  store_step (set_total (incr_read (total r)) r) F,
                  set_current F (set_stats (incr_read (stats src3')) src3'),
                  evs)).
  { rewrite push_byte_boundary.
    - exact Hproc.
    - change (running src3) with s. lia.
    - lia.
    - vm_compute. split; congruence.
    - reflexivity. }
  set (r' := store_step (set_total (incr_read (total r)) r) F) in *.
  destruct (store_step_room (set_total (incr_read (total r)) r) F Hql Hqo Hqn)
    as (S1 & S2 & S3 & S4 & _).
  fold r' in S1, S2, S3, S4.
  cbn [frames set_total] in S2, S3, S4.
  assert (Hoff : 0 <= q_offset (frames r')
                 /\ q_len (frames r') - q_offset (frames r')
                    = q_len (frames r) - q_offset (frames r) + 1
                 /\ q_len (frames r') <= MIDI_READER_FRAMES_MAX
                 /\ q_len (frames r') - 1
                    = if q_len (frames r) =? q_offset (frames r)
                      then 0 else q_len (frames r)).
  { unfold MIDI_READER_FRAMES_MAX in *.
    destruct (q_len (frames r) =? q_offset (frames r)) eqn:E;
      [apply Z.eqb_eq in E|apply Z.eqb_neq in E]; lia. }
  destruct Hoff as (O1 & O2 & O3 & O4).
  exists r', evs, src3, (set_current F (set_stats (incr_read (stats src3')) src3')).
  split.
  { unfold midi_reader_inject. rewrite Hlen.
    change (Z.to_nat 3) with 3%nat. cbn [Z.eqb]. rewrite Hloop.
    change (running src3) with s.
    destruct (s =? 0) eqn:E; [lia|]. cbn [negb]. rewrite P4. reflexivity. }
  split; [exact Hloop|]. split; [reflexivity|].
  split; [change (running src3) with s; lia|].
  split; [exact P4|]. split; [reflexivity|]. split; [reflexivity|].
  split.
  { change (frame_bytes F) with [s; d1; d2]. simpl. lia. }
  split; [reflexivity|]. split; [exact S2|].
  split; [rewrite O4; exact S4|].
  split; [exact O2|].
  intros start rds Hrds.
  destruct (length rds) as [|p] eqn:Ep; [lia|].
  rewrite get_next_all_pending;
    [| exact S1 | exact O1 | rewrite Ep; lia | exact O3 ].
  rewrite Ep, last_map_seq. do 2 f_equal.
  rewrite <- S4, <- O4. f_equal. lia.
Qed.

Lemma inject_note_on_witness :
  let r := midi_reader_init MIDIR_NONE None in
  let F := frame_of [0x90; 0x3c; 0x64] in
  exists r' evs src3 src4,
    midi_reader_inject r (frame_of [0x90; 0x3c; 0x64]) = (3, r', evs)
    /\ inject_loop 3 0 (frame_of [0x90; 0x3c; 0x64]) r inject_source
       = (None, 3, r, src3, [])
    /\ running src3 = 0x90 /\ running src3 <> 0
    /\ midi_reader_push_byte r src3 0xfe = (MIDIF_COMPLETE, r', src4, evs)
    /\ push_back src4 = 0xfe /\ current src4 = F
    /\ ~ In 0xfe (frame_bytes F)
    /\ r' = store_step (set_total (incr_read (total r)) r) F
    /\ q_len (frames r')
       = (if q_len (frames r) =? q_offset (frames r)
          then 0 else q_len (frames r)) + 1
    /\ get_frame (frames r') (q_len (frames r') - 1) = F
    /\ q_len (frames r') - q_offset (frames r')
       = q_len (frames r) - q_offset (frames r) + 1
    /\ (forall start rds,
          Z.of_nat (length rds) = q_len (frames r') - q_offset (frames r') ->
          last (fst (get_next_all start rds r')) = Some (Some F)).
Proof.
  intros r F.
  apply (inject_note_on r (frame_of [0x90; 0x3c; 0x64]) 0x90 0x3c 0x64);
    try reflexivity; try lia; vm_compute; split; congruence.
Defined.

(** ** The running-status invariant (C9) *)

Lemma frame_wf_zero : frame_wf zero_frame.
Proof. split; [vm_compute; split; congruence|reflexivity]. Qed.

Lemma frame_reset_wf (mf : midi_frame_t) :
  frame_wf mf -> frame_wf (midi_frame_reset mf).
Proof.
  intros (H1 & H2). split.
  - cbn. unfold MIDI_FRAME_MAX. lia.
  - cbn [midi_frame_reset set_data set_len data]. rewrite length_zset. exact H2.
Qed.

Lemma channel_translate_wf (chan : Z) (mf : midi_frame_t) :
  frame_wf mf -> frame_wf (channel_translate chan mf).
Proof.
  intros (H1 & H2). unfold channel_translate.
  destruct (chan >? 0); [|split; assumption].
  destruct ((zget (data mf) 0 >=? 128) && (zget (data mf) 0 <=? 239));
    [|split; assumption].
  split; [exact H1|].
  cbn [set_data data]. rewrite length_zset. exact H2.
Qed.

Lemma expand_running_wf (mf : midi_frame_t) :
  frame_wf mf -> frame_wf (snd (midi_frame_expand_running mf)).
Proof.
  intros (H1 & H2). unfold midi_frame_expand_running.
  destruct ((zget (data mf) 0 <? 128) || (zget (data mf) 0 >? 239)
            || (len mf =? 3)); [split; assumption|].
  destruct (Z.rem (len mf - 1) 2 =? 0) eqn:E; [|split; assumption].
  cbn [negb].
  destruct (len mf + Z.quot (len mf - 1) 2 >? MIDI_FRAME_MAX) eqn:E1;
    [split; assumption|].
  cbn [snd]. apply Z.eqb_eq in E. unfold MIDI_FRAME_MAX in *.
  set (N := Z.quot (len mf - 1) 2) in *.
  assert (HN : len mf - 1 = 2 * N).
  { unfold N. apply Z.quot_exact; [lia|exact E]. }
  assert (Hl1 : 1 <= len mf).
  { destruct (Z.eq_dec (len mf) 0) as [Hz|Hz]; [|lia].
    rewrite Hz in E. vm_compute in E. discriminate. }
  destruct (expand_loop_spec mf N (Z.to_nat (len mf)) 0 (midi_frame_reset mf)
              ltac:(lia) eq_refl ltac:(lia) ltac:(lia)
              ltac:(unfold MIDI_FRAME_MAX; lia)
              ltac:(cbn [midi_frame_reset set_data set_len data];
                    rewrite length_zset; exact H2))
    as (R1 & R2 & _).
  change (1 + 2 * 0) with 1 in R1, R2.
  split; [unfold MIDI_FRAME_MAX; lia|exact R2].
Qed.

Lemma prepared_frame_wf (r : midi_reader_t) (s : midi_reader_source_t) :
  frame_wf (current s) -> frame_wf (prepared_frame r s).
Proof.
  intros H. unfold prepared_frame.
  destruct (has_flag (flags r) MIDIR_EXPAND).
  - apply expand_running_wf, channel_translate_wf, H.
  - apply channel_translate_wf, H.
Qed.

(** [midi_frame_process] leaves the running status of the source alone
    and its frame within bounds. *)
Lemma process_source (r : midi_reader_t) (s : midi_reader_source_t) :
  callbacks_ok r -> frame_wf (current s) ->
  running (res_source (midi_frame_process r s)) = running s
  /\ frame_wf (current (res_source (midi_frame_process r s))).
Proof.
  intros Hcb Hwf. pose proof (prepared_frame_wf r s Hwf) as Hp.
  unfold prepared_frame in Hp.
  unfold midi_frame_process, res_source.
  destruct (len (current s) =? 0); [split; [reflexivity|exact Hwf]|].
  cbv zeta.
  destruct (match to_skip (set_total (incr_read (total r)) r) with
            | Some p => skip_scan p (zget (data (current s)) 0)
            | None => false
            end).
  { cbn. split; [reflexivity|exact Hwf]. }
  cbn [flags set_total channel set_stats callback user_data current].
  destruct (callback r) as [cb|] eqn:Ecb.
  - pose proof (Hcb cb Ecb _ (user_data r) Hp) as Hc.
    destruct (cb _ _) as [st mf]. cbn [snd] in Hc.
    destruct (len mf =? 0); [cbn; split; [reflexivity|exact Hc]|].
    destruct st; cbn; (split; [reflexivity|exact Hc]).
  - cbn. split; [reflexivity|exact Hp].
Qed.

Lemma source_inv_no_running (s : midi_reader_source_t) :
  frame_wf (current s) -> running s = 0 -> source_inv s.
Proof. intros H1 H2. split; [exact H1|]. intros H. contradiction. Qed.

(** The append step of [midi_reader_push_byte], with the start of a
    running status on the first byte. *)
Lemma append_source_inv (s : midi_reader_source_t) (b : Z) :
  source_inv s -> len (current s) <> MIDI_FRAME_MAX ->
  let src1 := if len (current s) =? 0
              then if (b >=? 0x80) && (b <=? 0xef)
                   then set_running b s else set_running 0 s
              else s in
  let src2 := set_current (frame_append b (current src1)) src1 in
  source_inv src2
  /\ ((len (current src2) >? 1) = true ->
      (nth (Z.to_nat (zget (data (current src2)) 0 - 0x80)) midi_frame_len 0
         =? -0xf0) = true ->
      running src2 = 0).
Proof.
  intros ((W1 & W2) & Hrun) Hmax src1 src2. unfold MIDI_FRAME_MAX in *.
  assert (Hc1 : current src1 = current s).
  { unfold src1. destruct (len (current s) =? 0); [|reflexivity].
    destruct ((b >=? 128) && (b <=? 239)); reflexivity. }
  destruct (frame_append_spec b (current s)
              ltac:(unfold MIDI_FRAME_MAX; lia) W2) as (A1 & A2 & _ & A4).
  destruct (frame_append_get b (current s)
              ltac:(unfold MIDI_FRAME_MAX; lia) W2) as (A5 & _).
  assert (Hwf2 : frame_wf (current src2)).
  { unfold src2. cbn [current set_current]. rewrite Hc1.
    split; [unfold MIDI_FRAME_MAX; lia|exact A2]. }
  assert (Hr2 : running src2 = running src1) by reflexivity.
  assert (Hcur2 : current src2 = frame_append b (current s)).
  { unfold src2. cbn [current set_current]. rewrite Hc1. reflexivity. }
  destruct (len (current s) =? 0) eqn:E0.
  - apply Z.eqb_eq in E0.
    split.
    + split; [exact Hwf2|]. rewrite Hr2, Hcur2, A1. intros Hne.
      unfold src1 in *.
      destruct ((b >=? 128) && (b <=? 239)) eqn:Eb;
        [|cbn in Hne; contradiction].
      cbn [running set_running] in *.
      rewrite E0 in A5. rewrite A5. split; [lia|]. split; [reflexivity|].
      apply andb_true_iff in Eb. lia.
    + rewrite Hcur2, A1. intros Hgt. lia.
  - apply Z.eqb_neq in E0. unfold src1 in *.
    split.
    + split; [exact Hwf2|]. rewrite Hr2, Hcur2, A1, A4 by lia.
      intros Hne. destruct (Hrun Hne) as (R1 & R2 & R3).
      split; [lia|]. split; assumption.
    + rewrite Hcur2, A4 by lia. intros _ Htab.
      destruct (Z.eq_dec (running s) 0) as [Hz|Hnz]; [exact Hz|].
      destruct (Hrun Hnz) as (R1 & R2 & R3).
      rewrite R2 in Htab.
      destruct (status_voice_facts _ R3) as (_ & T & _). congruence.
Qed.

(** [midi_reader_push_byte] keeps the invariant of the source, and
    leaves no running status behind on an outcome that makes
    [midi_reader_update] reset the frame. *)
Lemma push_byte_source (r : midi_reader_t) (s : midi_reader_source_t) (b : Z) :
  callbacks_ok r -> source_inv s ->
  source_inv (res_source (midi_reader_push_byte r s b))
  /\ (is_terminal (res_state (midi_reader_push_byte r s b)) = true ->
      running (res_source (midi_reader_push_byte r s b)) = 0).
Proof.
  intros Hcb Hinv. pose proof Hinv as (Hwf & Hrun).
  unfold midi_reader_push_byte.
  destruct (b <? 0); [split; [exact Hinv|discriminate]|].
  destruct (b >? 255).
  { cbn. split; [apply source_inv_no_running; [exact Hwf|reflexivity]|reflexivity]. }
  destruct (len (current s) =? MIDI_FRAME_MAX) eqn:Emax.
  { cbn. split; [apply source_inv_no_running; [exact Hwf|reflexivity]|reflexivity]. }
  apply Z.eqb_neq in Emax.
  destruct (negb (running s =? 0) && negb (Z.land (uchar b) 128 =? 0)).
  - cbv zeta.
    destruct ((len (current (set_running 0 (set_push_back (uchar b) s))) =? 0)
              || negb (Z.rem (len (current (set_running 0
                   (set_push_back (uchar b) s))) - 1) 2 =? 0)).
    { cbn. split; [apply source_inv_no_running; [exact Hwf|reflexivity]|reflexivity]. }
    destruct (process_source r (set_running 0 (set_push_back (uchar b) s))
                Hcb Hwf) as (P1 & P2).
    cbn [running set_running] in P1.
    split; [apply source_inv_no_running; assumption|intros _; exact P1].
  - cbv zeta.
    destruct (append_source_inv s (uchar b) Hinv Emax) as (I1 & I2).
    cbv zeta in I1, I2.
    set (src2 := set_current _ _) in *.
    destruct (Z.land (zget (data (current src2)) 0) 128 =? 0).
    { cbn. split; [apply source_inv_no_running; [apply I1|reflexivity]|reflexivity]. }
    destruct (nth (Z.to_nat (zget (data (current src2)) 0 - 128))
                  midi_frame_len 0 =? -240) eqn:Etab.
    + destruct (len (current src2) >? 1) eqn:Egt; cbn [andb].
      * specialize (I2 eq_refl eq_refl).
        destruct (uchar b =? 247).
        -- destruct (process_source r src2 Hcb (proj1 I1)) as (P1 & P2).
           rewrite I2 in P1.
           split; [apply source_inv_no_running; assumption|intros _; exact P1].
        -- split; [exact I1|discriminate].
      * destruct (running src2 =? 0) eqn:Er; cbn [andb].
        -- apply Z.eqb_eq in Er.
           destruct (_ =? len (current src2)).
           ++ destruct (process_source r src2 Hcb (proj1 I1)) as (P1 & P2).
              rewrite Er in P1.
              split; [apply source_inv_no_running; assumption|intros _; exact P1].
           ++ split; [exact I1|discriminate].
        -- split; [exact I1|discriminate].
    + cbn [andb].
      destruct (running src2 =? 0) eqn:Er; cbn [andb].
      * apply Z.eqb_eq in Er.
        destruct (_ =? len (current src2)).
        -- destruct (process_source r src2 Hcb (proj1 I1)) as (P1 & P2).
           rewrite Er in P1.
           split; [apply source_inv_no_running; assumption|intros _; exact P1].
        -- split; [exact I1|discriminate].
      * split; [exact I1|discriminate].
Qed.

Lemma source_inv_ext (s s' : midi_reader_source_t) :
  running s' = running s -> current s' = current s ->
  source_inv s -> source_inv s'.
Proof. intros H1 H2 H. unfold source_inv. rewrite H1, H2. exact H. Qed.

Lemma source_inv_zero : source_inv zero_source.
Proof. apply source_inv_no_running; [apply frame_wf_zero|reflexivity]. Qed.

Lemma source_inv_reset (s : midi_reader_source_t) (c : bool) :
  source_inv (fst (midi_reader_reset_source s c)).
Proof.
  destruct c; (apply source_inv_no_running; [apply frame_wf_zero|reflexivity]).
Qed.

Lemma get_source_inv (r : midi_reader_t) (i : Z) :
  Forall source_inv (sources r) -> source_inv (get_source r i).
Proof.
  intros H. unfold get_source.
  destruct (nth_in_or_default (Z.to_nat i) (sources r) zero_source) as [Hin| ->].
  - rewrite Forall_forall in H. apply H. apply list_elem_of_In. exact Hin.
  - apply source_inv_zero.
Qed.

Lemma Forall_zset {A : Type} (P : A -> Prop) (l : list A) (i : Z) (v : A) :
  Forall P l -> P v -> Forall P (zset l i v).
Proof. intros H1 H2. unfold zset. apply Forall_insert; assumption. Qed.

Lemma fold_left_inv {A B : Type} (P : A -> Prop) (f : A -> B -> A)
    (l : list B) :
  (forall a b, P a -> P (f a b)) -> forall a, P a -> P (fold_left f l a).
Proof.
  intros Hf. induction l as [|b l IH]; intros a Ha; [exact Ha|].
  simpl. apply IH, Hf, Ha.
Qed.

Lemma reset_source_n_inv (r : midi_reader_t) (i : Z) (c : bool) :
  reader_inv r -> reader_inv (fst (midi_reader_reset_source_n r i c)).
Proof.
  intros (H1 & H2). unfold midi_reader_reset_source_n.
  destruct ((0 <=? i) && (i <? MIDI_READER_IN_MAX)); [|split; assumption].
  pose proof (source_inv_reset (get_source r i) c) as Hs.
  destruct (midi_reader_reset_source (get_source r i) c) as [s evs].
  cbn [fst] in *. split; [|exact H2].
  cbn [sources set_sources]. apply Forall_zset; assumption.
Qed.

Lemma init_inv (fl : Z) (skip : option (list Z)) :
  reader_inv (midi_reader_init fl skip).
Proof.
  unfold midi_reader_init.
  match goal with
  | |- reader_inv (set_to_skip _ (set_dumpfd _ ?x)) =>
      assert (H : reader_inv x)
  end.
  - apply (fold_left_inv reader_inv).
    + intros a b Ha. apply reset_source_n_inv. exact Ha.
    + split.
      * cbn [sources set_flags]. apply Forall_forall. intros x Hx.
        apply list_elem_of_In, repeat_spec in Hx. subst x. apply source_inv_zero.
      * intros cb Hc. discriminate.
  - destruct H as (H1 & H2). split; assumption.
Qed.

Lemma add_source_inv (r : midi_reader_t) (f chan : Z) :
  reader_inv r -> reader_inv (snd (midi_reader_add_source r f chan)).
Proof.
  intros (H1 & H2). unfold midi_reader_add_source.
  destruct ((f >? -1) && (nsources r <? MIDI_READER_IN_MAX));
    [|split; assumption].
  destruct (_ <? nsources r); [split; assumption|].
  cbn [snd]. split; [|exact H2].
  cbn [sources set_sources set_nsources]. apply Forall_zset; [exact H1|].
  pose proof (get_source_inv r (nsources r) H1) as Hs.
  destruct ((chan >=? 1) && (chan <=? 16));
    (eapply source_inv_ext; [| |exact Hs]; reflexivity).
Qed.

Lemma shift_sources_inv (n : nat) :
  forall (j : Z) (l : list midi_reader_source_t),
  Forall source_inv l -> Forall source_inv (fst (shift_sources n j l)).
Proof.
  induction n as [|n IH]; intros j l H; [exact H|].
  cbn [shift_sources]. destruct (j <? MIDI_READER_IN_MAX); [|exact H].
  apply IH. apply Forall_zset; [exact H|].
  destruct (nth_in_or_default (Z.to_nat j) l zero_source) as [Hin| ->].
  - rewrite Forall_forall in H. apply H. apply list_elem_of_In. exact Hin.
  - apply source_inv_zero.
Qed.

Lemma remove_source_inv (r : midi_reader_t) (f : Z) :
  reader_inv r -> reader_inv (snd (fst (midi_reader_remove_source r f))).
Proof.
  intros H. unfold midi_reader_remove_source.
  destruct ((f <? 0) || (nsources r =? 0)); [exact H|].
  destruct (_ >=? nsources r); [exact H|].
  pose proof (reset_source_n_inv r
                (find_fd (sources r) (Z.to_nat (nsources r)) 0 f) true H) as H1.
  destruct (midi_reader_reset_source_n r _ true) as [r1 e1]. cbn [fst] in H1.
  pose proof (shift_sources_inv (Z.to_nat MIDI_READER_IN_MAX)
                (find_fd (sources r) (Z.to_nat (nsources r)) 0 f + 1)
                (sources r1) (proj1 H1)) as H2.
  destruct (shift_sources _ _ (sources r1)) as [l j]. cbn [fst] in H2.
  pose proof (reset_source_n_inv (set_sources l r1) j false
                (conj H2 (proj2 H1))) as H3.
  destruct (midi_reader_reset_source_n (set_sources l r1) j false) as [r2 e2].
  cbn [fst snd] in *. destruct H3 as (H3 & H4). split; assumption.
Qed.

Lemma read_source_inv (rd : Z -> list Z) (s : midi_reader_source_t) :
  source_inv s -> source_inv (read_source rd s).
Proof.
  intros H. eapply source_inv_ext; [| |exact H]; unfold read_source;
    break_ifs; reflexivity.
Qed.

Lemma read_inv (rd : Z -> list Z) (r : midi_reader_t) :
  reader_inv r -> reader_inv (midi_reader_read rd r).
Proof.
  intros H. unfold midi_reader_read.
  apply (fold_left_inv reader_inv); [|exact H].
  intros a i (A1 & A2). split; [|exact A2].
  cbn [sources set_sources]. apply Forall_zset; [exact A1|].
  apply read_source_inv, get_source_inv, A1.
Qed.

Lemma get_byte_source (s : midi_reader_source_t) :
  running (snd (midi_reader_get_byte s)) = running s
  /\ current (snd (midi_reader_get_byte s)) = current s.
Proof.
  unfold midi_reader_get_byte.
  break_ifs; split; reflexivity.
Qed.

Lemma update_visit_inv (r : midi_reader_t) (src : Z) :
  reader_inv r -> reader_inv (fst (update_visit r src)).
Proof.
  intros (H1 & H2). unfold update_visit.
  pose proof (get_source_inv r src H1) as Hs.
  destruct (get_byte_source (get_source r src)) as (G1 & G2).
  destruct (midi_reader_get_byte (get_source r src)) as [b s1].
  cbn [snd] in G1, G2.
  pose proof (source_inv_ext _ s1 G1 G2 Hs) as Hs1.
  destruct (push_byte_source r s1 b H2 Hs1) as (P1 & P2).
  pose proof (push_byte_shape r s1 b) as Hsh.
  destruct (midi_reader_push_byte r s1 b) as [[[st r1] s2] e].
  cbn [res_source res_state res_reader fst snd] in *.
  destruct (shape_config r r1 Hsh) as (_ & C2 & _ & _ & _ & C6 & _).
  split.
  - cbn [sources set_sources]. rewrite C2. apply Forall_zset; [exact H1|].
    destruct st; cbn [is_terminal] in P2; try exact P1;
      (apply source_inv_no_running;
       [apply frame_reset_wf; apply P1 | apply P2; reflexivity]).
  - unfold callbacks_ok. cbn [callback set_sources]. rewrite C6. exact H2.
Qed.

Lemma update_loop_inv (n : nat) :
  forall (src : Z) (r : midi_reader_t),
  reader_inv r -> reader_inv (fst (update_loop n src r)).
Proof.
  induction n as [|n IH]; intros src r H; [exact H|].
  cbn [update_loop].
  set (src' := if src >=? nsources r then 0 else src).
  pose proof (update_visit_inv r src' H) as H1.
  destruct (update_visit r src') as [r1 e1]. cbn [fst] in H1.
  pose proof (IH (src' + 1) r1 H1) as H2.
  destruct (update_loop n (src' + 1) r1) as [r2 e2]. exact H2.
Qed.

Lemma update_inv (start : Z) (rd : Z -> list Z) (r : midi_reader_t) :
  reader_inv r -> reader_inv (snd (fst (midi_reader_update start rd r))).
Proof.
  intros H. unfold midi_reader_update.
  pose proof (read_inv rd r H) as H0.
  set (r0 := midi_reader_read rd r) in *.
  set (st := if start + 1 >=? nsources r0 then 0 else start + 1).
  pose proof (update_loop_inv (Z.to_nat (nsources r0)) st r0 H0) as H1.
  destruct (update_loop (Z.to_nat (nsources r0)) st r0) as [r1 e1].
  exact H1.
Qed.

Lemma get_next_inv (start : Z) (rd : Z -> list Z) (r : midi_reader_t) :
  reader_inv r -> reader_inv (snd (fst (midi_reader_get_next start rd r))).
Proof.
  intros H. unfold midi_reader_get_next.
  pose proof (update_inv start rd r H) as H1.
  destruct (midi_reader_update start rd r) as [[[ok st] r1] e1].
  cbn [fst snd] in H1. destruct ok; exact H1.
Qed.

Lemma inject_loop_config (mf : midi_frame_t) (n : nat) :
  forall (i : Z) (r : midi_reader_t) (src : midi_reader_source_t),
  sources (snd (fst (fst (inject_loop n i mf r src)))) = sources r
  /\ callback (snd (fst (fst (inject_loop n i mf r src)))) = callback r.
Proof.
  induction n as [|n IH]; intros i r src; [split; reflexivity|].
  cbn [inject_loop]. destruct (i <? len mf); [|split; reflexivity].
  pose proof (push_byte_shape r src (zget (data mf) i)) as Hsh.
  destruct (midi_reader_push_byte r src (zget (data mf) i))
    as [[[st r1] s1] e1].
  cbn [res_reader fst snd] in Hsh.
  destruct (shape_config r r1 Hsh) as (_ & C2 & _ & _ & _ & C6 & _).
  specialize (IH (i + 1) r1 s1).
  destruct (inject_loop n (i + 1) mf r1 s1) as [[[[ret i'] r2] s2] e2].
  cbn [fst snd] in IH.
  destruct st; cbn [fst snd]; try (split; assumption);
    (split; [rewrite <- C2|rewrite <- C6]; apply IH).
Qed.

Lemma inject_inv (r : midi_reader_t) (mf : midi_frame_t) :
  reader_inv r -> reader_inv (snd (fst (midi_reader_inject r mf))).
Proof.
  intros (H1 & H2). unfold midi_reader_inject.
  destruct (len mf =? 0); [split; assumption|].
  destruct (inject_loop_config mf (Z.to_nat (len mf)) 0 r inject_source)
    as (C1 & C2).
  destruct (inject_loop (Z.to_nat (len mf)) 0 mf r inject_source)
    as [[[[ret i] r1] s1] e1].
  cbn [fst snd] in C1, C2.
  assert (Hr1 : reader_inv r1).
  { split; [rewrite C1; exact H1|]. unfold callbacks_ok. rewrite C2. exact H2. }
  destruct ret as [v|]; [exact Hr1|].
  destruct (negb (running s1 =? 0)); [|exact Hr1].
  pose proof (push_byte_shape r1 s1 254) as Hsh.
  destruct (midi_reader_push_byte r1 s1 254) as [[[st r2] s2] e2].
  cbn [res_reader fst snd] in *.
  destruct (shape_config r1 r2 Hsh) as (_ & D2 & _ & _ & _ & D6 & _).
  destruct Hr1 as (R1 & R2).
  split; [rewrite D2; exact R1|]. unfold callbacks_ok. rewrite D6. exact R2.
Qed.

Lemma clear_queue_inv (r : midi_reader_t) :
  reader_inv r -> reader_inv (midi_reader_clear_queue r).
Proof.
  intros H. unfold midi_reader_clear_queue.
  destruct (q_len (frames r) >? 0); exact H.
Qed.

Lemma reset_stats_inv (r : midi_reader_t) (n : Z) :
  reader_inv r -> reader_inv (midi_reader_reset_stats r n).
Proof.
  intros (H1 & H2). unfold midi_reader_reset_stats.
  destruct ((n <? -1) || (n >=? nsources r)); [split; assumption|].
  destruct (n =? -1); [split; assumption|].
  split; [|exact H2]. cbn [sources set_sources].
  apply Forall_zset; [exact H1|].
  eapply source_inv_ext; [| |apply (get_source_inv r n H1)]; reflexivity.
Qed.

Lemma close_inv (r : midi_reader_t) :
  reader_inv r -> reader_inv (fst (midi_reader_close r)).
Proof.
  intros H. unfold midi_reader_close.
  destruct (nsources r =? 0); [exact H|].
  assert (Hc : reader_inv (fst (close_sources r))).
  { unfold close_sources.
    apply (fold_left_inv (fun x => reader_inv (fst x))); [|exact H].
    intros [a ev] i Ha. cbn [fst] in Ha.
    pose proof (reset_source_n_inv a (Z.of_nat i) true Ha) as Hn.
    destruct (midi_reader_reset_source_n a (Z.of_nat i) true). exact Hn. }
  destruct (close_sources r) as [r1 e1]. cbn [fst] in Hc.
  destruct (dumpfd r1 >? -1); exact Hc.
Qed.

Lemma reachable_inv (r : midi_reader_t) : reachable r -> reader_inv r.
Proof.
  induction 1.
  - apply init_inv.
  - apply add_source_inv; assumption.
  - apply remove_source_inv; assumption.
  - unfold midi_reader_set_dump_fd. destruct (f >? -1); assumption.
  - destruct IHreachable as (I1 & I2). split; [exact I1|].
    intros c Hc. cbn in Hc. auto.
  - apply update_inv; assumption.
  - apply get_next_inv; assumption.
  - apply inject_inv; assumption.
  - apply clear_queue_inv; assumption.
  - apply reset_stats_inv; assumption.
  - apply close_inv; assumption.
  - apply read_inv; assumption.
  - apply update_visit_inv; assumption.
Qed.

Lemma inject_reach_inv (src : midi_reader_source_t) :
  inject_reach src -> source_inv src.
Proof.
  induction 1 as [|r src b Hcb _ IH].
  - apply source_inv_no_running; [apply frame_wf_zero|reflexivity].
  - apply push_byte_source; assumption.
Qed.

(** The states [midi_reader_update] goes through between its calls of
    the byte state machine are reachable ones. *)
Lemma update_loop_reachable (n : nat) :
  forall (src : Z) (r : midi_reader_t),
  reachable r -> reachable (fst (update_loop n src r)).
Proof.
  induction n as [|n IH]; intros src r H; [exact H|].
  cbn [update_loop].
  set (src' := if src >=? nsources r then 0 else src).
  pose proof (reach_visit r src' H) as H1.
  destruct (update_visit r src') as [r1 e1]. cbn [fst] in H1.
  pose proof (IH (src' + 1) r1 H1) as H2.
  destruct (update_loop n (src' + 1) r1) as [r2 e2]. exact H2.
Qed.

(** The local source of [midi_reader_inject] stays within
    [inject_reach] along its loop. *)
Lemma inject_loop_reach (mf : midi_frame_t) (n : nat) :
  forall (i : Z) (r : midi_reader_t) (src : midi_reader_source_t),
  callbacks_ok r -> inject_reach src ->
  inject_reach (snd (fst (inject_loop n i mf r src))).
Proof.
  induction n as [|n IH]; intros i r src Hcb Hsrc; [exact Hsrc|].
  cbn [inject_loop]. destruct (i <? len mf); [|exact Hsrc].
  pose proof (inject_push r src (zget (data mf) i) Hcb Hsrc) as H1.
  pose proof (push_byte_shape r src (zget (data mf) i)) as Hsh.
  destruct (midi_reader_push_byte r src (zget (data mf) i))
    as [[[st r1] s1] e1].
  cbn [res_source res_reader fst snd] in H1, Hsh.
  destruct (shape_config r r1 Hsh) as (_ & _ & _ & _ & _ & C6 & _).
  assert (Hcb1 : callbacks_ok r1) by (unfold callbacks_ok; rewrite C6; exact Hcb).
  specialize (IH (i + 1) r1 s1 Hcb1 H1).
  destruct (inject_loop n (i + 1) mf r1 s1) as [[[[ret i'] r2] s2] e2].
  destruct st; cbn [fst snd] in *; assumption.
Qed.

Lemma boundary_branch_nonempty (src : midi_reader_source_t) (b : Z) :
  source_inv src -> boundary_branch src b = true ->
  (len (current src) =? 0) = false /\ 1 <= len (current src).
Proof.
  intros (_ & Hrun) Hb. unfold boundary_branch in Hb.
  apply andb_true_iff in Hb. destruct Hb as (Hb & _).
  apply negb_true_iff, Z.eqb_neq in Hb.
  destruct (Hrun Hb) as (H1 & _). split; [apply Z.eqb_neq|]; lia.
Qed.

(** C9: in every reader state reached through the public operations
    (the states between the steps of [midi_reader_update] included),
    whenever a source enters the running-status boundary branch of the
    byte state machine -- running status tracked and incoming byte with
    its high bit set -- the frame in progress holds at least one byte,
    so the [len == 0] arm of the parity check is never taken; the same
    holds for the local source of [midi_reader_inject] at each of its
    calls of the byte state machine. *)
Theorem boundary_length_positive :
  (forall r, reachable r ->
     forall i b,
       let src := snd (midi_reader_get_byte (get_source r i)) in
       boundary_branch src b = true ->
       (len (current src) =? 0) = false /\ 1 <= len (current src))
  /\ (forall src, inject_reach src ->
        forall b,
          boundary_branch src b = true ->
          (len (current src) =? 0) = false /\ 1 <= len (current src)).
Proof.
  split.
  - intros r Hr i b src Hb. apply (boundary_branch_nonempty src b); [|exact Hb].
    destruct (get_byte_source (get_source r i)) as (G1 & G2).
    apply (source_inv_ext (get_source r i)); [exact G1|exact G2|].
    apply get_source_inv. apply (reachable_inv r Hr).
  - intros src Hs b Hb. apply (boundary_branch_nonempty src b); [|exact Hb].
    apply inject_reach_inv. exact Hs.
Qed.

Lemma boundary_length_positive_witness :
  let r := snd (fst (midi_reader_update (-1)
                       (fun f => if f =? 3 then [0x90] else [])
                       (add_sources [3] (midi_reader_init MIDIR_NONE None)))) in
  let src := snd (midi_reader_get_byte (get_source r 0)) in
  boundary_branch src 0x80 = true
  /\ (len (current src) =? 0) = false /\ 1 <= len (current src).
Proof.
  intros r src. split; [vm_compute; reflexivity|].
  apply (proj1 boundary_length_positive r
           (reach_update _ (-1) _
              (reach_add_source _ 3 (-1) (reach_init MIDIR_NONE None)))
           0 0x80).
  vm_compute. reflexivity.
Defined.

(** * Further properties of the code *)

(** ** System messages *)

Lemma system_status_facts (s : Z) :
  0xf0 <= s <= 0xff ->
  (Z.land s 0x80 =? 0) = false /\ uchar s = s
  /\ ((s >=? 0x80) && (s <=? 0xef)) = false
  /\ (s = 0xf0 -> nth (Z.to_nat (s - 0x80)) midi_frame_len 0 = -0xf0)
  /\ (s <> 0xf0 -> 1 <= nth (Z.to_nat (s - 0x80)) midi_frame_len 0 <= 3).
Proof.
  intros Hs.
  pose proof (Zrange_forallb
    (fun b => negb (Z.land b 0x80 =? 0) && (uchar b =? b)
              && negb ((b >=? 0x80) && (b <=? 0xef))
              && (if b =? 0xf0
                  then nth (Z.to_nat (b - 0x80)) midi_frame_len 0 =? -0xf0
                  else (1 <=? nth (Z.to_nat (b - 0x80)) midi_frame_len 0)
                       && (nth (Z.to_nat (b - 0x80)) midi_frame_len 0 <=? 3)))
    0xf0 16 ltac:(vm_compute; reflexivity) s ltac:(lia)) as H.
  cbv beta in H. rewrite !andb_true_iff, !negb_true_iff in H.
  destruct H as (((H1 & H2) & H3) & H4).
  split; [exact H1|]. split; [lia|]. split; [exact H3|].
  destruct (s =? 0xf0) eqn:E.
  - split; [intros _; lia|intros Hn; lia].
  - split; [intros He; lia|intros _].
    apply andb_true_iff in H4. lia.
Qed.

Lemma byte_uchar (b : Z) : 0 <= b <= 255 -> uchar b = b.
Proof. intros H. apply uchar_small. lia. Qed.

(** A system status byte opening an empty frame: the frame completes at
    once when the table gives length 1, and waits otherwise. *)
Lemma push_byte_system_first (r : midi_reader_t) (src : midi_reader_source_t)
    (b : Z) :
  running src = 0 -> len (current src) = 0 ->
  (0 < length (data (current src)))%nat ->
  0xf0 <= b <= 0xff ->
  midi_reader_push_byte r src b
  = let src1 := set_current (frame_append b (current src))
                  (set_running 0 src) in
    if nth (Z.to_nat (b - 0x80)) midi_frame_len 0 =? 1
    then midi_frame_process r src1 else (MIDIF_NEXT, r, src1, []).
Proof.
  intros Hrun Hlen Hdata Hb.
  destruct (system_status_facts b Hb) as (Hhi & Hu & Hrg & Hsx & Hfx).
  unfold midi_reader_push_byte.
  destruct (b <? 0) eqn:E1; [lia|].
  destruct (b >? 255) eqn:E2; [lia|].
  rewrite Hu, Hlen, Hrun, Hrg. cbn [Z.eqb negb andb].
  cbn [andb current set_current set_running running frame_append data len].
  rewrite Hlen, zget_zset_eq by (simpl; lia).
  rewrite Hhi. change (uchar (0 + 1)) with 1. cbn [Z.gtb Z.compare Pos.compare Pos.compare_cont andb].
  rewrite andb_false_r. cbn [Z.eqb andb].
  reflexivity.
Qed.

(** A further byte of a system message: a system-exclusive message ends
    on 0xF7, the others at the length of the table. *)
Lemma push_byte_system_next (r : midi_reader_t) (src : midi_reader_source_t)
    (b : Z) :
  running src = 0 -> 1 <= len (current src) < MIDI_FRAME_MAX ->
  length (data (current src)) = Z.to_nat MIDI_FRAME_MAX ->
  0xf0 <= zget (data (current src)) 0 <= 0xff ->
  0 <= b <= 255 ->
  midi_reader_push_byte r src b
  = let src1 := set_current (frame_append b (current src)) src in
    if zget (data (current src)) 0 =? 0xf0 then
      if b =? 0xf7 then midi_frame_process r src1
      else (MIDIF_NEXT, r, src1, [])
    else if nth (Z.to_nat (zget (data (current src)) 0 - 0x80))
                midi_frame_len 0 =? len (current src) + 1
         then midi_frame_process r src1 else (MIDIF_NEXT, r, src1, []).
Proof.
  intros Hrun Hlen Hdat Hd0 Hb. unfold MIDI_FRAME_MAX in Hlen.
  destruct (system_status_facts _ Hd0) as (Hhi & _ & _ & Hsx & Hfx).
  destruct (frame_append_spec b (current src)
              ltac:(unfold MIDI_FRAME_MAX; lia) Hdat) as (A1 & _ & _ & A4).
  unfold midi_reader_push_byte.
  destruct (b <? 0) eqn:E1; [lia|].
  destruct (b >? 255) eqn:E2; [lia|].
  rewrite (byte_uchar b Hb), Hrun.
  destruct (len (current src) =? MIDI_FRAME_MAX) eqn:E3;
    [unfold MIDI_FRAME_MAX in E3; lia|].
  cbn [Z.eqb negb andb].
  destruct (len (current src) =? 0) eqn:E4; [lia|].
  cbv zeta. cbn [current set_current running].
  rewrite A4 by lia. rewrite Hhi, A1, Hrun. cbn [Z.eqb andb].
  destruct (zget (data (current src)) 0 =? 240) eqn:E5.
  - apply Z.eqb_eq in E5. rewrite (Hsx E5). cbn [Z.eqb Pos.eqb andb].
    destruct (len (current src) + 1 >? 1) eqn:E6; [|lia]. reflexivity.
  - apply Z.eqb_neq in E5. specialize (Hfx E5).
    destruct (_ =? -240) eqn:E6; [lia|]. reflexivity.
Qed.

(** Processing a frame that is not a channel-voice message, with no
    skip match and no callback: neither the channel translation nor the
    expansion touches it. *)
Lemma process_system (r : midi_reader_t) (src : midi_reader_source_t) :
  len (current src) <> 0 ->
  skip_match r (zget (data (current src)) 0) = false ->
  callback r = None ->
  0xf0 <= zget (data (current src)) 0 ->
  midi_frame_process r src
  = (MIDIF_COMPLETE,
     store_step (set_total (incr_read (total r)) r) (current src),
     set_current (current src) (set_stats (incr_read (stats src)) src),
     debug_output (flags r) false (current src)
     ++ dump_step r (current src)).
Proof.
  intros Hlen Hskip Hcb Hd0. unfold midi_frame_process.
  destruct (len (current src) =? 0) eqn:E; [lia|].
  unfold skip_match in Hskip.
  cbn [to_skip set_total flags callback channel set_stats current].
  rewrite Hskip, Hcb.
  assert (Ht : channel_translate (channel src) (current src) = current src).
  { unfold channel_translate. destruct (channel src >? 0); [|reflexivity].
    destruct (zget (data (current src)) 0 <=? 239) eqn:E1; [lia|].
    rewrite andb_false_r. reflexivity. }
  rewrite Ht.
  assert (Hx : snd (midi_frame_expand_running (current src)) = current src).
  { unfold midi_frame_expand_running.
    destruct (zget (data (current src)) 0 >? 239) eqn:E1; [|lia].
    rewrite orb_true_r. reflexivity. }
  rewrite Hx. destruct (has_flag (flags r) MIDIR_EXPAND); reflexivity.
Qed.

Lemma feed_sysex_data (r : midi_reader_t) (ds : list Z) :
  forall src : midi_reader_source_t,
  running src = 0 ->
  Forall (fun d => 0 <= d <= 255 /\ d <> 0xf7) ds ->
  1 <= len (current src) ->
  len (current src) + Z.of_nat (length ds) <= MIDI_FRAME_MAX ->
  length (data (current src)) = Z.to_nat MIDI_FRAME_MAX ->
  zget (data (current src)) 0 = 0xf0 ->
  feed r src ds
  = (repeat MIDIF_NEXT (length ds), r,
     set_current (frame_append_all ds (current src)) src, []).
Proof.
  induction ds as [|d ds IH]; intros src Hrun Hds Hlen Hsum Hdat Hd0.
  - simpl. destruct src as [? ? ? ? ? ? [? ?] ? ?]. reflexivity.
  - inversion Hds as [|? ? (Hd & Hne) Hds']; subst. simpl length in Hsum.
    cbn [feed].
    rewrite push_byte_system_next by (try assumption; lia).
    cbv zeta. rewrite Hd0. cbn [Z.eqb Pos.eqb].
    destruct (d =? 247) eqn:E; [lia|].
    destruct (frame_append_spec d (current src) ltac:(lia) Hdat)
      as (H1 & H2 & _ & H4).
    rewrite IH; cbn [current set_current running]; try assumption; try lia.
    reflexivity.
Qed.

(** The frame a system-exclusive message builds on an idle source. *)
Lemma feed_sysex_run (r : midi_reader_t) (src : midi_reader_source_t)
    (ds : list Z) :
  running src = 0 -> len (current src) = 0 ->
  length (data (current src)) = Z.to_nat MIDI_FRAME_MAX ->
  Forall (fun d => 0 <= d <= 255 /\ d <> 0xf7) ds ->
  1 + Z.of_nat (length ds) <= MIDI_FRAME_MAX ->
  let mf := frame_append_all ds (frame_append 0xf0 (current src)) in
  feed r src (0xf0 :: ds)
  = (repeat MIDIF_NEXT (S (length ds)), r,
     set_current mf (set_running 0 src), [])
  /\ len mf = 1 + Z.of_nat (length ds)
  /\ length (data mf) = Z.to_nat MIDI_FRAME_MAX
  /\ frame_bytes mf = 0xf0 :: ds
  /\ zget (data mf) 0 = 0xf0.
Proof.
  intros Hrun Hlen Hdat Hds Hsum mf.
  destruct (frame_append_spec 0xf0 (current src)
              ltac:(unfold MIDI_FRAME_MAX; lia) Hdat) as (A1 & A2 & A3 & _).
  assert (A4 : zget (data (frame_append 0xf0 (current src))) 0 = 0xf0).
  { cbn [frame_append data]. rewrite Hlen. apply zget_zset_eq.
    rewrite Hdat. simpl. lia. }
  destruct (frame_append_all_spec ds (frame_append 0xf0 (current src))
              ltac:(lia) ltac:(lia) A2) as (B1 & B2 & B3 & B4).
  assert (Hnil : frame_bytes (current src) = []).
  { unfold frame_bytes. rewrite Hlen. reflexivity. }
  split; [|split; [|split; [|split]]].
  - cbn [feed].
    rewrite push_byte_system_first
      by (try assumption; try lia; rewrite Hdat; simpl; lia).
    cbv zeta. change (nth (Z.to_nat (240 - 128)) midi_frame_len 0 =? 1) with false.
    cbv iota.
    rewrite feed_sysex_data; cbn [current set_current running set_running];
      try assumption; try lia.
    reflexivity.
  - unfold mf. rewrite B1, A1. lia.
  - exact B2.
  - unfold mf. rewrite B3, A3, Hnil. reflexivity.
  - unfold mf. rewrite B4 by lia. exact A4.
Qed.

(** X1: on a source with no frame in progress, the byte 0xF0, any
    bytes other than 0xF7 (status bytes included) and then 0xF7 give
    MIDIF_NEXT on every byte before the last and MIDIF_COMPLETE on 0xF7,
    provided the whole message fits the 128 bytes of a frame and is
    neither skipped nor vetoed; the frame handed to the dump and store
    steps is the message, untouched by channel translation and
    expansion. *)
Theorem sysex_completes (r : midi_reader_t) (src : midi_reader_source_t)
    (ds : list Z) :
  running src = 0 -> len (current src) = 0 ->
  length (data (current src)) = Z.to_nat MIDI_FRAME_MAX ->
  Forall (fun d => 0 <= d <= 255 /\ d <> 0xf7) ds ->
  2 + Z.of_nat (length ds) <= MIDI_FRAME_MAX ->
  skip_match r 0xf0 = false -> callback r = None ->
  exists mf src',
    feed r src (0xf0 :: ds ++ [0xf7])
    = (repeat MIDIF_NEXT (S (length ds)) ++ [MIDIF_COMPLETE],
       store_step (set_total (incr_read (total r)) r) mf, src',
       debug_output (flags r) false mf ++ dump_step r mf)
    /\ current src' = mf
    /\ len mf = 2 + Z.of_nat (length ds)
    /\ frame_bytes mf = 0xf0 :: ds ++ [0xf7]
    /\ running src' = 0 /\ push_back src' = push_back src.
Proof.
  intros Hrun Hlen Hdat Hds Hsum Hskip Hcb.
  destruct (feed_sysex_run r src ds Hrun Hlen Hdat Hds ltac:(lia))
    as (F & L & D & B & G0).
  set (mf1 := frame_append_all ds (frame_append 0xf0 (current src))) in *.
  set (src1 := set_current mf1 (set_running 0 src)) in *.
  destruct (frame_append_spec 0xf7 mf1 ltac:(lia) D) as (A1 & A2 & A3 & A4).
  exists (frame_append 0xf7 mf1). eexists.
  split; [|split; [|split; [|split; [|split]]]].
  - change (0xf0 :: ds ++ [0xf7]) with ((0xf0 :: ds) ++ [0xf7]).
    rewrite feed_app, F. cbn [feed].
    rewrite (push_byte_system_next r src1 0xf7);
      [| reflexivity
       | cbn [src1 current set_current]; lia
       | exact D
       | cbn [src1 current set_current]; rewrite G0; lia
       | lia ].
    cbv zeta. cbn [src1 current set_current]. rewrite G0.
    cbn [Z.eqb Pos.eqb].
    rewrite process_system;
      [| cbn [current set_current]; lia
       | cbn [current set_current]; rewrite A4 by lia; rewrite G0; exact Hskip
       | exact Hcb
       | cbn [current set_current]; rewrite A4 by lia; rewrite G0; lia ].
    cbn [current set_current]. rewrite app_nil_l, app_nil_r. reflexivity.
  - reflexivity.
  - lia.
  - rewrite A3, B, <- app_comm_cons. reflexivity.
  - reflexivity.
  - reflexivity.
Qed.

Lemma sysex_completes_witness :
  exists mf src',
    feed (midi_reader_init MIDIR_NONE None) fresh_source
         (0xf0 :: [0x7e; 0x00; 0xf8; 0x09] ++ [0xf7])
    = (repeat MIDIF_NEXT 5 ++ [MIDIF_COMPLETE],
       store_step (set_total (incr_read zero_stats)
                     (midi_reader_init MIDIR_NONE None)) mf, src',
       debug_output MIDIR_NONE false mf
       ++ dump_step (midi_reader_init MIDIR_NONE None) mf)
    /\ current src' = mf
    /\ len mf = 2 + 4
    /\ frame_bytes mf = 0xf0 :: [0x7e; 0x00; 0xf8; 0x09] ++ [0xf7]
    /\ running src' = 0 /\ push_back src' = push_back fresh_source.
Proof.
  apply (sysex_completes (midi_reader_init MIDIR_NONE None) fresh_source
           [0x7e; 0x00; 0xf8; 0x09]); try reflexivity.
  - repeat constructor; lia.
  - vm_compute. congruence.
Defined.

(** X2: a system-exclusive message that has filled the 128 bytes of
    the frame without its 0xF7 cannot end: the next byte, 0xF7 included,
    gets MIDIF_ERROR, one error is counted for the source and
    cumulatively, and nothing is queued. *)
Theorem sysex_overflow (r : midi_reader_t) (src : midi_reader_source_t)
    (ds : list Z) (b : Z) :
  running src = 0 -> len (current src) = 0 ->
  length (data (current src)) = Z.to_nat MIDI_FRAME_MAX ->
  Forall (fun d => 0 <= d <= 255 /\ d <> 0xf7) ds ->
  Z.of_nat (length ds) = MIDI_FRAME_MAX - 1 ->
  0 <= b <= 255 ->
  exists src',
    feed r src (0xf0 :: ds ++ [b])
    = (repeat MIDIF_NEXT (Z.to_nat MIDI_FRAME_MAX) ++ [MIDIF_ERROR],
       set_total (incr_errors (total r)) r, src', [])
    /\ len (current src') = MIDI_FRAME_MAX
    /\ frame_bytes (current src') = 0xf0 :: ds
    /\ stats src' = incr_errors (stats src)
    /\ running src' = 0.
Proof.
  intros Hrun Hlen Hdat Hds Hsum Hb. unfold MIDI_FRAME_MAX in Hsum.
  destruct (feed_sysex_run r src ds Hrun Hlen Hdat Hds
              ltac:(unfold MIDI_FRAME_MAX; lia))
    as (F & L & D & B & G0).
  set (mf1 := frame_append_all ds (frame_append 0xf0 (current src))) in *.
  eexists. split; [|split; [|split; [|split]]].
  - change (0xf0 :: ds ++ [b]) with ((0xf0 :: ds) ++ [b]).
    rewrite feed_app, F. cbn [feed].
    unfold midi_reader_push_byte.
    destruct (b <? 0) eqn:E1; [lia|].
    destruct (b >? 255) eqn:E2; [lia|].
    cbn [current set_current].
    destruct (len mf1 =? MIDI_FRAME_MAX) eqn:E3;
      [|unfold MIDI_FRAME_MAX in E3; lia].
    cbn [count_error]. rewrite app_nil_r.
    replace (S (length ds)) with (Z.to_nat MIDI_FRAME_MAX)
      by (unfold MIDI_FRAME_MAX; lia).
    reflexivity.
  - cbn [current set_stats set_running set_current]. unfold MIDI_FRAME_MAX. lia.
  - exact B.
  - reflexivity.
  - reflexivity.
Qed.

Lemma sysex_overflow_witness :
  exists src',
    feed (midi_reader_init MIDIR_NONE None) fresh_source
         (0xf0 :: repeat 0x01 127 ++ [0xf7])
    = (repeat MIDIF_NEXT (Z.to_nat MIDI_FRAME_MAX) ++ [MIDIF_ERROR],
       set_total (incr_errors zero_stats) (midi_reader_init MIDIR_NONE None),
       src', [])
    /\ len (current src') = MIDI_FRAME_MAX
    /\ frame_bytes (current src') = 0xf0 :: repeat 0x01 127
    /\ stats src' = incr_errors (stats fresh_source)
    /\ running src' = 0.
Proof.
  apply (sysex_overflow (midi_reader_init MIDIR_NONE None) fresh_source
           (repeat 0x01 127) 0xf7); try reflexivity.
  - apply Forall_forall. intros x Hx.
    apply list_elem_of_In, repeat_spec in Hx. subst x. lia.
  - lia.
Defined.



(** ** Framing errors *)

(** A status byte arriving during a running status whose frame does not
    hold whole pairs is a framing error. *)
Lemma push_byte_boundary_odd (r : midi_reader_t) (src : midi_reader_source_t)
    (t : Z) :
  running src <> 0 -> 0x80 <= t <= 0xff ->
  len (current src) <> MIDI_FRAME_MAX ->
  Z.rem (len (current src) - 1) 2 <> 0 ->
  midi_reader_push_byte r src t
  = (MIDIF_ERROR, set_total (incr_errors (total r)) r,
     set_stats (incr_errors (stats src))
       (set_running 0 (set_push_back t src)), []).
Proof.
  intros Hrun Ht Hlen Hpar.
  destruct (status_byte_facts t Ht) as (Hhi & Hu).
  unfold midi_reader_push_byte.
  destruct (t <? 0) eqn:E1; [lia|].
  destruct (t >? 255) eqn:E2; [lia|].
  rewrite Hu, Hhi.
  destruct (len (current src) =? MIDI_FRAME_MAX) eqn:E3; [lia|].
  destruct (running src =? 0) eqn:E5; [lia|].
  cbn [negb andb current set_running set_push_back].
  destruct (Z.rem (len (current src) - 1) 2 =? 0) eqn:E6; [lia|].
  rewrite orb_true_r. reflexivity.
Qed.

(** A byte arriving when the frame is full is a framing error, whatever
    the byte. *)
Lemma push_byte_full (r : midi_reader_t) (src : midi_reader_source_t)
    (b : Z) :
  0 <= b <= 255 -> len (current src) = MIDI_FRAME_MAX ->
  midi_reader_push_byte r src b
  = (MIDIF_ERROR, set_total (incr_errors (total r)) r,
     set_stats (incr_errors (stats src)) (set_running 0 src), []).
Proof.
  intros Hb Hlen. unfold midi_reader_push_byte.
  destruct (b <? 0) eqn:E1; [lia|].
  destruct (b >? 255) eqn:E2; [lia|].
  destruct (len (current src) =? MIDI_FRAME_MAX) eqn:E3; [|lia].
  reflexivity.
Qed.

(** X4: a channel-voice status byte followed by an odd number of data
    bytes, up to the 127 a frame can hold after the status -- in
    particular the two bytes of a program change or channel pressure
    message -- is rejected when the next status byte arrives: that byte
    gets MIDIF_ERROR, one error is counted for the source and
    cumulatively, the queue is left alone and the running status is
    cleared.  The status byte is pushed back, except after 127 data
    bytes: the frame is full then, the error is the one of a frame too
    long and the status byte is lost. *)
Theorem odd_run_rejected (r : midi_reader_t) (s t N : Z) (ds : list Z) :
  0x80 <= s <= 0xef -> 0x80 <= t <= 0xff ->
  Forall (fun d => 0 <= d < 0x80) ds ->
  Z.of_nat (length ds) = 2 * N + 1 -> 0 <= N <= 63 ->
  exists src',
    feed r fresh_source (s :: ds ++ [t])
    = (repeat MIDIF_NEXT (S (length ds)) ++ [MIDIF_ERROR],
       set_total (incr_errors (total r)) r, src', [])
    /\ frames (set_total (incr_errors (total r)) r) = frames r
    /\ stats src' = incr_errors zero_stats
    /\ frame_bytes (current src') = s :: ds
    /\ running src' = 0
    /\ push_back src' = if N <=? 62 then t else -1.
Proof.
  intros Hs Ht Hds Hlen HN.
  destruct (feed_voice_run r s ds Hs Hds
              ltac:(unfold MIDI_FRAME_MAX; lia))
    as (F & L & D & B & G0).
  set (mf := frame_append_all ds (frame_append s zero_frame)) in *.
  set (src1 := set_current mf (set_running s fresh_source)) in *.
  change (s :: ds ++ [t]) with ((s :: ds) ++ [t]).
  rewrite feed_app, F. cbn [feed].
  destruct (Z.leb_spec N 62) as [Hsmall|Hbig].
  - eexists. split; [|split; [|split; [|split; [|split]]]].
    + rewrite (push_byte_boundary_odd r src1 t);
        [| cbn [src1 running set_current set_running]; lia
         | exact Ht
         | cbn [src1 current set_current]; unfold MIDI_FRAME_MAX; lia
         | cbn [src1 current set_current]; rewrite L;
           replace (1 + Z.of_nat (length ds) - 1) with (1 + N * 2) by lia;
           rewrite Z.rem_add by lia; discriminate ].
      rewrite app_nil_r. reflexivity.
    + reflexivity.
    + reflexivity.
    + exact B.
    + reflexivity.
    + reflexivity.
  - eexists. split; [|split; [|split; [|split; [|split]]]].
    + rewrite (push_byte_full r src1 t);
        [| lia
         | cbn [src1 current set_current]; unfold MIDI_FRAME_MAX; lia ].
      rewrite app_nil_r. reflexivity.
    + reflexivity.
    + reflexivity.
    + exact B.
    + reflexivity.
    + reflexivity.
Qed.

Lemma odd_run_rejected_witness :
  exists src',
    feed (midi_reader_init MIDIR_NONE None) fresh_source
         (0xc3 :: [0x05] ++ [0x90])
    = (repeat MIDIF_NEXT 2 ++ [MIDIF_ERROR],
       set_total (incr_errors zero_stats) (midi_reader_init MIDIR_NONE None),
       src', [])
    /\ frames (set_total (incr_errors zero_stats)
                 (midi_reader_init MIDIR_NONE None))
       = frames (midi_reader_init MIDIR_NONE None)
    /\ stats src' = incr_errors zero_stats
    /\ frame_bytes (current src') = 0xc3 :: [0x05]
    /\ running src' = 0 /\ push_back src' = 0x90.
Proof.
  apply (odd_run_rejected (midi_reader_init MIDIR_NONE None) 0xc3 0x90 0 [0x05]).
  - lia.
  - lia.
  - repeat constructor; lia.
  - reflexivity.
  - lia.
Defined.

(** A data byte opening an empty frame is a framing error. *)
Lemma push_byte_bad_start (r : midi_reader_t) (src : midi_reader_source_t)
    (d : Z) :
  running src = 0 -> len (current src) = 0 ->
  (0 < length (data (current src)))%nat ->
  0 <= d < 0x80 ->
  midi_reader_push_byte r src d
  = (MIDIF_ERROR, set_total (incr_errors (total r)) r,
     set_stats (incr_errors (stats src))
       (set_running 0
          (set_current (frame_append d (current src)) (set_running 0 src))),
     []).
Proof.
  intros Hrun Hlen Hdata Hd.
  destruct (data_byte_facts d Hd) as (Hlo & Hu).
  unfold midi_reader_push_byte.
  destruct (d <? 0) eqn:E1; [lia|].
  destruct (d >? 255) eqn:E2; [lia|].
  rewrite Hu, Hlen, Hrun. cbn [Z.eqb negb andb].
  destruct (d >=? 128) eqn:E3; [lia|].
  cbn [andb current set_current set_running running frame_append data len].
  rewrite Hlen, zget_zset_eq by lia.
  rewrite Hlo. reflexivity.
Qed.

(** X5: injecting a frame that does not start with a status byte
    consumes nothing: [midi_reader_inject] returns 0, counts one error
    in the cumulative statistics and changes nothing else -- no frame is
    queued, no source is touched, nothing is written. *)
Theorem inject_bad_start (r : midi_reader_t) (mf : midi_frame_t) :
  1 <= len mf -> 0 <= zget (data mf) 0 < 0x80 ->
  midi_reader_inject r mf = (0, set_total (incr_errors (total r)) r, []).
Proof.
  intros Hlen Hd. unfold midi_reader_inject.
  destruct (len mf =? 0) eqn:E; [lia|].
  destruct (Z.to_nat (len mf)) as [|n] eqn:En; [lia|].
  cbn [inject_loop].
  destruct (0 <? len mf) eqn:E1; [|lia].
  rewrite push_byte_bad_start by (try reflexivity; try assumption; simpl; lia).
  reflexivity.
Qed.

Lemma inject_bad_start_witness :
  midi_reader_inject (midi_reader_init MIDIR_NONE None)
                     (frame_of [0x40; 0x90; 0x01])
  = (0, set_total (incr_errors zero_stats) (midi_reader_init MIDIR_NONE None),
     []).
Proof.
  apply (inject_bad_start (midi_reader_init MIDIR_NONE None)
           (frame_of [0x40; 0x90; 0x01])).
  - vm_compute. congruence.
  - vm_compute. split; congruence.
Defined.

(** ** Statistics *)

Lemma store_step_total (r : midi_reader_t) (mf : midi_frame_t) :
  total (store_step r mf) = total r
  \/ total (store_step r mf) = incr_missed (total r).
Proof.
  unfold store_step.
  destruct (_ <? MIDI_READER_FRAMES_MAX); [left|right]; reflexivity.
Qed.

Lemma process_stats_mirrored (r : midi_reader_t) (s : midi_reader_source_t) :
  stats_mirrored r s (midi_frame_process r s).
Proof.
  unfold stats_mirrored, midi_frame_process, res_source, res_reader, res_state.
  destruct (len (current s) =? 0).
  { exists (fun st => st). cbn. auto. }
  cbv zeta.
  destruct (match to_skip (set_total (incr_read (total r)) r) with
            | Some p => skip_scan p (zget (data (current s)) 0)
            | None => false
            end).
  { exists (fun st => incr_skipped (incr_read st)). cbn. auto. }
  destruct (callback (set_total (incr_read (total r)) r)) as [cb|].
  - destruct (cb _ _) as [st mf].
    destruct (len mf =? 0).
    { exists incr_read. cbn. auto. }
    destruct st; cbn [fst snd];
      try (exists (fun st => incr_errors (incr_read st)); cbn; auto 6; fail).
    + exists incr_read. cbn [stats set_current set_stats].
      split; [reflexivity|]. split; [|reflexivity].
      destruct (store_step_total (set_total (incr_read (total r)) r) mf)
        as [H|H]; rewrite H; cbn; auto.
    + exists (fun st => incr_skipped (incr_read st)). cbn. auto.
  - cbn [fst snd]. exists incr_read. cbn [stats set_current set_stats].
    split; [reflexivity|]. split; [|reflexivity].
    match goal with
    | |- context [store_step ?a ?b] =>
        destruct (store_step_total a b) as [H|H]; rewrite H; cbn; auto
    end.
Qed.

(** X6: whatever the byte and the state, a call of
    [midi_reader_push_byte] applies one and the same update of the
    [read], [errors] and [skipped] counters to the source and to the
    cumulative statistics.  The outcome bounds the update without always
    fixing it: MIDIF_COMPLETE goes with one read, MIDIF_SKIPPED with a
    read and a skip, MIDIF_ERROR and MIDIF_IOERROR with one error, alone
    or after a read, MIDIF_NEXT and MIDIF_NODATA with no change, one read,
    or a read and an error.  The [missed] counter of a source never
    changes; the cumulative one is left alone or, on MIDIF_COMPLETE only,
    grows by one. *)
Theorem push_byte_stats_mirrored (r : midi_reader_t)
    (s : midi_reader_source_t) (b : Z) :
  stats_mirrored r s (midi_reader_push_byte r s b)
  /\ missed (stats (res_source (midi_reader_push_byte r s b)))
     = missed (stats s).
Proof.
  assert (H : stats_mirrored r s (midi_reader_push_byte r s b)).
  { unfold midi_reader_push_byte.
    repeat match goal with
           | |- context [midi_frame_process r ?a] =>
               let H := fresh "H" in
               pose proof (process_stats_mirrored r a) as H;
               unfold stats_mirrored in H;
               cbn [stats set_running set_push_back set_current] in H;
               generalize dependent (midi_frame_process r a); intros
           end.
    unfold stats_mirrored.
    break_ifs;
      repeat match goal with
             | H : context [if ?c then _ else _] |- _ => destruct c
             end;
      cbn [stats set_running set_push_back set_current] in *;
      try assumption;
      first [ exists (fun st => st); cbn; auto; fail
            | exists incr_errors; cbn; auto ]. }
  split; [exact H|].
  destruct H as (f & Hs & _ & Hf). rewrite Hs.
  destruct (res_state (midi_reader_push_byte r s b));
    repeat match goal with
           | H : _ \/ _ |- _ => destruct H
           end; subst f; reflexivity.
Qed.

(** ** Channel translation *)

Lemma translate_byte_facts (d c : Z) :
  0x80 <= d <= 0xef -> 1 <= c <= 16 ->
  let d' := uchar (Z.lor (uchar (Z.land d 0xF0)) (c - 1)) in
  d' / 16 = d / 16 /\ d' mod 16 = c - 1 /\ 0x80 <= d' <= 0xef
  /\ uchar (Z.lor (uchar (Z.land d' 0xF0)) (c - 1)) = d'.
Proof.
  intros Hd Hc.
  pose proof (Zrange_forallb
    (fun d =>
       forallb
         (fun c =>
            let d' := uchar (Z.lor (uchar (Z.land d 0xF0)) (c - 1)) in
            (d' / 16 =? d / 16) && (d' mod 16 =? c - 1)
            && (0x80 <=? d') && (d' <=? 0xef)
            && (uchar (Z.lor (uchar (Z.land d' 0xF0)) (c - 1)) =? d'))
         (map (fun k => 1 + Z.of_nat k) (seq 0 16)))
    0x80 112 ltac:(vm_compute; reflexivity) d ltac:(lia)) as H.
  cbv beta in H.
  pose proof (Zrange_forallb _ 1 16 H c ltac:(lia)) as H1.
  cbv beta zeta in H1. rewrite !andb_true_iff in H1.
  destruct H1 as ((((H1 & H2) & H3) & H4) & H5).
  cbv zeta. repeat split; lia.
Qed.

(** X7: with a channel K in 1..16 on the source and a channel-voice
    status byte (0x80-0xEF) at the head of the frame, the channel
    translation of [midi_frame_process] sets the low nibble of that byte
    to K-1 and keeps its high nibble, the length and every other byte;
    translating again changes nothing.  Without a channel, or on a
    frame that starts with another byte, the frame is left as it is. *)
Theorem channel_translate_status (chan : Z) (mf : midi_frame_t) :
  (0 < length (data mf))%nat ->
  (1 <= chan <= 16 -> 0x80 <= zget (data mf) 0 <= 0xef ->
     let mf' := channel_translate chan mf in
     len mf' = len mf
     /\ zget (data mf') 0 / 16 = zget (data mf) 0 / 16
     /\ zget (data mf') 0 mod 16 = chan - 1
     /\ (forall j, 1 <= j -> zget (data mf') j = zget (data mf) j)
     /\ channel_translate chan mf' = mf')
  /\ (chan <= 0 \/ zget (data mf) 0 < 0x80 \/ 0xef < zget (data mf) 0 ->
      channel_translate chan mf = mf).
Proof.
  intros Hdat. split.
  - intros Hc Hd. destruct (translate_byte_facts _ _ Hd Hc) as (T1 & T2 & T3 & T4).
    cbv zeta in T1, T2, T3, T4.
    assert (E : channel_translate chan mf
                = set_data (zset (data mf) 0
                    (uchar (Z.lor (uchar (Z.land (zget (data mf) 0) 0xF0))
                                  (chan - 1)))) mf).
    { unfold channel_translate.
      destruct (chan >? 0) eqn:E1; [|lia].
      destruct (zget (data mf) 0 >=? 128) eqn:E2; [|lia].
      destruct (zget (data mf) 0 <=? 239) eqn:E3; [|lia]. reflexivity. }
    cbv zeta. rewrite E.
    set (d' := uchar (Z.lor (uchar (Z.land (zget (data mf) 0) 0xF0)) (chan - 1))) in *.
    assert (G0 : zget (data (set_data (zset (data mf) 0 d') mf)) 0 = d').
    { cbn [set_data data]. apply zget_zset_eq. simpl. lia. }
    split; [reflexivity|]. rewrite G0.
    split; [exact T1|]. split; [exact T2|]. split.
    + intros j Hj. cbn [set_data data]. apply zget_zset_ne. lia.
    + unfold channel_translate.
      destruct (chan >? 0) eqn:E1; [|lia]. rewrite G0.
      destruct (d' >=? 128) eqn:E2; [|lia].
      destruct (d' <=? 239) eqn:E3; [|lia].
      cbn [andb]. rewrite T4. cbn [set_data data len].
      unfold zset. rewrite list_insert_insert_eq. reflexivity.
  - intros H. unfold channel_translate.
    destruct (chan >? 0) eqn:E1; [|reflexivity].
    destruct (zget (data mf) 0 >=? 128) eqn:E2;
      destruct (zget (data mf) 0 <=? 239) eqn:E3; try reflexivity. lia.
Qed.

Lemma channel_translate_status_witness :
  let mf := frame_of [0x93; 0x3c; 0x64] in
  let mf' := channel_translate 10 mf in
  len mf' = len mf
  /\ zget (data mf') 0 / 16 = zget (data mf) 0 / 16
  /\ zget (data mf') 0 mod 16 = 10 - 1
  /\ (forall j, 1 <= j -> zget (data mf') j = zget (data mf) j)
  /\ channel_translate 10 mf' = mf'.
Proof.
  intros mf.
  apply (proj1 (channel_translate_status 10 mf ltac:(simpl; lia))).
  - lia.
  - vm_compute. split; congruence.
Defined.

(** ** Frames that find the queue full *)

Lemma process_acceptable_events (r : midi_reader_t)
    (s : midi_reader_source_t) :
  acceptable r s = true ->
  midi_frame_process r s
  = (MIDIF_COMPLETE,
     store_step (set_total (incr_read (total r)) r) (delivered_frame r s),
     processed_source r s, accept_events r s).
Proof.
  intros H. unfold acceptable in H.
  apply andb_true_iff in H. destruct H as (H & H3).
  apply andb_true_iff in H. destruct H as (H1 & H2).
  apply negb_true_iff in H1, H2. unfold skip_match in H2.
  unfold midi_frame_process. rewrite H1. cbv zeta.
  cbn [to_skip set_total flags callback user_data channel set_stats current dumpfd].
  rewrite H2.
  unfold accept_events, processed_source, delivered_frame, prepared_frame in *.
  destruct (callback r) as [cb|].
  - apply andb_true_iff in H3. destruct H3 as (H3 & H4).
    apply negb_true_iff in H4.
    destruct (cb _ _) as [st mf]. cbn [fst snd] in *. rewrite H4.
    destruct st; try discriminate.
    rewrite <- app_assoc. reflexivity.
  - reflexivity.
Qed.

(** X8: an acceptable frame that finds the queue full (1024 frames
    stored, some unconsumed) still gets MIDIF_COMPLETE: the queue is
    left as it is and the cumulative [missed] counter takes the frame,
    but the callback has been called on it and the dump sink has
    received it like any stored frame. *)
Theorem process_queue_full (r : midi_reader_t) (s : midi_reader_source_t) :
  acceptable r s = true ->
  q_len (frames r) = MIDI_READER_FRAMES_MAX ->
  q_offset (frames r) <> q_len (frames r) ->
  exists r',
    midi_frame_process r s
    = (MIDIF_COMPLETE, r', processed_source r s, accept_events r s)
    /\ frames r' = frames r
    /\ total r' = incr_missed (incr_read (total r))
    /\ (forall cb, callback r = Some cb ->
          In (EvCallback (prepared_frame r s) (user_data r))
             (accept_events r s))
    /\ (dumpfd r > -1 -> has_flag (flags r) MIDIR_DUMPHEX = false ->
        In (EvWrite (dumpfd r) (frame_bytes (delivered_frame r s)))
           (accept_events r s)).
Proof.
  intros Hacc Hfull Hoff.
  rewrite (process_acceptable_events r s Hacc).
  eexists. split; [reflexivity|].
  unfold store_step. cbn [frames set_total].
  destruct (q_len (frames r) =? q_offset (frames r)) eqn:E; [lia|].
  destruct (q_len (frames r) <? MIDI_READER_FRAMES_MAX) eqn:E1; [lia|].
  split; [reflexivity|]. split; [reflexivity|]. split.
  - intros cb Hcb. unfold accept_events. rewrite Hcb.
    apply in_or_app. right. left. reflexivity.
  - intros Hd Hh. unfold accept_events, dump_step.
    destruct (dumpfd r >? -1) eqn:E2; [|lia]. rewrite Hh.
    apply in_or_app. right. apply in_or_app. right. left. reflexivity.
Qed.

Lemma process_queue_full_witness :
  let r := clogged_reader in
  let s := set_current (frame_of [0xfe]) fresh_source in
  exists r',
    midi_frame_process r s
    = (MIDIF_COMPLETE, r', processed_source r s, accept_events r s)
    /\ frames r' = frames r
    /\ total r' = incr_missed (incr_read (total r))
    /\ (forall cb, callback r = Some cb ->
          In (EvCallback (prepared_frame r s) (user_data r))
             (accept_events r s))
    /\ (dumpfd r > -1 -> has_flag (flags r) MIDIR_DUMPHEX = false ->
        In (EvWrite (dumpfd r) (frame_bytes (delivered_frame r s)))
           (accept_events r s)).
Proof.
  intros r s. apply (process_queue_full r s).
  - reflexivity.
  - reflexivity.
  - vm_compute. congruence.
Defined.

(** ** Bounds kept by the reader *)

Lemma uchar_range (x : Z) : 0 <= uchar x <= 255.
Proof. unfold uchar. pose proof (Z.mod_pos_bound x 256 ltac:(lia)). lia. Qed.

(** [midi_frame_process] touches the frame and the counters of the
    source, nothing else. *)
Lemma process_source_fields (r : midi_reader_t) (s : midi_reader_source_t) :
  let s' := res_source (midi_frame_process r s) in
  fd s' = fd s /\ running s' = running s /\ buf s' = buf s
  /\ buf_len s' = buf_len s /\ buf_offset s' = buf_offset s
  /\ push_back s' = push_back s /\ channel s' = channel s.
Proof.
  unfold midi_frame_process, res_source.
  destruct (len (current s) =? 0); [cbn; repeat split|].
  cbv zeta.
  destruct (match to_skip (set_total (incr_read (total r)) r) with
            | Some p => skip_scan p (zget (data (current s)) 0)
            | None => false
            end); [cbn; repeat split|].
  destruct (callback (set_total (incr_read (total r)) r)) as [cb|].
  - destruct (cb _ _) as [st mf].
    destruct (len mf =? 0); [cbn; repeat split|].
    destruct st; cbn; repeat split.
  - cbn. repeat split.
Qed.

(** A property of sources that the operations on sources keep is kept
    by every slot of the source table of a reachable reader. *)
Section SourceInvariant.

Variable P : midi_reader_source_t -> Prop.

Hypothesis P_zero : P zero_source.
Hypothesis P_reset : forall s c, P (fst (midi_reader_reset_source s c)).
Hypothesis P_fd : forall s f, P s -> P (set_fd f s).
Hypothesis P_channel : forall s c, P s -> P (set_channel c s).
Hypothesis P_stats : forall s t, P s -> P (set_stats t s).
Hypothesis P_read : forall rd s, P s -> P (read_source rd s).
Hypothesis P_get : forall s, P s -> P (snd (midi_reader_get_byte s)).
Hypothesis P_push :
  forall r s b, P s -> P (res_source (midi_reader_push_byte r s b)).
Hypothesis P_frame_reset :
  forall s, P s -> P (set_current (midi_frame_reset (current s)) s).

Lemma get_source_P (r : midi_reader_t) (i : Z) :
  Forall P (sources r) -> P (get_source r i).
Proof using P_zero.
  intros H. unfold get_source.
  destruct (nth_in_or_default (Z.to_nat i) (sources r) zero_source)
    as [Hin| ->]; [|exact P_zero].
  rewrite Forall_forall in H. apply H, list_elem_of_In, Hin.
Qed.

Lemma reset_source_n_P (r : midi_reader_t) (i : Z) (c : bool) :
  Forall P (sources r) ->
  Forall P (sources (fst (midi_reader_reset_source_n r i c))).
Proof using P_reset.
  intros H. unfold midi_reader_reset_source_n.
  destruct ((0 <=? i) && (i <? MIDI_READER_IN_MAX)); [|exact H].
  pose proof (P_reset (get_source r i) c) as Hs.
  destruct (midi_reader_reset_source (get_source r i) c) as [s evs].
  cbn [fst sources set_sources] in *. apply Forall_zset; assumption.
Qed.

Lemma shift_sources_P (n : nat) :
  forall (j : Z) (l : list midi_reader_source_t),
  Forall P l -> Forall P (fst (shift_sources n j l)).
Proof using P_zero.
  induction n as [|n IH]; intros j l H; [exact H|].
  cbn [shift_sources]. destruct (j <? MIDI_READER_IN_MAX); [|exact H].
  apply IH. apply Forall_zset; [exact H|].
  destruct (nth_in_or_default (Z.to_nat j) l zero_source) as [Hin| ->];
    [|exact P_zero].
  rewrite Forall_forall in H. apply H, list_elem_of_In, Hin.
Qed.

Lemma update_visit_P (r : midi_reader_t) (src : Z) :
  Forall P (sources r) -> Forall P (sources (fst (update_visit r src))).
Proof using P_zero P_get P_push P_frame_reset.
  intros H. unfold update_visit.
  pose proof (P_get _ (get_source_P r src H)) as Hs1.
  destruct (midi_reader_get_byte (get_source r src)) as [b s1].
  cbn [snd] in Hs1.
  pose proof (P_push r s1 b Hs1) as Hs2.
  pose proof (push_byte_shape r s1 b) as Hsh.
  destruct (midi_reader_push_byte r s1 b) as [[[st r1] s2] e].
  cbn [res_source res_reader fst snd] in *.
  destruct (shape_config r r1 Hsh) as (_ & C2 & _).
  cbn [sources set_sources]. rewrite C2. apply Forall_zset; [exact H|].
  destruct st; try exact Hs2; apply P_frame_reset; exact Hs2.
Qed.

Lemma update_loop_P (n : nat) :
  forall (src : Z) (r : midi_reader_t),
  Forall P (sources r) -> Forall P (sources (fst (update_loop n src r))).
Proof using P_zero P_get P_push P_frame_reset.
  induction n as [|n IH]; intros src r H; [exact H|].
  cbn [update_loop].
  set (src' := if src >=? nsources r then 0 else src).
  pose proof (update_visit_P r src' H) as H1.
  destruct (update_visit r src') as [r1 e1]. cbn [fst] in H1.
  pose proof (IH (src' + 1) r1 H1) as H2.
  destruct (update_loop n (src' + 1) r1) as [r2 e2]. exact H2.
Qed.

Lemma read_P (rd : Z -> list Z) (r : midi_reader_t) :
  Forall P (sources r) -> Forall P (sources (midi_reader_read rd r)).
Proof using P_zero P_read.
  intros H. unfold midi_reader_read.
  apply (fold_left_inv (fun x => Forall P (sources x))); [|exact H].
  intros a i Ha. cbn [sources set_sources].
  apply Forall_zset; [exact Ha|]. apply P_read, get_source_P, Ha.
Qed.

Lemma update_P (start : Z) (rd : Z -> list Z) (r : midi_reader_t) :
  Forall P (sources r) ->
  Forall P (sources (snd (fst (midi_reader_update start rd r)))).
Proof using P_zero P_read P_get P_push P_frame_reset.
  intros H. unfold midi_reader_update.
  pose proof (read_P rd r H) as H0.
  set (r0 := midi_reader_read rd r) in *.
  set (st := if start + 1 >=? nsources r0 then 0 else start + 1).
  pose proof (update_loop_P (Z.to_nat (nsources r0)) st r0 H0) as H1.
  destruct (update_loop (Z.to_nat (nsources r0)) st r0) as [r1 e1].
  exact H1.
Qed.

Lemma reachable_sources_P (r : midi_reader_t) :
  reachable r -> Forall P (sources r).
Proof using All.
  induction 1 as [fl skip|r f chan _ IH|r f _ IH|r f _ IH|r cb ud _ IH _
                 |r start rd _ IH|r start rd _ IH|r mf _ IH|r _ IH
                 |r n _ IH|r _ IH|r rd _ IH|r src _ IH].
  - unfold midi_reader_init. cbn [sources set_to_skip set_dumpfd].
    apply (fold_left_inv (fun x => Forall P (sources x))).
    + intros a b Ha. apply reset_source_n_P. exact Ha.
    + cbn [sources set_flags]. apply Forall_forall. intros x Hx.
      apply list_elem_of_In, repeat_spec in Hx. subst x. exact P_zero.
  - unfold midi_reader_add_source.
    destruct ((f >? -1) && (nsources r <? MIDI_READER_IN_MAX)); [|exact IH].
    destruct (_ <? nsources r); [exact IH|].
    cbn [snd sources set_sources set_nsources].
    apply Forall_zset; [exact IH|].
    destruct ((chan >=? 1) && (chan <=? 16));
      apply P_channel, P_fd, get_source_P, IH.
  - unfold midi_reader_remove_source.
    destruct ((f <? 0) || (nsources r =? 0)); [exact IH|].
    destruct (_ >=? nsources r); [exact IH|].
    pose proof (reset_source_n_P r
                  (find_fd (sources r) (Z.to_nat (nsources r)) 0 f)
                  true IH) as H1.
    destruct (midi_reader_reset_source_n r _ true) as [r1 e1].
    cbn [fst] in H1.
    pose proof (shift_sources_P (Z.to_nat MIDI_READER_IN_MAX)
                  (find_fd (sources r) (Z.to_nat (nsources r)) 0 f + 1)
                  (sources r1) H1) as H2.
    destruct (shift_sources _ _ (sources r1)) as [l j]. cbn [fst] in H2.
    pose proof (reset_source_n_P (set_sources l r1) j false H2) as H3.
    destruct (midi_reader_reset_source_n (set_sources l r1) j false)
      as [r2 e2].
    exact H3.
  - unfold midi_reader_set_dump_fd. destruct (f >? -1); exact IH.
  - exact IH.
  - apply update_P. exact IH.
  - unfold midi_reader_get_next.
    pose proof (update_P start rd r IH) as H1.
    destruct (midi_reader_update start rd r) as [[[ok st] r1] e1].
    cbn [fst snd] in H1. destruct ok; exact H1.
  - pose proof (inject_loop_config mf (Z.to_nat (len mf)) 0 r inject_source)
      as (C1 & _).
    unfold midi_reader_inject.
    destruct (len mf =? 0); [exact IH|].
    destruct (inject_loop (Z.to_nat (len mf)) 0 mf r inject_source)
      as [[[[ret i] r1] s1] e1].
    cbn [fst snd] in C1.
    destruct ret as [v|]; [cbn; rewrite C1; exact IH|].
    destruct (negb (running s1 =? 0)); [|cbn; rewrite C1; exact IH].
    pose proof (push_byte_shape r1 s1 254) as Hsh.
    destruct (midi_reader_push_byte r1 s1 254) as [[[st r2] s2] e2].
    cbn [res_reader fst snd] in *.
    destruct (shape_config r1 r2 Hsh) as (_ & D2 & _).
    rewrite D2, C1. exact IH.
  - unfold midi_reader_clear_queue.
    destruct (q_len (frames r) >? 0); exact IH.
  - unfold midi_reader_reset_stats.
    destruct ((n <? -1) || (n >=? nsources r)); [exact IH|].
    destruct (n =? -1); [exact IH|].
    cbn [sources set_sources]. apply Forall_zset; [exact IH|].
    apply P_stats, get_source_P, IH.
  - unfold midi_reader_close.
    destruct (nsources r =? 0); [exact IH|].
    assert (Hc : Forall P (sources (fst (close_sources r)))).
    { unfold close_sources.
      apply (fold_left_inv (fun x => Forall P (sources (fst x)))); [|exact IH].
      intros [a ev] i Ha. cbn [fst] in Ha.
      pose proof (reset_source_n_P a (Z.of_nat i) true Ha) as Hn.
      destruct (midi_reader_reset_source_n a (Z.of_nat i) true). exact Hn. }
    destruct (close_sources r) as [r1 e1]. cbn [fst] in Hc.
    destruct (dumpfd r1 >? -1); exact Hc.
  - apply read_P. exact IH.
  - apply update_visit_P. exact IH.
Qed.

End SourceInvariant.

(** [midi_reader_push_byte] leaves the input buffer of the source
    alone; the push-back byte and the running status it may set are
    bytes. *)
Lemma push_byte_source_fields (r : midi_reader_t) (s : midi_reader_source_t)
    (b : Z) :
  let s' := res_source (midi_reader_push_byte r s b) in
  fd s' = fd s /\ buf s' = buf s /\ buf_len s' = buf_len s
  /\ buf_offset s' = buf_offset s /\ channel s' = channel s
  /\ (push_back s' = push_back s \/ push_back s' = uchar b)
  /\ (running s' = running s \/ running s' = 0 \/ running s' = uchar b).
Proof.
  unfold midi_reader_push_byte.
  repeat match goal with
         | |- context [midi_frame_process ?a ?b] =>
             let H := fresh "H" in
             pose proof (process_source_fields a b) as H;
             generalize dependent (midi_frame_process a b); intros
         end.
  unfold count_error, res_source in *. cbv zeta in *.
  break_ifs;
    repeat match goal with
           | H : context [if ?c then _ else _] |- _ => destruct c
           end;
    cbn [fst snd] in *;
    repeat match goal with
           | H : _ /\ _ |- _ => destruct H
           end;
    cbn [fd buf buf_len buf_offset channel push_back running
         set_running set_push_back set_current set_stats] in *;
    repeat split; try congruence; auto.
Qed.

Lemma source_bounds_zero : source_bounds zero_source.
Proof.
  unfold source_bounds, zero_source, MIDI_READER_BUF_MAX. cbn [buf buf_len buf_offset push_back running].
  rewrite repeat_length. repeat split; try lia.
  apply Forall_forall. intros x Hx.
  apply list_elem_of_In, repeat_spec in Hx. lia.
Qed.

Lemma source_bounds_reset (s : midi_reader_source_t) (c : bool) :
  source_bounds (fst (midi_reader_reset_source s c)).
Proof.
  pose proof source_bounds_zero as H.
  unfold source_bounds in *. unfold midi_reader_reset_source.
  destruct c; cbn [fst buf buf_len buf_offset push_back running
                   set_fd set_push_back set_channel] in *;
    repeat split; try apply H; lia.
Qed.

Lemma source_bounds_read (rd : Z -> list Z) (s : midi_reader_source_t) :
  source_bounds s -> source_bounds (read_source rd s).
Proof.
  intros Hs. unfold read_source.
  destruct (push_back s >? -1); [exact Hs|].
  set (s0 := if buf_offset s >=? buf_len s
             then set_buf_offset 0 (set_buf_len 0 s) else s).
  assert (H0 : source_bounds s0).
  { subst s0. destruct (buf_offset s >=? buf_len s); [|exact Hs].
    unfold source_bounds in *.
    cbn [buf buf_len buf_offset push_back running set_buf_offset set_buf_len].
    unfold MIDI_READER_BUF_MAX in *. repeat split; try apply Hs; lia. }
  clearbody s0. clear Hs s.
  destruct (Z.geb_spec (buf_len s0) MIDI_READER_BUF_MAX) as [_|Hlt];
    [exact H0|].
  cbv zeta.
  set (got := map uchar (take (Z.to_nat (MIDI_READER_BUF_MAX - buf_len s0))
                              (rd (fd s0)))).
  destruct (Z.of_nat (length got) >? 0); [|exact H0].
  assert (Hgot : (length got <= Z.to_nat (MIDI_READER_BUF_MAX - buf_len s0))%nat).
  { subst got. rewrite length_map, length_take. lia. }
  assert (Hbytes : Forall (fun b => 0 <= b <= 255) got).
  { subst got. apply Forall_forall. intros x Hx.
    apply list_elem_of_In, in_map_iff in Hx. destruct Hx as (y & <- & _).
    apply uchar_range. }
  clearbody got.
  destruct H0 as (B1 & B2 & B3 & B4 & B5 & B6).
  unfold source_bounds.
  cbn [buf buf_len buf_offset push_back running set_buf set_buf_len].
  unfold MIDI_READER_BUF_MAX in *.
  repeat split; try lia.
  - rewrite !length_app, length_take, length_drop. lia.
  - repeat apply Forall_app_2; [apply Forall_take|exact Hbytes|apply Forall_drop];
      exact B6.
Qed.

Lemma get_byte_range (s : midi_reader_source_t) :
  source_bounds s -> -1 <= fst (midi_reader_get_byte s) <= 255.
Proof.
  intros (B1 & B2 & B3 & B4 & B5 & B6). unfold midi_reader_get_byte.
  destruct (Z.gtb_spec (push_back s) (-1)); [cbn; lia|].
  destruct ((buf_len s >? 0) && (buf_offset s <? buf_len s)); [|cbn; lia].
  cbn [fst]. unfold zget.
  destruct (nth_in_or_default (Z.to_nat (buf_offset s)) (buf s) 0)
    as [Hin|Hd]; [|rewrite Hd; lia].
  rewrite Forall_forall in B6. specialize (B6 _ (proj2 (list_elem_of_In _ _) Hin)).
  lia.
Qed.

Lemma source_bounds_get (s : midi_reader_source_t) :
  source_bounds s -> source_bounds (snd (midi_reader_get_byte s)).
Proof.
  intros (B1 & B2 & B3 & B4 & B5 & B6).
  unfold midi_reader_get_byte, source_bounds.
  destruct (push_back s >? -1).
  - cbn [snd buf buf_len buf_offset push_back running set_push_back].
    repeat split; try assumption; lia.
  - destruct (buf_len s >? 0); cbn [andb].
    + destruct (Z.ltb_spec (buf_offset s) (buf_len s));
        cbn [snd buf buf_len buf_offset push_back running set_buf_offset];
        repeat split; try assumption; lia.
    + cbn [snd]. repeat split; try assumption; lia.
Qed.

Lemma source_bounds_push (r : midi_reader_t) (s : midi_reader_source_t)
    (b : Z) :
  source_bounds s -> source_bounds (res_source (midi_reader_push_byte r s b)).
Proof.
  intros (B1 & B2 & B3 & B4 & B5 & B6).
  destruct (push_byte_source_fields r s b) as (_ & F1 & F2 & F3 & _ & F4 & F5).
  pose proof (uchar_range b) as Hb.
  unfold source_bounds. rewrite F1, F2, F3.
  repeat split; try assumption; try lia.
Qed.

Lemma reachable_source_bounds (r : midi_reader_t) :
  reachable r -> Forall source_bounds (sources r).
Proof.
  apply reachable_sources_P.
  - exact source_bounds_zero.
  - exact source_bounds_reset.
  - intros s f H; exact H.
  - intros s c H; exact H.
  - intros s t H; exact H.
  - exact source_bounds_read.
  - exact source_bounds_get.
  - exact source_bounds_push.
  - intros s H; exact H.
Qed.

Lemma store_step_wf (r : midi_reader_t) (mf : midi_frame_t) :
  reader_wf r -> reader_wf (store_step r mf).
Proof.
  unfold reader_wf, store_step. intros (A & B & C & D & E).
  destruct (Z.eqb_spec (q_len (frames r)) (q_offset (frames r)));
    cbn [q_len q_offset q_frames];
    match goal with |- context [if ?b <? ?c then _ else _] =>
      destruct (Z.ltb_spec b c) end;
    cbn [sources nsources frames set_frames set_total q_len q_offset q_frames];
    rewrite ?length_zset; unfold MIDI_READER_FRAMES_MAX in *;
    repeat split; try assumption; lia.
Qed.

Lemma shape_wf (r r' : midi_reader_t) :
  reader_shape r r' -> reader_wf r -> reader_wf r'.
Proof.
  intros [|t|t mf] H; [exact H|exact H|].
  apply store_step_wf. exact H.
Qed.

Lemma reader_wf_sources (r : midi_reader_t) (l : list midi_reader_source_t) :
  reader_wf r -> length l = length (sources r) -> reader_wf (set_sources l r).
Proof.
  unfold reader_wf. intros (A & B & C & D & E) Hl.
  cbn [sources nsources frames set_sources].
  rewrite Hl. repeat split; try assumption; lia.
Qed.

Lemma reset_source_n_wf (r : midi_reader_t) (i : Z) (c : bool) :
  reader_wf r -> reader_wf (fst (midi_reader_reset_source_n r i c)).
Proof.
  intros H. unfold midi_reader_reset_source_n.
  destruct ((0 <=? i) && (i <? MIDI_READER_IN_MAX)); [|exact H].
  destruct (midi_reader_reset_source (get_source r i) c) as [s evs].
  cbn [fst]. apply reader_wf_sources; [exact H|apply length_zset].
Qed.

Lemma length_shift_sources (n : nat) :
  forall (j : Z) (l : list midi_reader_source_t),
  length (fst (shift_sources n j l)) = length l.
Proof.
  induction n as [|n IH]; intros j l; [reflexivity|].
  cbn [shift_sources]. destruct (j <? MIDI_READER_IN_MAX); [|reflexivity].
  rewrite IH. apply length_zset.
Qed.

Lemma update_visit_wf (r : midi_reader_t) (src : Z) :
  reader_wf r -> reader_wf (fst (update_visit r src)).
Proof.
  intros H. unfold update_visit.
  destruct (midi_reader_get_byte (get_source r src)) as [b s1].
  pose proof (push_byte_shape r s1 b) as Hsh.
  destruct (midi_reader_push_byte r s1 b) as [[[st r1] s2] e].
  cbn [res_reader fst snd] in *.
  apply reader_wf_sources; [|apply length_zset].
  exact (shape_wf r r1 Hsh H).
Qed.

Lemma update_loop_wf (n : nat) :
  forall (src : Z) (r : midi_reader_t),
  reader_wf r -> reader_wf (fst (update_loop n src r)).
Proof.
  induction n as [|n IH]; intros src r H; [exact H|].
  cbn [update_loop].
  set (src' := if src >=? nsources r then 0 else src).
  pose proof (update_visit_wf r src' H) as H1.
  destruct (update_visit r src') as [r1 e1]. cbn [fst] in H1.
  pose proof (IH (src' + 1) r1 H1) as H2.
  destruct (update_loop n (src' + 1) r1) as [r2 e2]. exact H2.
Qed.

Lemma read_wf (rd : Z -> list Z) (r : midi_reader_t) :
  reader_wf r -> reader_wf (midi_reader_read rd r).
Proof.
  intros H. unfold midi_reader_read.
  apply (fold_left_inv reader_wf); [|exact H].
  intros a i Ha. apply reader_wf_sources; [exact Ha|apply length_zset].
Qed.

Lemma update_wf (start : Z) (rd : Z -> list Z) (r : midi_reader_t) :
  reader_wf r -> reader_wf (snd (fst (midi_reader_update start rd r))).
Proof.
  intros H. unfold midi_reader_update.
  pose proof (read_wf rd r H) as H0.
  set (r0 := midi_reader_read rd r) in *.
  set (st := if start + 1 >=? nsources r0 then 0 else start + 1).
  pose proof (update_loop_wf (Z.to_nat (nsources r0)) st r0 H0) as H1.
  destruct (update_loop (Z.to_nat (nsources r0)) st r0) as [r1 e1].
  exact H1.
Qed.

Lemma inject_loop_wf (mf : midi_frame_t) (n : nat) :
  forall (i : Z) (r : midi_reader_t) (src : midi_reader_source_t),
  reader_wf r -> reader_wf (snd (fst (fst (inject_loop n i mf r src)))).
Proof.
  induction n as [|n IH]; intros i r src H; [exact H|].
  cbn [inject_loop]. destruct (i <? len mf); [|exact H].
  pose proof (push_byte_shape r src (zget (data mf) i)) as Hsh.
  destruct (midi_reader_push_byte r src (zget (data mf) i))
    as [[[st r1] s1] e1].
  cbn [res_reader fst snd] in Hsh.
  pose proof (shape_wf r r1 Hsh H) as H1.
  specialize (IH (i + 1) r1 s1 H1).
  destruct (inject_loop n (i + 1) mf r1 s1) as [[[[ret i'] r2] s2] e2].
  cbn [fst snd] in IH.
  destruct st; cbn [fst snd]; assumption.
Qed.

Lemma reachable_wf (r : midi_reader_t) : reachable r -> reader_wf r.
Proof.
  induction 1 as [fl skip|r f chan _ IH|r f _ IH|r f _ IH|r cb ud _ IH _
                 |r start rd _ IH|r start rd _ IH|r mf _ IH|r _ IH
                 |r n _ IH|r _ IH|r rd _ IH|r src _ IH].
  - unfold midi_reader_init.
    assert (H : reader_wf
              (fold_left
                 (fun rd i =>
                    fst (midi_reader_reset_source_n rd (Z.of_nat i) false))
                 (seq 0 (Z.to_nat MIDI_READER_IN_MAX))
                 (set_flags fl
                    (mk_reader 0 (repeat zero_source (Z.to_nat MIDI_READER_IN_MAX))
                               0 0 zero_frames None None 0 zero_stats)))).
    { apply (fold_left_inv reader_wf).
      - intros a b Ha. apply reset_source_n_wf. exact Ha.
      - unfold reader_wf, zero_frames, MIDI_READER_IN_MAX,
          MIDI_READER_FRAMES_MAX.
        cbn [sources nsources frames set_flags q_len q_offset q_frames].
        rewrite !repeat_length. repeat split; lia. }
    exact H.
  - unfold midi_reader_add_source.
    destruct (f >? -1); cbn [andb]; [|exact IH].
    destruct (Z.ltb_spec (nsources r) MIDI_READER_IN_MAX); [|exact IH].
    destruct (_ <? nsources r); [exact IH|].
    cbn [snd]. unfold reader_wf in *.
    cbn [sources nsources frames set_sources set_nsources].
    rewrite length_zset. destruct IH as (A & B & C & D & E).
    repeat split; try assumption; lia.
  - unfold midi_reader_remove_source.
    destruct ((f <? 0) || (nsources r =? 0)); [exact IH|].
    pose proof (find_fd_bounds (sources r) (Z.to_nat (nsources r)) 0 f) as Hb.
    destruct (Z.geb_spec (find_fd (sources r) (Z.to_nat (nsources r)) 0 f)
                         (nsources r)) as [|Hlt]; [exact IH|].
    pose proof (reset_source_n_wf r
                  (find_fd (sources r) (Z.to_nat (nsources r)) 0 f)
                  true IH) as H1.
    assert (Hn1 : nsources (fst (midi_reader_reset_source_n r
                    (find_fd (sources r) (Z.to_nat (nsources r)) 0 f) true))
                  = nsources r).
    { unfold midi_reader_reset_source_n.
      destruct ((0 <=? _) && (_ <? MIDI_READER_IN_MAX)); [|reflexivity].
      destruct (midi_reader_reset_source _ true). reflexivity. }
    destruct (midi_reader_reset_source_n r _ true) as [r1 e1].
    cbn [fst] in H1, Hn1.
    pose proof (length_shift_sources (Z.to_nat MIDI_READER_IN_MAX)
                  (find_fd (sources r) (Z.to_nat (nsources r)) 0 f + 1)
                  (sources r1)) as H2.
    destruct (shift_sources _ _ (sources r1)) as [l j]. cbn [fst] in H2.
    pose proof (reset_source_n_wf (set_sources l r1) j false
                  (reader_wf_sources r1 l H1 H2)) as H3.
    assert (Hn3 : nsources (fst (midi_reader_reset_source_n
                                   (set_sources l r1) j false))
                  = nsources r1).
    { unfold midi_reader_reset_source_n.
      destruct ((0 <=? _) && (_ <? MIDI_READER_IN_MAX)); [|reflexivity].
      destruct (midi_reader_reset_source _ false). reflexivity. }
    destruct (midi_reader_reset_source_n (set_sources l r1) j false)
      as [r2 e2].
    cbn [fst snd] in *. unfold reader_wf in *.
    cbn [sources nsources frames set_nsources].
    destruct H3 as (A & B & C & D & E).
    repeat split; try assumption; lia.
  - unfold midi_reader_set_dump_fd. destruct (f >? -1); exact IH.
  - exact IH.
  - apply update_wf. exact IH.
  - unfold midi_reader_get_next.
    pose proof (update_wf start rd r IH) as H1.
    unfold midi_reader_update in *.
    destruct (update_loop _ _ _) as [r1 e1]. cbn [fst snd] in H1.
    destruct (q_len (frames r1) >? 0); cbn [andb]; [|exact H1].
    destruct (Z.ltb_spec (q_offset (frames r1)) (q_len (frames r1)));
      [|exact H1].
    cbn [fst snd]. unfold reader_wf in *.
    cbn [sources nsources frames set_frames q_len q_offset q_frames].
    destruct H1 as (A & B & C & D & E).
    repeat split; try assumption; lia.
  - pose proof (inject_loop_wf mf (Z.to_nat (len mf)) 0 r inject_source IH)
      as H1.
    unfold midi_reader_inject.
    destruct (len mf =? 0); [exact IH|].
    destruct (inject_loop (Z.to_nat (len mf)) 0 mf r inject_source)
      as [[[[ret i] r1] s1] e1].
    cbn [fst snd] in H1.
    destruct ret as [v|]; [exact H1|].
    destruct (negb (running s1 =? 0)); [|exact H1].
    pose proof (push_byte_shape r1 s1 254) as Hsh.
    destruct (midi_reader_push_byte r1 s1 254) as [[[st r2] s2] e2].
    cbn [res_reader fst snd] in *.
    exact (shape_wf r1 r2 Hsh H1).
  - unfold midi_reader_clear_queue.
    destruct (q_len (frames r) >? 0); [|exact IH].
    unfold reader_wf, zero_frames, MIDI_READER_FRAMES_MAX in *.
    cbn [sources nsources frames set_frames q_len q_offset q_frames].
    rewrite repeat_length. destruct IH as (A & B & _).
    repeat split; try assumption; lia.
  - unfold midi_reader_reset_stats.
    destruct ((n <? -1) || (n >=? nsources r)); [exact IH|].
    destruct (n =? -1); [exact IH|].
    apply reader_wf_sources; [exact IH|apply length_zset].
  - unfold midi_reader_close.
    destruct (nsources r =? 0); [exact IH|].
    assert (Hc : reader_wf (fst (close_sources r))).
    { unfold close_sources.
      apply (fold_left_inv (fun x => reader_wf (fst x))); [|exact IH].
      intros [a ev] i Ha. cbn [fst] in Ha.
      pose proof (reset_source_n_wf a (Z.of_nat i) true Ha) as Hn.
      destruct (midi_reader_reset_source_n a (Z.of_nat i) true). exact Hn. }
    destruct (close_sources r) as [r1 e1]. cbn [fst] in Hc.
    destruct (dumpfd r1 >? -1); exact Hc.
  - apply read_wf. exact IH.
  - apply update_visit_wf. exact IH.
Qed.

(** X9.  Memory safety of the reader state: in every state reached from
    [midi_reader_init] by the public operations (callbacks keeping the
    frame they are handed within its array), the source table and the
    frame queue have their declared sizes, [nsources] is within the
    table, the queue's read offset is between 0 and its length, which is
    at most MIDI_READER_FRAMES_MAX; in every slot of the source table the
    input buffer has MIDI_READER_BUF_MAX bytes, its read offset is between
    0 and its fill length, which is at most MIDI_READER_BUF_MAX, the
    push-back value is -1 or a byte, and the frame in progress has at
    most MIDI_FRAME_MAX bytes. *)
Theorem reachable_bounds (r : midi_reader_t) :
  reachable r -> reader_bounds r.
Proof.
  intros H. split; [|split].
  - apply reachable_wf, H.
  - apply reachable_source_bounds, H.
  - destruct (reachable_inv r H) as (Hs & _).
    eapply Forall_impl; [exact Hs|]. intros s (Hf & _). exact Hf.
Qed.

Lemma reachable_bounds_witness :
  reader_bounds
    (snd (fst (midi_reader_update 0 (fun _ => [0x90; 60; 100; 0x80])
                 (snd (midi_reader_add_source
                         (midi_reader_init MIDIR_EXPAND None) 3 1))))).
Proof.
  apply reachable_bounds.
  apply reach_update, reach_add_source, reach_init.
Defined.

(** X10.  The bytes [midi_reader_update] takes from a source of a
    reachable reader and hands to [midi_reader_push_byte] are -1 (no
    data) or a byte: the [dat > 0xFF] exit of [midi_reader_push_byte] is
    never taken from there, and without a callback the outcome is never
    MIDIF_IOERROR. *)
Theorem update_no_ioerror (r : midi_reader_t) (i : Z) :
  reachable r ->
  let b := fst (midi_reader_get_byte (get_source r i)) in
  let s := snd (midi_reader_get_byte (get_source r i)) in
  -1 <= b <= 255
  /\ (callback r = None ->
      res_state (midi_reader_push_byte r s b) <> MIDIF_IOERROR).
Proof.
  intros H b s.
  assert (Hb : -1 <= b <= 255).
  { apply get_byte_range. apply get_source_P; [exact source_bounds_zero|].
    apply reachable_source_bounds, H. }
  split; [exact Hb|]. intros Hcb.
  generalize dependent b. intros b Hb. clear H.
  unfold midi_reader_push_byte, count_error, midi_frame_process, res_state.
  cbv zeta. cbn [callback set_total]. rewrite Hcb.
  destruct (Z.gtb_spec b 255); [lia|].
  break_ifs; cbn [fst snd]; congruence.
Qed.

Lemma update_no_ioerror_witness :
  let r := midi_reader_read (fun _ => [0x90; 60; 100])
             (snd (midi_reader_add_source
                     (midi_reader_init MIDIR_NONE None) 3 1)) in
  let b := fst (midi_reader_get_byte (get_source r 0)) in
  let s := snd (midi_reader_get_byte (get_source r 0)) in
  -1 <= b <= 255
  /\ (callback r = None ->
      res_state (midi_reader_push_byte r s b) <> MIDIF_IOERROR).
Proof.
  apply (update_no_ioerror
           (midi_reader_read (fun _ => [0x90; 60; 100])
              (snd (midi_reader_add_source
                      (midi_reader_init MIDIR_NONE None) 3 1)))).
  apply reach_read, reach_add_source, reach_init.
Defined.

(** ** The polling order of [midi_reader_update] *)

Lemma update_visit_nsources (r : midi_reader_t) (src : Z) :
  nsources (fst (update_visit r src)) = nsources r.
Proof.
  unfold update_visit.
  destruct (midi_reader_get_byte (get_source r src)) as [b s1].
  pose proof (push_byte_shape r s1 b) as Hsh.
  destruct (midi_reader_push_byte r s1 b) as [[[st r1] s2] e].
  cbn [res_reader fst snd] in *.
  destruct (shape_config r r1 Hsh) as (_ & _ & C3 & _). exact C3.
Qed.

Lemma read_nsources (rd : Z -> list Z) (r : midi_reader_t) :
  nsources (midi_reader_read rd r) = nsources r.
Proof.
  unfold midi_reader_read.
  apply (fold_left_inv (fun x => nsources x = nsources r)); [|reflexivity].
  intros a i Ha. exact Ha.
Qed.

Lemma update_loop_visits (m : nat) :
  forall (src : Z) (r : midi_reader_t),
  0 < nsources r -> 0 <= src <= nsources r ->
  update_loop m src r
  = visit_all (map (fun k => (src + Z.of_nat k) mod nsources r) (seq 0 m)) r.
Proof.
  induction m as [|m IH]; intros src r Hn Hsrc; [reflexivity|].
  cbn [update_loop seq map visit_all].
  assert (Hw : (if src >=? nsources r then 0 else src)
               = (src + Z.of_nat 0) mod nsources r).
  { rewrite Z.add_0_r. destruct (Z.geb_spec src (nsources r)).
    - replace src with (nsources r) by lia. rewrite Z.mod_same; lia.
    - rewrite Z.mod_small; lia. }
  rewrite Hw.
  pose proof (Z.mod_pos_bound (src + Z.of_nat 0) (nsources r) Hn) as Hb.
  set (src' := (src + Z.of_nat 0) mod nsources r) in *.
  pose proof (update_visit_nsources r src') as Hn1.
  destruct (update_visit r src') as [r1 e1]. cbn [fst] in Hn1.
  rewrite (IH (src' + 1) r1) by lia.
  rewrite Hn1, <- seq_shift, map_map.
  assert (Hm : map (fun k => (src' + 1 + Z.of_nat k) mod nsources r) (seq 0 m)
               = map (fun x => (src + Z.of_nat (S x)) mod nsources r) (seq 0 m)).
  { apply map_ext. intros k. subst src'.
    rewrite <- Z.add_assoc, Z.add_mod_idemp_l by lia.
    f_equal. lia. }
  rewrite Hm. reflexivity.
Qed.

Lemma cyclic_order_NoDup (n start : Z) : NoDup (cyclic_order n start).
Proof.
  unfold cyclic_order.
  apply (NoDup_fmap_2_strong (fun k => (start + Z.of_nat k) mod n)).
  - intros x y Hx Hy Heq.
    apply list_elem_of_In, in_seq in Hx. apply list_elem_of_In, in_seq in Hy.
    assert (Hn : 0 < n) by lia.
    pose proof (Z.div_mod (start + Z.of_nat x) n ltac:(lia)) as Dx.
    pose proof (Z.div_mod (start + Z.of_nat y) n ltac:(lia)) as Dy.
    rewrite Heq in Dx.
    assert (Hq : (start + Z.of_nat x) / n = (start + Z.of_nat y) / n) by nia.
    rewrite Hq in Dx. lia.
  - apply NoDup_ListNoDup, seq_NoDup.
Qed.

Lemma cyclic_order_In (n start i : Z) :
  In i (cyclic_order n start) <-> 0 <= i < n.
Proof.
  unfold cyclic_order. rewrite in_map_iff. split.
  - intros (k & <- & Hk). apply in_seq in Hk.
    apply Z.mod_pos_bound. lia.
  - intros Hi. exists (Z.to_nat ((i - start) mod n)).
    pose proof (Z.mod_pos_bound (i - start) n ltac:(lia)) as Hb.
    split; [|apply in_seq; lia].
    rewrite Z2Nat.id by lia.
    rewrite Z.add_mod_idemp_r by lia.
    replace (start + (i - start)) with i by lia.
    apply Z.mod_small. exact Hi.
Qed.

(** X11.  The round robin of [midi_reader_update]: after the read pass
    the loop body runs once for every registered source and for no
    other index, in cyclic order from the position that follows the
    [start] of the previous call (0 when that is past the last source);
    that position is the new [start]. *)
Theorem update_round_robin (start : Z) (rd : Z -> list Z)
    (r : midi_reader_t) :
  -1 <= start -> 0 < nsources r ->
  let st := if start + 1 >=? nsources r then 0 else start + 1 in
  let order := cyclic_order (nsources r) st in
  let r' := fst (visit_all order (midi_reader_read rd r)) in
  midi_reader_update start rd r
  = ((q_len (frames r') >? 0) && (q_offset (frames r') <? q_len (frames r')),
     st, r', snd (visit_all order (midi_reader_read rd r)))
  /\ 0 <= st < nsources r
  /\ NoDup order
  /\ (forall i, In i order <-> 0 <= i < nsources r).
Proof.
  intros Hs Hn st order r'.
  assert (Hst : 0 <= st < nsources r).
  { subst st. destruct (Z.geb_spec (start + 1) (nsources r)); lia. }
  split; [|split; [exact Hst|split]].
  - unfold midi_reader_update. rewrite read_nsources. fold st.
    rewrite update_loop_visits by (rewrite read_nsources; lia).
    rewrite read_nsources. fold (cyclic_order (nsources r) st). fold order.
    subst r'. destruct (visit_all order (midi_reader_read rd r)) as [r1 e1].
    reflexivity.
  - apply cyclic_order_NoDup.
  - intros i. apply cyclic_order_In.
Qed.

Lemma update_round_robin_witness :
  let r := add_sources [3; 4; 5] (midi_reader_init MIDIR_NONE None) in
  let rd := fun f : Z => [0xf8 + f] in
  let order := cyclic_order (nsources r) 2 in
  let r' := fst (visit_all order (midi_reader_read rd r)) in
  midi_reader_update 1 rd r
  = ((q_len (frames r') >? 0) && (q_offset (frames r') <? q_len (frames r')),
     2, r', snd (visit_all order (midi_reader_read rd r)))
  /\ 0 <= 2 < nsources r
  /\ NoDup order
  /\ (forall i, In i order <-> 0 <= i < nsources r).
Proof.
  apply (update_round_robin 1 (fun f : Z => [0xf8 + f])
           (add_sources [3; 4; 5] (midi_reader_init MIDIR_NONE None)));
    [lia|vm_compute; reflexivity].
Defined.

(** ** The byte stream of a source *)

Lemma get_byte_pending (s : midi_reader_source_t) :
  source_bounds s ->
  match pending_bytes s with
  | [] => midi_reader_get_byte s = (-1, s)
  | b :: l =>
      fst (midi_reader_get_byte s) = b
      /\ pending_bytes (snd (midi_reader_get_byte s)) = l
  end.
Proof.
  intros (B1 & B2 & B3 & B4 & B5 & B6).
  unfold pending_bytes, midi_reader_get_byte, MIDI_READER_BUF_MAX in *.
  destruct (Z.gtb_spec (push_back s) (-1)) as [Hp|Hp].
  - cbn [app fst snd push_back buf buf_len buf_offset set_push_back].
    split; reflexivity.
  - cbn [app].
    destruct (Z.gtb_spec (buf_len s) 0) as [Hl|Hl]; cbn [andb].
    + destruct (Z.ltb_spec (buf_offset s) (buf_len s)) as [Ho|Ho].
      * assert (Hlk : take (Z.to_nat (buf_len s)) (buf s)
                        !! Z.to_nat (buf_offset s)
                      = Some (zget (buf s) (buf_offset s))).
        { rewrite lookup_take_lt by lia. unfold zget.
          destruct (lookup_lt_is_Some_2 (buf s) (Z.to_nat (buf_offset s))
                      ltac:(lia)) as [x Hx].
          rewrite nth_lookup, Hx. reflexivity. }
        rewrite (drop_S _ _ _ Hlk).
        cbn [fst snd push_back buf buf_len buf_offset set_buf_offset].
        destruct (Z.gtb_spec (push_back s) (-1)); [lia|]. cbn [app].
        split; [reflexivity|]. f_equal. lia.
      * rewrite drop_ge by (rewrite length_take; lia). reflexivity.
    + rewrite drop_ge by (rewrite length_take; lia). reflexivity.
Qed.

(** X12.  [midi_reader_read] on one source appends to its pending bytes
    and never drops or reorders one: nothing is read while a byte is
    pushed back; otherwise what [read] delivers is appended, cut to the
    free room of the buffer, which is the whole buffer once every
    buffered byte has been handed out and the rest of it otherwise. *)
Theorem read_source_appends (rd : Z -> list Z) (s : midi_reader_source_t) :
  source_bounds s ->
  let room :=
    if push_back s >? -1 then 0
    else if buf_offset s >=? buf_len s then MIDI_READER_BUF_MAX
         else MIDI_READER_BUF_MAX - buf_len s in
  pending_bytes (read_source rd s)
  = pending_bytes s ++ map uchar (take (Z.to_nat room) (rd (fd s))).
Proof.
  intros (B1 & B2 & B3 & B4 & B5 & B6). cbv zeta.
  unfold read_source.
  destruct (Z.gtb_spec (push_back s) (-1)) as [Hp|Hp].
  { cbn [Z.to_nat take map]. rewrite app_nil_r. reflexivity. }
  set (s0 := if buf_offset s >=? buf_len s
             then set_buf_offset 0 (set_buf_len 0 s) else s).
  assert (H0 : pending_bytes s0 = pending_bytes s
               /\ push_back s0 = push_back s /\ fd s0 = fd s
               /\ length (buf s0) = 256%nat
               /\ (0 <= buf_offset s0 <= buf_len s0 /\ buf_len s0 <= 256)
               /\ MIDI_READER_BUF_MAX - buf_len s0
                  = (if buf_offset s >=? buf_len s then MIDI_READER_BUF_MAX
                     else MIDI_READER_BUF_MAX - buf_len s)).
  { subst s0. unfold MIDI_READER_BUF_MAX in *.
    destruct (Z.geb_spec (buf_offset s) (buf_len s)) as [Ho|Ho].
    - unfold pending_bytes.
      cbn [push_back buf buf_len buf_offset fd set_buf_offset set_buf_len].
      rewrite (drop_ge (take (Z.to_nat (buf_len s)) (buf s)))
        by (rewrite length_take; lia).
      repeat split; lia.
    - repeat split; lia. }
  clearbody s0.
  destruct H0 as (E1 & E2 & E3 & E4 & (E5 & E5') & E6).
  rewrite <- E6, <- E1, <- E3.
  unfold MIDI_READER_BUF_MAX in *.
  destruct (Z.geb_spec (buf_len s0) 256) as [Hf|Hf].
  { replace (256 - buf_len s0) with 0 by lia.
    cbn [Z.to_nat take map]. rewrite app_nil_r. reflexivity. }
  cbv zeta.
  rewrite <- firstn_map.
  set (got := take (Z.to_nat (256 - buf_len s0)) (map uchar (rd (fd s0)))).
  assert (Hgot : (length got <= Z.to_nat (256 - buf_len s0))%nat).
  { subst got. rewrite length_take. lia. }
  clearbody got.
  destruct (Z.gtb_spec (Z.of_nat (length got)) 0) as [Hg|Hg].
  - unfold pending_bytes.
    cbn [push_back buf buf_len buf_offset set_buf set_buf_len].
    rewrite <- app_assoc. f_equal.
    assert (Hlt : length (take (Z.to_nat (buf_len s0)) (buf s0))
                  = Z.to_nat (buf_len s0)) by (rewrite length_take; lia).
    rewrite (app_assoc (take (Z.to_nat (buf_len s0)) (buf s0)) got).
    rewrite take_app_length' by (rewrite length_app, Hlt; lia).
    rewrite drop_app_le by lia. reflexivity.
  - destruct got; [|cbn in Hg; lia]. rewrite app_nil_r. reflexivity.
Qed.

Lemma read_source_appends_witness :
  let s := snd (midi_reader_get_byte
                  (read_source (fun _ => [0x90; 60]) fresh_source)) in
  pending_bytes s = [60]
  /\ pending_bytes (read_source (fun _ => [100; 0x1f8]) s) = [60; 100; 0xf8].
Proof.
  cbv zeta. split; [vm_compute; reflexivity|].
  rewrite read_source_appends.
  - vm_compute. reflexivity.
  - apply source_bounds_get, source_bounds_read.
    exact (source_bounds_reset zero_source false).
Defined.

(** X13.  [midi_reader_get_byte] hands out the pending bytes of a source
    in order: -1 and no change when there is none, otherwise the first
    one, the others staying pending in the same order (a pushed-back
    byte goes before the buffered ones). *)
Theorem get_byte_fifo (s : midi_reader_source_t) :
  source_bounds s ->
  match pending_bytes s with
  | [] => midi_reader_get_byte s = (-1, s)
  | b :: l =>
      fst (midi_reader_get_byte s) = b
      /\ pending_bytes (snd (midi_reader_get_byte s)) = l
  end.
Proof. exact (get_byte_pending s). Qed.

Lemma get_byte_fifo_witness :
  let s := res_source
             (midi_reader_push_byte (midi_reader_init MIDIR_NONE None)
                (set_current (frame_of [0x90; 60; 100])
                   (set_running 0x90
                      (read_source (fun _ => [61; 101]) fresh_source)))
                0x80) in
  pending_bytes s = [0x80; 61; 101]
  /\ fst (midi_reader_get_byte s) = 0x80
  /\ pending_bytes (snd (midi_reader_get_byte s)) = [61; 101].
Proof.
  cbv zeta. split; [vm_compute; reflexivity|].
  refine (get_byte_fifo
            (res_source
               (midi_reader_push_byte (midi_reader_init MIDIR_NONE None)
                  (set_current (frame_of [0x90; 60; 100])
                     (set_running 0x90
                        (read_source (fun _ => [61; 101]) fresh_source)))
                  0x80)) _).
  apply source_bounds_push.
  destruct (source_bounds_read (fun _ => [61; 101]) fresh_source
              (source_bounds_reset zero_source false))
    as (B1 & B2 & B3 & B4 & B5 & B6).
  unfold source_bounds.
  cbn [set_current set_running buf buf_len buf_offset push_back running].
  repeat split; try assumption; lia.
Defined.

Lemma push_byte_push_back (r : midi_reader_t) (s : midi_reader_source_t)
    (b : Z) :
  0 <= b <= 255 ->
  push_back (res_source (midi_reader_push_byte r s b))
  = if boundary_branch s b && negb (len (current s) =? MIDI_FRAME_MAX)
    then b else push_back s.
Proof.
  intros Hb. unfold boundary_branch, midi_reader_push_byte.
  destruct (Z.ltb_spec b 0); [lia|]. destruct (Z.gtb_spec b 255); [lia|].
  cbv zeta.
  destruct (len (current s) =? MIDI_FRAME_MAX).
  { rewrite andb_false_r. reflexivity. }
  rewrite andb_true_r.
  repeat match goal with
         | |- context [midi_frame_process ?a ?b] =>
             let H := fresh "H" in
             pose proof (process_source_fields a b) as H;
             generalize dependent (midi_frame_process a b); intros
         end.
  unfold count_error, res_source in *. cbv zeta in *.
  pose proof (byte_uchar b Hb) as Hu.
  break_ifs;
    repeat match goal with
           | H : context [if ?c then _ else _] |- _ => destruct c
           end;
    cbn [fst snd] in *;
    repeat match goal with
           | H : _ /\ _ |- _ => destruct H
           end;
    cbn [fd buf buf_len buf_offset channel push_back running
         set_running set_push_back set_current set_stats] in *;
    congruence.
Qed.

Lemma push_byte_negative (r : midi_reader_t) (s : midi_reader_source_t)
    (b : Z) :
  b < 0 -> midi_reader_push_byte r s b = (MIDIF_NODATA, r, s, []).
Proof.
  intros Hb. unfold midi_reader_push_byte.
  destruct (Z.ltb_spec b 0); [reflexivity|lia].
Qed.

Lemma pending_bytes_ext (s s' : midi_reader_source_t) :
  push_back s' = push_back s -> buf s' = buf s ->
  buf_len s' = buf_len s -> buf_offset s' = buf_offset s ->
  pending_bytes s' = pending_bytes s.
Proof. unfold pending_bytes. intros -> -> -> ->. reflexivity. Qed.

Lemma pending_bytes_range (s : midi_reader_source_t) :
  source_bounds s -> Forall (fun b => 0 <= b <= 255) (pending_bytes s).
Proof.
  intros (B1 & B2 & B3 & B4 & B5 & B6). unfold pending_bytes.
  apply Forall_app_2.
  - destruct (Z.gtb_spec (push_back s) (-1)); [|constructor].
    constructor; [lia|constructor].
  - apply Forall_drop, Forall_take, B6.
Qed.

(** X14.  One step of the loop of [midi_reader_update] on the source
    [i] takes at most one byte from the byte stream of that source, the
    first pending one, and nothing from the other sources, which are
    left as they are.  The byte stays pending (it is pushed back) exactly
    when it is a status byte that closes a running-status frame of fewer
    than MIDI_FRAME_MAX bytes. *)
Theorem update_visit_stream (r : midi_reader_t) (i : Z) :
  length (sources r) = Z.to_nat MIDI_READER_IN_MAX ->
  0 <= i < MIDI_READER_IN_MAX ->
  source_bounds (get_source r i) ->
  let s := get_source r i in
  let r' := fst (update_visit r i) in
  (forall j, 0 <= j -> j <> i -> get_source r' j = get_source r j)
  /\ match pending_bytes s with
     | [] => pending_bytes (get_source r' i) = []
     | b :: l =>
         pending_bytes (get_source r' i)
         = if boundary_branch s b
              && negb (len (current s) =? MIDI_FRAME_MAX)
           then b :: l else l
     end.
Proof.
  intros Hlen Hi Hs s r'. subst r'. unfold update_visit. fold s.
  pose proof (get_byte_pending s Hs) as Hget.
  pose proof (get_byte_range s Hs) as Hrange.
  pose proof (get_byte_source s) as (Hrun & Hcur).
  assert (Hpb : push_back (snd (midi_reader_get_byte s)) <= -1).
  { unfold midi_reader_get_byte.
    destruct (Z.gtb_spec (push_back s) (-1)); [cbn; lia|].
    destruct ((buf_len s >? 0) && (buf_offset s <? buf_len s)); cbn; lia. }
  destruct (midi_reader_get_byte s) as [b s1]. cbn [fst snd] in *.
  pose proof (push_byte_shape r s1 b) as Hsh.
  pose proof (push_byte_source_fields r s1 b)
    as (_ & F1 & F2 & F3 & _).
  assert (Hpush : 0 <= b ->
            push_back (res_source (midi_reader_push_byte r s1 b))
            = if boundary_branch s b
                 && negb (len (current s) =? MIDI_FRAME_MAX)
              then b else push_back s1).
  { intros H0. rewrite push_byte_push_back by lia.
    unfold boundary_branch. rewrite Hrun, Hcur. reflexivity. }
  assert (Hneg : b < 0 -> res_source (midi_reader_push_byte r s1 b) = s1).
  { intros H0. rewrite push_byte_negative by exact H0. reflexivity. }
  destruct (midi_reader_push_byte r s1 b) as [[[st r1] s2] e].
  cbn [res_reader res_source fst snd] in *.
  destruct (shape_config r r1 Hsh) as (_ & C2 & _).
  set (s3 := match st with
             | MIDIF_COMPLETE | MIDIF_ERROR | MIDIF_IOERROR | MIDIF_SKIPPED =>
                 set_current (midi_frame_reset (current s2)) s2
             | MIDIF_NODATA | MIDIF_NEXT => s2
             end).
  assert (H3 : pending_bytes s3 = pending_bytes s2).
  { subst s3. destruct st; reflexivity. }
  clearbody s3.
  assert (Hat : get_source (set_sources (zset (sources r1) i s3) r1) i = s3).
  { unfold get_source. cbn [sources set_sources]. apply nth_zset_eq.
    rewrite C2, Hlen. unfold MIDI_READER_IN_MAX in *. lia. }
  split.
  - intros j Hj Hne. unfold get_source. cbn [sources set_sources].
    rewrite C2. apply nth_zset_ne. lia.
  - rewrite Hat, H3.
    destruct (pending_bytes s) as [|b0 l] eqn:Hpend.
    + injection Hget as Hb1 Hs1. subst b s1.
      rewrite (Hneg ltac:(lia)). exact Hpend.
    + destruct Hget as (-> & Hl).
      assert (Hb0 : 0 <= b0).
      { pose proof (pending_bytes_range s Hs) as Hr.
        rewrite Hpend in Hr. apply Forall_inv in Hr. lia. }
      specialize (Hpush Hb0).
      destruct (boundary_branch s b0
                && negb (len (current s) =? MIDI_FRAME_MAX)).
      * unfold pending_bytes. rewrite Hpush, F1, F2, F3.
        destruct (Z.gtb_spec b0 (-1)); [|lia]. cbn [app]. f_equal.
        unfold pending_bytes in Hl.
        destruct (Z.gtb_spec (push_back s1) (-1)); [lia|]. exact Hl.
      * rewrite <- Hl. apply pending_bytes_ext; assumption.
Qed.

Lemma update_visit_stream_witness :
  let r := midi_reader_read (fun _ => [0x90; 60; 100])
             (snd (midi_reader_add_source
                     (midi_reader_init MIDIR_NONE None) 3 (-1))) in
  let s := get_source r 0 in
  let r' := fst (update_visit r 0) in
  pending_bytes s = [0x90; 60; 100]
  /\ pending_bytes (get_source r' 0) = [60; 100]
  /\ (forall j, 0 <= j -> j <> 0 -> get_source r' j = get_source r j)
  /\ match pending_bytes s with
     | [] => pending_bytes (get_source r' 0) = []
     | b :: l =>
         pending_bytes (get_source r' 0)
         = if boundary_branch s b
              && negb (len (current s) =? MIDI_FRAME_MAX)
           then b :: l else l
     end.
Proof.
  cbv zeta. split; [vm_compute; reflexivity|].
  split; [vm_compute; reflexivity|].
  apply (update_visit_stream
           (midi_reader_read (fun _ => [0x90; 60; 100])
              (snd (midi_reader_add_source
                      (midi_reader_init MIDIR_NONE None) 3 (-1)))) 0).
  - vm_compute. reflexivity.
  - unfold MIDI_READER_IN_MAX. lia.
  - apply get_source_P; [exact source_bounds_zero|].
    apply reachable_source_bounds.
    apply reach_read, reach_add_source, reach_init.
Defined.

(** ** Closing the reader *)

Lemma set_sources_id (r : midi_reader_t) : set_sources (sources r) r = r.
Proof. destruct r. reflexivity. Qed.

Lemma zset_repeat_drop {A : Type} (c : A) (l : list A) (n : nat) :
  (n < length l)%nat ->
  zset (repeat c n ++ drop n l) (Z.of_nat n) c = repeat c (S n) ++ drop (S n) l.
Proof.
  intros H. unfold zset. rewrite Nat2Z.id.
  destruct (lookup_lt_is_Some_2 l n H) as [x Hx].
  rewrite (drop_S _ _ _ Hx).
  rewrite insert_app_r_alt by (rewrite repeat_length; lia).
  rewrite repeat_length, Nat.sub_diag. cbn [repeat].
  rewrite repeat_cons, <- app_assoc. reflexivity.
Qed.

Lemma close_sources_fold (r : midi_reader_t) (n : nat) :
  length (sources r) = Z.to_nat MIDI_READER_IN_MAX ->
  (n <= Z.to_nat MIDI_READER_IN_MAX)%nat ->
  fold_left
    (fun '(rdr, evs) i =>
       let '(rdr, evs') := midi_reader_reset_source_n rdr (Z.of_nat i) true in
       (rdr, evs ++ evs'))
    (seq 0 n) (r, [])
  = (set_sources (repeat closed_source n ++ drop n (sources r)) r,
     repeat (EvClose 0) n).
Proof.
  intros Hlen. induction n as [|n IH]; intros Hn.
  - cbn [seq fold_left repeat app]. rewrite drop_0, set_sources_id. reflexivity.
  - rewrite seq_S, fold_left_app, IH by lia. cbn [fold_left Nat.add].
    rewrite reset_source_n_in by (unfold MIDI_READER_IN_MAX in *; lia).
    cbn [sources set_sources].
    fold closed_source. rewrite zset_repeat_drop by lia.
    change (snd (midi_reader_reset_source zero_source true)) with [EvClose 0].
    rewrite <- repeat_cons. reflexivity.
Qed.

(** X15.  [midi_reader_close] on a reader with no registered source does
    nothing at all: a dump descriptor that is set stays open and set.
    With sources registered, every registered slot is reset (descriptor
    -1, buffer and frame in progress cleared) with one [close] each, on
    descriptor 0 and not on the descriptor of the source; then the dump
    descriptor, if set, is closed and cleared.  The count of sources,
    the queued frames and the slots past the registered ones are
    kept. *)
Theorem close_resets_sources (r : midi_reader_t) :
  reader_wf r ->
  (nsources r = 0 -> midi_reader_close r = (r, []))
  /\ (0 < nsources r ->
      exists r',
        midi_reader_close r
        = (r', repeat (EvClose 0) (Z.to_nat (nsources r))
               ++ (if dumpfd r >? -1 then [EvClose (dumpfd r)] else []))
        /\ nsources r' = nsources r
        /\ dumpfd r' = (if dumpfd r >? -1 then -1 else dumpfd r)
        /\ frames r' = frames r /\ total r' = total r
        /\ (forall i, 0 <= i < nsources r -> get_source r' i = closed_source)
        /\ (forall i, nsources r <= i -> get_source r' i = get_source r i)).
Proof.
  intros (Hlen & Hn & _). split.
  - intros H0. unfold midi_reader_close. rewrite H0. reflexivity.
  - intros Hpos. unfold midi_reader_close, close_sources.
    destruct (Z.eqb_spec (nsources r) 0); [lia|].
    rewrite close_sources_fold by (unfold MIDI_READER_IN_MAX in *; lia).
    cbn [dumpfd set_sources].
    set (l := repeat closed_source (Z.to_nat (nsources r))
              ++ drop (Z.to_nat (nsources r)) (sources r)).
    assert (H1 : forall i, 0 <= i < nsources r ->
                 nth (Z.to_nat i) l zero_source = closed_source).
    { intros i Hi. subst l.
      rewrite app_nth1 by (rewrite repeat_length; lia).
      apply nth_repeat_lt. lia. }
    assert (H2 : forall i, nsources r <= i ->
                 nth (Z.to_nat i) l zero_source = get_source r i).
    { intros i Hi. subst l. unfold get_source.
      rewrite app_nth2 by (rewrite repeat_length; lia).
      rewrite repeat_length, nth_skipn. f_equal. lia. }
    clearbody l.
    destruct (dumpfd r >? -1); rewrite ?app_nil_r; eexists;
      (split; [reflexivity|]); repeat split; assumption.
Qed.

Lemma close_resets_sources_witness :
  let r := add_sources [3; 4]
             (snd (midi_reader_set_dump_fd
                     (midi_reader_init MIDIR_NONE None) 7)) in
  exists r',
    midi_reader_close r = (r', [EvClose 0; EvClose 0; EvClose 7])
    /\ nsources r' = 2 /\ dumpfd r' = -1
    /\ fd (get_source r' 0) = -1 /\ fd (get_source r' 1) = -1.
Proof.
  cbv zeta.
  destruct (close_resets_sources
              (add_sources [3; 4]
                 (snd (midi_reader_set_dump_fd
                         (midi_reader_init MIDIR_NONE None) 7))))
    as (_ & H).
  { repeat split; try reflexivity; vm_compute; congruence. }
  destruct (H ltac:(vm_compute; reflexivity))
    as (r' & E & E1 & E2 & _ & _ & E5 & _).
  exists r'. split; [exact E|]. split; [exact E1|]. split; [exact E2|].
  split.
  - rewrite (E5 0) by (vm_compute; split; congruence). reflexivity.
  - rewrite (E5 1) by (vm_compute; split; congruence). reflexivity.
Defined.

(** ** An update without input *)

Lemma zset_nth_id {A : Type} (l : list A) (i : Z) (d : A) :
  (Z.to_nat i < length l)%nat -> zset l i (nth (Z.to_nat i) l d) = l.
Proof.
  intros H. unfold zset. apply list_insert_id.
  destruct (lookup_lt_is_Some_2 l (Z.to_nat i) H) as [x Hx].
  rewrite nth_lookup, Hx. reflexivity.
Qed.

Lemma read_fold (rd : Z -> list Z) (r : midi_reader_t) (n : nat) :
  let r' :=
    fold_left
      (fun rdr i =>
         set_sources
           (zset (sources rdr) (Z.of_nat i)
                 (read_source rd (get_source rdr (Z.of_nat i)))) rdr)
      (seq 0 n) r in
  (forall k : nat,
     nth k (sources r') zero_source
     = if (k <? n)%nat && (k <? length (sources r))%nat
       then read_source rd (nth k (sources r) zero_source)
       else nth k (sources r) zero_source)
  /\ length (sources r') = length (sources r)
  /\ r' = set_sources (sources r') r.
Proof.
  induction n as [|n IH]; cbv zeta.
  - cbn [seq fold_left]. split; [intros k; reflexivity|].
    split; [reflexivity|]. symmetry. apply set_sources_id.
  - rewrite seq_S, fold_left_app. cbn [fold_left Nat.add].
    cbv zeta in IH. destruct IH as (I1 & I2 & I3).
    set (r1 := fold_left _ (seq 0 n) r) in *.
    cbn [sources set_sources]. rewrite length_zset.
    split; [|split; [exact I2|]].
    + intros k. unfold get_source. rewrite Nat2Z.id.
      destruct (Nat.eq_dec k n) as [->|Hne].
      * destruct (Nat.ltb_spec n (length (sources r))) as [Hl|Hl].
        -- rewrite <- (Nat2Z.id n) at 1.
           rewrite nth_zset_eq by (rewrite Nat2Z.id, I2; exact Hl).
           rewrite I1.
           destruct (Nat.ltb_spec n n); [lia|]. cbn [andb].
           destruct (Nat.ltb_spec n (S n)); [|lia]. reflexivity.
        -- rewrite andb_false_r.
           rewrite !(nth_overflow _ zero_source);
             rewrite ?length_zset, ?I2; try lia. reflexivity.
      * rewrite nth_zset_ne by (rewrite Nat2Z.id; lia).
        rewrite I1.
        destruct (Nat.ltb_spec k n), (Nat.ltb_spec k (S n)); try lia;
          reflexivity.
    + generalize (zset (sources r1) (Z.of_nat n)
                    (read_source rd (get_source r1 (Z.of_nat n)))).
      intros L. rewrite I3. reflexivity.
Qed.

Lemma read_sources (rd : Z -> list Z) (r : midi_reader_t) (i : Z) :
  reader_wf r -> 0 <= i ->
  get_source (midi_reader_read rd r) i
  = if i <? nsources r
    then read_source rd (get_source r i) else get_source r i.
Proof.
  intros (Hlen & Hn & _) Hi. unfold midi_reader_read, get_source.
  destruct (read_fold rd r (Z.to_nat (nsources r))) as (H & _).
  cbv zeta in H. rewrite H. rewrite Hlen.
  unfold MIDI_READER_IN_MAX in *.
  destruct (Z.ltb_spec i (nsources r));
    destruct (Nat.ltb_spec (Z.to_nat i) (Z.to_nat (nsources r))); try lia;
    cbn [andb]; [|reflexivity].
  destruct (Nat.ltb_spec (Z.to_nat i) (Z.to_nat 64)); [reflexivity|lia].
Qed.

Lemma read_config (rd : Z -> list Z) (r : midi_reader_t) :
  midi_reader_read rd r = set_sources (sources (midi_reader_read rd r)) r.
Proof.
  unfold midi_reader_read.
  destruct (read_fold rd r (Z.to_nat (nsources r))) as (_ & _ & H).
  exact H.
Qed.

Lemma update_visit_idle (r : midi_reader_t) (i : Z) :
  (Z.to_nat i < length (sources r))%nat ->
  source_bounds (get_source r i) ->
  pending_bytes (get_source r i) = [] ->
  update_visit r i = (r, []).
Proof.
  intros Hi Hs Hp. unfold update_visit.
  pose proof (get_byte_pending (get_source r i) Hs) as Hg.
  rewrite Hp in Hg. rewrite Hg.
  rewrite push_byte_negative by lia.
  unfold get_source. rewrite zset_nth_id by exact Hi.
  rewrite set_sources_id. reflexivity.
Qed.

Lemma update_loop_idle (r : midi_reader_t) (m : nat) :
  (Z.to_nat (nsources r) <= length (sources r))%nat ->
  (forall i, 0 <= i < nsources r ->
     source_bounds (get_source r i) /\ pending_bytes (get_source r i) = []) ->
  forall src, 0 <= src -> 0 < nsources r -> update_loop m src r = (r, []).
Proof.
  intros Hlen Hall. induction m as [|m IH]; intros src Hsrc Hn;
    [reflexivity|].
  cbn [update_loop].
  set (src' := if src >=? nsources r then 0 else src).
  assert (Hs' : 0 <= src' < nsources r).
  { subst src'. destruct (Z.geb_spec src (nsources r)); lia. }
  destruct (Hall src' Hs') as (Hb & Hp).
  rewrite update_visit_idle by (try assumption; lia).
  rewrite IH by lia. reflexivity.
Qed.

(** X16.  Nothing comes out of no input: when, after the read pass, no
    registered source has a byte pending, [midi_reader_update] is the
    read pass and nothing more.  No frame is queued, no counter moves,
    the frames in progress and the running statuses are kept as they
    are (an unfinished message waits for its bytes, however long), the
    callback is not called and nothing is written; the answer tells
    whether frames queued earlier are still unread. *)
Theorem update_idle (start : Z) (rd : Z -> list Z) (r : midi_reader_t) :
  reachable r -> -1 <= start ->
  (forall i, 0 <= i < nsources r ->
     pending_bytes (get_source (midi_reader_read rd r) i) = []) ->
  midi_reader_update start rd r
  = ((q_len (frames r) >? 0) && (q_offset (frames r) <? q_len (frames r)),
     (if start + 1 >=? nsources r then 0 else start + 1),
     midi_reader_read rd r, [])
  /\ frames (midi_reader_read rd r) = frames r
  /\ total (midi_reader_read rd r) = total r
  /\ (forall i, 0 <= i ->
        let s := get_source r i in
        let s' := get_source (midi_reader_read rd r) i in
        current s' = current s /\ running s' = running s
        /\ stats s' = stats s /\ push_back s' = push_back s).
Proof.
  intros Hr Hstart Hidle.
  pose proof (reachable_wf r Hr) as Hwf.
  pose proof (reach_read r rd Hr) as Hr0.
  pose proof (reachable_wf _ Hr0) as (Hlen0 & Hn0 & _).
  pose proof (reachable_source_bounds _ Hr0) as Hb0.
  pose proof (read_nsources rd r) as Hns.
  pose proof (read_frames rd r) as Hfr.
  split; [|split; [exact Hfr|split]].
  - unfold midi_reader_update. rewrite Hns.
    destruct (Z.eqb_spec (nsources r) 0) as [Hz|Hnz].
    + rewrite Hz. change (Z.to_nat 0) with 0%nat.
      cbn [update_loop]. rewrite Hfr. reflexivity.
    + rewrite update_loop_idle.
      * rewrite Hfr. reflexivity.
      * rewrite Hlen0, Hns. unfold MIDI_READER_IN_MAX in *. lia.
      * rewrite Hns. intros i Hi. split; [|apply Hidle, Hi].
        apply get_source_P; [exact source_bounds_zero|exact Hb0].
      * destruct (Z.geb_spec (start + 1) (nsources r)); lia.
      * rewrite Hns. lia.
  - rewrite read_config. reflexivity.
  - intros i Hi. cbv zeta. rewrite read_sources by assumption.
    destruct (i <? nsources r); [|repeat split].
    unfold read_source. break_ifs; repeat split.
Qed.

Lemma update_idle_witness :
  let r := snd (fst (midi_reader_update (-1) (fun _ => [0x90; 60])
                       (add_sources [3; 4]
                          (midi_reader_init MIDIR_NONE None)))) in
  let r := snd (fst (midi_reader_update 0 (fun _ => []) r)) in
  midi_reader_update 1 (fun _ => []) r
  = (false, 0, midi_reader_read (fun _ => []) r, [])
  /\ frame_bytes (current (get_source (midi_reader_read (fun _ => []) r) 0))
     = [0x90; 60].
Proof.
  cbv zeta.
  set (r := snd (fst (midi_reader_update 0 (fun _ => [])
                  (snd (fst (midi_reader_update (-1) (fun _ => [0x90; 60])
                     (add_sources [3; 4]
                        (midi_reader_init MIDIR_NONE None)))))))).
  destruct (update_idle 1 (fun _ => []) r) as (H & _).
  - subst r. apply reach_update, reach_update.
    unfold add_sources. cbn [fold_left].
    apply reach_add_source, reach_add_source, reach_init.
  - lia.
  - intros i Hi.
    assert (Hn : nsources r = 2) by (vm_compute; reflexivity).
    assert (Hi' : i = 0 \/ i = 1) by lia.
    destruct Hi' as [-> | ->]; vm_compute; reflexivity.
  - split; [|vm_compute; reflexivity].
    rewrite H. do 3 f_equal; vm_compute; reflexivity.
Defined.

(** ** The source table under removal and registration *)

Lemma find_fd_none (l : list midi_reader_source_t) (n : nat) (f : Z) :
  (n <= length l)%nat ->
  (forall k : nat, (k < n)%nat -> fd (nth k l zero_source) <> f) ->
  find_fd l n 0 f = Z.of_nat n.
Proof.
  intros Hn Hall.
  pose proof (find_fd_bounds l n 0 f) as Hb.
  destruct (Z.eq_dec (find_fd l n 0 f) (Z.of_nat n)) as [|Hne]; [assumption|].
  pose proof (find_fd_hit l n 0 f Hn ltac:(lia)) as Hh.
  rewrite Z.sub_0_r in Hh. exfalso.
  assert (Hk : (Z.to_nat (find_fd l n 0 f) < n)%nat) by lia.
  exact (Hall _ Hk Hh).
Qed.

(** Every slot of the table after a successful removal. *)
Lemma remove_source_slots (r : midi_reader_t) (f : Z) :
  reader_wf r -> 0 <= f ->
  find_fd (sources r) (Z.to_nat (nsources r)) 0 f < nsources r ->
  exists l,
    midi_reader_remove_source r f
    = (true, set_nsources (nsources r - 1) (set_sources l r), [EvClose 0])
    /\ length l = Z.to_nat MIDI_READER_IN_MAX
    /\ (forall k : nat, (k < 64)%nat ->
          nth k l zero_source
          = if Z.of_nat k <? find_fd (sources r) (Z.to_nat (nsources r)) 0 f
            then nth k (sources r) zero_source
            else if (k <? 63)%nat then nth (S k) (sources r) zero_source
                 else if find_fd (sources r) (Z.to_nat (nsources r)) 0 f =? 63
                      then closed_source
                      else nth 63 (sources r) zero_source).
Proof.
  intros (Hlen & Hn & _) Hf Hi. unfold MIDI_READER_IN_MAX in *.
  pose proof (find_fd_bounds (sources r) (Z.to_nat (nsources r)) 0 f) as Hb.
  unfold midi_reader_remove_source.
  set (i := find_fd (sources r) (Z.to_nat (nsources r)) 0 f) in *.
  destruct (Z.ltb_spec f 0); [lia|].
  destruct (Z.eqb_spec (nsources r) 0); [lia|]. cbn [orb].
  destruct (Z.geb_spec i (nsources r)); [lia|].
  rewrite reset_source_n_in by (unfold MIDI_READER_IN_MAX; lia).
  cbn [sources set_sources].
  change (snd (midi_reader_reset_source zero_source true)) with [EvClose 0].
  fold closed_source.
  set (l1 := zset (sources r) i closed_source).
  destruct (shift_sources_spec (Z.to_nat MIDI_READER_IN_MAX) (i + 1) l1
              ltac:(unfold l1; rewrite length_zset; exact Hlen)
              ltac:(unfold MIDI_READER_IN_MAX; lia) ltac:(lia))
    as (S1 & S2 & S3).
  destruct (shift_sources (Z.to_nat MIDI_READER_IN_MAX) (i + 1) l1)
    as [l2 j] eqn:Esh.
  cbn [fst snd] in S1, S2, S3. subst j.
  exists l2. split; [reflexivity|]. split; [exact S2|].
  intros k Hk. rewrite (S3 k Hk). replace (i + 1 - 1) with i by lia.
  destruct (Z.ltb_spec (Z.of_nat k) i).
  - unfold l1. apply nth_zset_ne. lia.
  - destruct (Nat.ltb_spec k 63).
    + unfold l1. apply nth_zset_ne. lia.
    + destruct (Z.eqb_spec i 63) as [E|E].
      * unfold l1. replace 63%nat with (Z.to_nat i) by lia.
        apply nth_zset_eq. lia.
      * unfold l1. apply nth_zset_ne. lia.
Qed.

(** X17.  The slot a removal vacates at the end of the table is not
    cleared (the reset after the compaction loop is handed the index 64,
    which it ignores), so on a full reader a source registered after a
    removal inherits the state of the former last source: its slot is
    that of the former source 63 with only the descriptor and the
    channel replaced -- buffered bytes, pushed-back byte, frame in
    progress, running status and counters included -- while that source
    itself now lives in slot 62. *)
Theorem remove_add_inherits (r : midi_reader_t) (f g chan : Z) :
  reader_wf r -> nsources r = MIDI_READER_IN_MAX -> 0 <= f -> 0 <= g ->
  find_fd (sources r) (Z.to_nat (nsources r)) 0 f < 63 ->
  (forall k, 0 <= k < MIDI_READER_IN_MAX -> fd (get_source r k) <> g) ->
  let r1 := snd (fst (midi_reader_remove_source r f)) in
  let r2 := snd (midi_reader_add_source r1 g chan) in
  fst (fst (midi_reader_remove_source r f)) = true
  /\ fst (midi_reader_add_source r1 g chan) = true
  /\ nsources r2 = MIDI_READER_IN_MAX
  /\ get_source r2 63
     = set_channel (if (chan >=? 1) && (chan <=? 16) then chan else -1)
         (set_fd g (get_source r 63))
  /\ get_source r2 62 = get_source r 63
  /\ pending_bytes (get_source r2 63) = pending_bytes (get_source r 63)
  /\ current (get_source r2 63) = current (get_source r 63)
  /\ stats (get_source r2 63) = stats (get_source r 63).
Proof.
  intros Hwf Hfull Hf Hg Hi Hnew.
  assert (Hi' : find_fd (sources r) (Z.to_nat (nsources r)) 0 f < nsources r).
  { unfold MIDI_READER_IN_MAX in Hfull. lia. }
  destruct (remove_source_slots r f Hwf Hf Hi') as (l & E & Hl & Hs).
  cbv zeta. rewrite E. cbn [fst snd].
  unfold MIDI_READER_IN_MAX in *.
  set (i := find_fd (sources r) (Z.to_nat (nsources r)) 0 f) in *.
  pose proof (find_fd_bounds (sources r) (Z.to_nat (nsources r)) 0 f) as Hb.
  fold i in Hb.
  assert (Hnone : find_fd l (Z.to_nat (nsources r - 1)) 0 g
                  = nsources r - 1).
  { rewrite find_fd_none; [lia|lia|].
    intros k Hk. rewrite Hs by lia.
    destruct (Z.of_nat k <? i).
    - apply (Hnew (Z.of_nat k) ltac:(lia)) || (
        pose proof (Hnew (Z.of_nat k) ltac:(lia)) as Hx;
        unfold get_source in Hx; rewrite Nat2Z.id in Hx; exact Hx).
    - destruct (Nat.ltb_spec k 63); [|lia].
      pose proof (Hnew (Z.of_nat (S k)) ltac:(lia)) as Hx.
      unfold get_source in Hx. rewrite Nat2Z.id in Hx. exact Hx. }
  assert (H63 : nth 63 l zero_source = get_source r 63).
  { rewrite Hs by lia. change (Z.of_nat 63) with 63.
    destruct (Z.ltb_spec 63 i); [lia|].
    change (63 <? 63)%nat with false. cbv iota.
    destruct (Z.eqb_spec i 63); [lia|]. reflexivity. }
  assert (H62 : nth 62 l zero_source = get_source r 63).
  { rewrite Hs by lia. change (Z.of_nat 62) with 62.
    destruct (Z.ltb_spec 62 i); [lia|].
    change (62 <? 63)%nat with true. reflexivity. }
  unfold midi_reader_add_source.
  cbn [nsources sources set_nsources set_sources].
  destruct (Z.gtb_spec g (-1)); [|lia].
  rewrite Hnone, Z.ltb_irrefl, Hfull.
  change (64 - 1 <? MIDI_READER_IN_MAX) with true. cbn [andb].
  cbn [fst snd nsources sources set_nsources set_sources].
  assert (Hget : forall s,
            get_source
              (set_nsources (64 - 1 + 1)
                 (set_sources (zset l (64 - 1) s)
                    (set_nsources (64 - 1) (set_sources l r)))) 63 = s).
  { intros s. unfold get_source. cbn [sources set_nsources set_sources].
    change (Z.to_nat 63) with (Z.to_nat (64 - 1)).
    apply nth_zset_eq. rewrite Hl. lia. }
  assert (Hold : get_source (set_nsources (64 - 1) (set_sources l r)) (64 - 1)
                 = get_source r 63).
  { unfold get_source at 1. cbn [sources set_nsources set_sources].
    exact H63. }
  split; [reflexivity|]. split; [reflexivity|]. split; [reflexivity|].
  rewrite Hold.
  destruct ((chan >=? 1) && (chan <=? 16)); rewrite Hget;
    (split; [reflexivity|]);
    (split; [unfold get_source; cbn [sources set_nsources set_sources];
             change (Z.to_nat 62) with 62%nat;
             rewrite nth_zset_ne by lia; exact H62|]);
    repeat split.
Qed.

Lemma remove_add_inherits_witness :
  let r := midi_reader_read (fun f => [0x90; f]) full_reader in
  let r1 := snd (fst (midi_reader_remove_source r 5)) in
  let r2 := snd (midi_reader_add_source r1 100 (-1)) in
  fd (get_source r 63) = 63
  /\ fd (get_source r2 63) = 100
  /\ pending_bytes (get_source r2 63) = [0x90; 63]
  /\ get_source r2 62 = get_source r 63.
Proof.
  cbv zeta.
  destruct (remove_add_inherits
              (midi_reader_read (fun f => [0x90; f]) full_reader) 5 100 (-1))
    as (_ & _ & _ & E4 & E5 & E6 & _).
  - repeat split; try reflexivity; vm_compute; congruence.
  - vm_compute. reflexivity.
  - lia.
  - lia.
  - vm_compute. reflexivity.
  - intros k Hk.
    pose proof (Zrange_forallb
                  (fun k => negb (fd (get_source
                     (midi_reader_read (fun f => [0x90; f]) full_reader) k)
                     =? 100))
                  0 64 ltac:(vm_compute; reflexivity) k
                  ltac:(unfold MIDI_READER_IN_MAX in Hk; lia)) as H.
    cbv beta in H. apply negb_true_iff, Z.eqb_neq in H. exact H.
  - split; [vm_compute; reflexivity|].
    split; [rewrite E4; reflexivity|].
    split; [rewrite E6; vm_compute; reflexivity|exact E5].
Defined.

(** X18.  Registering a new descriptor and removing it again restores
    the registered sources: the count is the former one and every
    registered slot is as it was; the removal issues its one [close], on
    descriptor 0. *)
Theorem add_remove_round_trip (r : midi_reader_t) (g chan : Z) :
  reader_wf r -> nsources r < MIDI_READER_IN_MAX -> 0 <= g ->
  ~ has_fd r g ->
  let r1 := snd (midi_reader_add_source r g chan) in
  exists r2,
    midi_reader_remove_source r1 g = (true, r2, [EvClose 0])
    /\ has_fd r1 g /\ nsources r1 = nsources r + 1
    /\ nsources r2 = nsources r
    /\ (forall k, 0 <= k < nsources r -> get_source r2 k = get_source r k)
    /\ ~ has_fd r2 g
    /\ frames r2 = frames r /\ dumpfd r2 = dumpfd r /\ total r2 = total r.
Proof.
  intros Hwf Hroom Hg Hnew. cbv zeta.
  pose proof Hwf as (Hlen & Hn & Hq). unfold MIDI_READER_IN_MAX in *.
  assert (Hold : forall k : nat, (k < Z.to_nat (nsources r))%nat ->
                 fd (nth k (sources r) zero_source) <> g).
  { intros k Hk E. apply Hnew. exists (Z.of_nat k). split; [lia|].
    unfold get_source. rewrite Nat2Z.id. exact E. }
  unfold midi_reader_add_source.
  destruct (Z.gtb_spec g (-1)); [|lia].
  destruct (Z.ltb_spec (nsources r) MIDI_READER_IN_MAX);
    [|unfold MIDI_READER_IN_MAX in *; lia].
  cbn [andb]. rewrite find_fd_none by (try assumption; lia).
  rewrite Z2Nat.id by lia. rewrite Z.ltb_irrefl. cbn [snd].
  set (s := if (chan >=? 1) && (chan <=? 16)
            then set_channel chan (set_fd g (get_source r (nsources r)))
            else set_channel (-1) (set_fd g (get_source r (nsources r)))).
  assert (Hfd : fd s = g) by (subst s; destruct ((chan >=? 1) && (chan <=? 16)); reflexivity).
  clearbody s.
  set (r1 := set_nsources (nsources r + 1)
               (set_sources (zset (sources r) (nsources r) s) r)).
  assert (Hwf1 : reader_wf r1).
  { subst r1. unfold reader_wf, MIDI_READER_IN_MAX.
    cbn [sources nsources frames set_sources set_nsources].
    rewrite length_zset. repeat split; try apply Hq; lia. }
  assert (Hfind : find_fd (sources r1) (Z.to_nat (nsources r1)) 0 g
                  = nsources r).
  { subst r1. cbn [sources nsources set_sources set_nsources].
    pose proof (find_fd_bounds (zset (sources r) (nsources r) s)
                  (Z.to_nat (nsources r + 1)) 0 g) as Hb.
    pose proof (find_fd_found (zset (sources r) (nsources r) s)
                  (Z.to_nat (nsources r + 1)) (Z.to_nat (nsources r)) 0 g
                  ltac:(lia)
                  ltac:(rewrite nth_zset_eq by lia; exact Hfd)) as Hle.
    destruct (Z.eq_dec (find_fd (zset (sources r) (nsources r) s)
                          (Z.to_nat (nsources r + 1)) 0 g) (nsources r))
      as [|Hne]; [assumption|].
    pose proof (find_fd_hit (zset (sources r) (nsources r) s)
                  (Z.to_nat (nsources r + 1)) 0 g
                  ltac:(rewrite length_zset; lia) ltac:(lia)) as Hh.
    rewrite Z.sub_0_r in Hh. rewrite nth_zset_ne in Hh by lia.
    exfalso.
    assert (Hk : (Z.to_nat (find_fd (zset (sources r) (nsources r) s)
                              (Z.to_nat (nsources r + 1)) 0 g)
                  < Z.to_nat (nsources r))%nat) by lia.
    exact (Hold _ Hk Hh). }
  assert (Hn1 : nsources r1 = nsources r + 1) by reflexivity.
  destruct (remove_source_slots r1 g Hwf1 Hg ltac:(lia))
    as (l & E & Hl & Hs).
  rewrite Hfind in Hs.
  eexists. split; [exact E|].
  assert (Hsame : forall k, 0 <= k < nsources r ->
            get_source (set_nsources (nsources r1 - 1) (set_sources l r1)) k
            = get_source r k).
  { intros k Hk. unfold get_source. cbn [sources set_nsources set_sources].
    rewrite Hs by lia. rewrite Z2Nat.id by lia.
    destruct (Z.ltb_spec k (nsources r)); [|lia].
    subst r1. cbn [sources set_nsources set_sources].
    apply nth_zset_ne. lia. }
  split.
  { exists (nsources r). subst r1. cbn [nsources set_nsources].
    split; [lia|]. unfold get_source. cbn [sources set_nsources set_sources].
    rewrite nth_zset_eq by lia. exact Hfd. }
  split; [reflexivity|].
  split; [subst r1; cbn [nsources set_nsources set_sources]; lia|].
  split; [exact Hsame|].
  split; [|repeat split].
  intros (k & Hk & Hk').
  assert (Hk2 : 0 <= k < nsources r).
  { subst r1. cbn [nsources set_nsources set_sources] in Hk. lia. }
  rewrite Hsame in Hk' by exact Hk2.
  apply Hnew. exists k. split; assumption.
Qed.

Lemma add_remove_round_trip_witness :
  let r := add_sources [3; 4] (midi_reader_init MIDIR_NONE None) in
  let r1 := snd (midi_reader_add_source r 9 2) in
  exists r2,
    midi_reader_remove_source r1 9 = (true, r2, [EvClose 0])
    /\ has_fd r1 9 /\ nsources r1 = nsources r + 1
    /\ nsources r2 = nsources r
    /\ (forall k, 0 <= k < nsources r -> get_source r2 k = get_source r k)
    /\ ~ has_fd r2 9
    /\ frames r2 = frames r /\ dumpfd r2 = dumpfd r /\ total r2 = total r.
Proof.
  apply (add_remove_round_trip
           (add_sources [3; 4] (midi_reader_init MIDIR_NONE None)) 9 2).
  - repeat split; try reflexivity; vm_compute; congruence.
  - vm_compute. reflexivity.
  - lia.
  - intros (k & Hk & Hk').
    assert (Hn : nsources (add_sources [3; 4]
                   (midi_reader_init MIDIR_NONE None)) = 2)
      by (vm_compute; reflexivity).
    assert (Hk2 : k = 0 \/ k = 1) by lia.
    destruct Hk2 as [-> | ->]; vm_compute in Hk'; congruence.
Defined.

(** ** Injection *)

(** [midi_reader_inject] reads the length of the frame and the bytes
    below it, nothing else. *)
Lemma inject_loop_ext (mf mf' : midi_frame_t) (n : nat) :
  len mf' = len mf ->
  forall (i : Z) (r : midi_reader_t) (src : midi_reader_source_t),
  (forall j, i <= j < len mf -> zget (data mf') j = zget (data mf) j) ->
  inject_loop n i mf' r src = inject_loop n i mf r src.
Proof.
  intros Hlen. induction n as [|n IH]; intros i r src Hd; [reflexivity|].
  cbn [inject_loop]. rewrite Hlen.
  destruct (Z.ltb_spec i (len mf)); [|reflexivity].
  rewrite (Hd i) by lia.
  destruct (midi_reader_push_byte r src (zget (data mf) i))
    as [[[st r1] s1] e1].
  rewrite (IH (i + 1) r1 s1) by (intros j Hj; apply Hd; lia).
  reflexivity.
Qed.

Lemma inject_ext (r : midi_reader_t) (mf mf' : midi_frame_t) :
  len mf' = len mf ->
  (forall j, 0 <= j < len mf -> zget (data mf') j = zget (data mf) j) ->
  midi_reader_inject r mf' = midi_reader_inject r mf.
Proof.
  intros Hlen Hd. unfold midi_reader_inject. rewrite Hlen.
  rewrite (inject_loop_ext mf mf' _ Hlen 0 r inject_source Hd).
  reflexivity.
Qed.

(** The loop of [midi_reader_inject_bytes] that copies the arguments. *)
Lemma inject_bytes_copy (args : list Z) (m : nat) :
  forall f : midi_frame_t,
  (m <= length (data f))%nat ->
  let g :=
    fold_left
      (fun (g : midi_frame_t) (i : nat) =>
         set_data (zset (data g) (Z.of_nat i) (uchar (nth i args 0))) g)
      (seq 0 m) f in
  len g = len f /\ length (data g) = length (data f)
  /\ (forall j : nat, (j < m)%nat ->
        nth j (data g) 0 = uchar (nth j args 0)).
Proof.
  induction m as [|m IH]; intros f Hm; cbv zeta.
  - cbn [seq fold_left]. repeat split. intros j Hj. lia.
  - rewrite seq_S, fold_left_app. cbn [fold_left Nat.add].
    destruct (IH f ltac:(lia)) as (I1 & I2 & I3).
    set (g := fold_left _ (seq 0 m) f) in *.
    cbn [len data set_data]. rewrite length_zset.
    split; [exact I1|]. split; [exact I2|].
    intros j Hj. destruct (Nat.eq_dec j m) as [->|Hne].
    + rewrite <- (Nat2Z.id m) at 1.
      apply nth_zset_eq. rewrite Nat2Z.id. lia.
    + rewrite nth_zset_ne by (rewrite Nat2Z.id; lia).
      apply I3. lia.
Qed.

(** X19.  [midi_reader_inject_bytes] (and [MidiReader::inject (int n,
    ...)], which has the same body) with [n] in 1..128 is
    [midi_reader_inject] of the frame made of the first [n] arguments,
    each reduced to a byte: what the automatic frame variable held
    before and the arguments past the [n]-th have no effect.  With [n]
    below 1 or above 128 it returns 0 and does nothing. *)
Theorem inject_bytes_frame (r : midi_reader_t) (n : Z) (args : list Z)
    (f : midi_frame_t) :
  length (data f) = Z.to_nat MIDI_FRAME_MAX ->
  (1 <= n <= MIDI_FRAME_MAX -> n <= Z.of_nat (length args) ->
   midi_reader_inject_bytes r n args f
   = midi_reader_inject r (frame_of (map uchar (take (Z.to_nat n) args))))
  /\ (n < 1 \/ MIDI_FRAME_MAX < n ->
      midi_reader_inject_bytes r n args f = (0, r, [])).
Proof.
  intros Hf. unfold MIDI_FRAME_MAX in *. split.
  - intros Hn Hargs. unfold midi_reader_inject_bytes, MIDI_FRAME_MAX.
    destruct (Z.leb_spec n 0); [lia|].
    destruct (Z.gtb_spec n 128); [lia|]. cbn [orb].
    destruct (inject_bytes_copy args (Z.to_nat n) (midi_frame_reset f))
      as (I1 & I2 & I3).
    { unfold midi_frame_reset. cbn [data set_data set_len].
      rewrite length_zset. lia. }
    set (g := fold_left _ (seq 0 (Z.to_nat n)) (midi_frame_reset f)) in *.
    assert (Hbs : length (map uchar (take (Z.to_nat n) args)) = Z.to_nat n).
    { rewrite length_map, length_take. lia. }
    apply inject_ext.
    + unfold frame_of. cbn [len set_len]. rewrite Hbs.
      rewrite uchar_small by lia. lia.
    + unfold frame_of. cbn [len data set_len]. rewrite Hbs.
      intros j Hj. unfold zget.
      rewrite I3 by lia.
      rewrite app_nth1 by lia.
      rewrite (nth_indep (map uchar (take (Z.to_nat n) args)) 0 (uchar 0))
        by lia.
      rewrite (map_nth uchar). f_equal. rewrite nth_firstn.
      destruct (Nat.ltb_spec (Z.to_nat j) (Z.to_nat n)); [reflexivity|lia].
  - intros Hn. unfold midi_reader_inject_bytes, MIDI_FRAME_MAX.
    destruct (Z.leb_spec n 0); [reflexivity|].
    destruct (Z.gtb_spec n 128); [reflexivity|lia].
Qed.

Lemma inject_bytes_frame_witness :
  let r := midi_reader_init MIDIR_NONE None in
  let garbage := mk_frame 77 (repeat 0xaa (Z.to_nat MIDI_FRAME_MAX)) in
  midi_reader_inject_bytes r 3 [0x190; 60; 100; 7] garbage
  = midi_reader_inject r (frame_of [0x90; 60; 100]).
Proof.
  cbv zeta.
  apply (proj1 (inject_bytes_frame (midi_reader_init MIDIR_NONE None) 3
                  [0x190; 60; 100; 7]
                  (mk_frame 77 (repeat 0xaa (Z.to_nat MIDI_FRAME_MAX)))
                  ltac:(reflexivity)));
    [unfold MIDI_FRAME_MAX; lia|cbn; lia].
Defined.

Lemma inject_loop_result (mf : midi_frame_t) (n : nat) :
  forall (i : Z) (r : midi_reader_t) (src : midi_reader_source_t),
  0 <= i <= len mf -> (Z.to_nat (len mf - i) <= n)%nat ->
  let x := inject_loop n i mf r src in
  match fst (fst (fst (fst x))) with
  | Some v => i <= v < len mf /\ snd (fst (fst (fst x))) = v
  | None => snd (fst (fst (fst x))) = len mf
  end
  /\ same_setup r (snd (fst (fst x))).
Proof.
  induction n as [|n IH]; intros i r src Hi Hn; cbv zeta.
  - cbn [inject_loop fst snd]. split; [lia|]. repeat split.
  - cbn [inject_loop].
    destruct (Z.ltb_spec i (len mf)) as [Hlt|Hge];
      [|cbn [fst snd]; split; [lia|repeat split]].
    pose proof (push_byte_shape r src (zget (data mf) i)) as Hsh.
    destruct (midi_reader_push_byte r src (zget (data mf) i))
      as [[[st r1] s1] e1].
    cbn [res_reader fst snd] in Hsh.
    pose proof (shape_config r r1 Hsh) as Hc.
    specialize (IH (i + 1) r1 s1 ltac:(lia) ltac:(lia)). cbv zeta in IH.
    destruct (inject_loop n (i + 1) mf r1 s1) as [[[[ret i'] r2] s2] e2].
    cbn [fst snd] in IH. destruct IH as (IH1 & IH2).
    assert (Htr : same_setup r r2).
    { unfold same_setup in *.
      destruct Hc as (C1 & C2 & C3 & C4 & C5 & C6 & C7).
      destruct IH2 as (D1 & D2 & D3 & D4 & D5 & D6 & D7).
      repeat split; congruence. }
    destruct st; cbn [fst snd];
      try (split; [split; [lia|reflexivity]|exact Hc]);
      (split; [|exact Htr]); destruct ret; [lia|exact IH1|lia|exact IH1].
Qed.

(** X20.  [midi_reader_inject] works on a source of its own: the source
    table of the reader, the count of sources and the configuration
    (flags, dump descriptor, skip list, callback) are left as they are,
    whatever the frame.  The value returned is between 0 and the length
    of the frame. *)
Theorem inject_keeps_sources (r : midi_reader_t) (mf : midi_frame_t) :
  0 <= len mf ->
  0 <= fst (fst (midi_reader_inject r mf)) <= len mf
  /\ same_setup r (snd (fst (midi_reader_inject r mf))).
Proof.
  intros Hlen. unfold midi_reader_inject.
  destruct (Z.eqb_spec (len mf) 0) as [E|E].
  { cbn [fst snd]. split; [lia|repeat split]. }
  pose proof (inject_loop_result mf (Z.to_nat (len mf)) 0 r inject_source
                ltac:(lia) ltac:(lia)) as H.
  cbv zeta in H.
  destruct (inject_loop (Z.to_nat (len mf)) 0 mf r inject_source)
    as [[[[ret i] r1] s1] e1].
  cbn [fst snd] in H. destruct H as (H1 & H2).
  destruct ret as [v|]; [cbn [fst snd]; split; [lia|exact H2]|].
  destruct (negb (running s1 =? 0)); [|cbn [fst snd]; split; [lia|exact H2]].
  pose proof (push_byte_shape r1 s1 254) as Hsh.
  destruct (midi_reader_push_byte r1 s1 254) as [[[st r2] s2] e2].
  cbn [res_reader fst snd] in *. split; [lia|].
  pose proof (shape_config r1 r2 Hsh) as Hc.
  unfold same_setup in *.
  destruct Hc as (C1 & C2 & C3 & C4 & C5 & C6 & C7).
  destruct H2 as (D1 & D2 & D3 & D4 & D5 & D6 & D7).
  repeat split; congruence.
Qed.

Lemma inject_keeps_sources_witness :
  let r := midi_reader_read (fun _ => [0x90; 60])
             (add_sources [3] (midi_reader_init MIDIR_EXPAND None)) in
  let mf := frame_of [0x90; 60; 100; 62; 101] in
  0 <= fst (fst (midi_reader_inject r mf)) <= len mf
  /\ same_setup r (snd (fst (midi_reader_inject r mf))).
Proof.
  apply (inject_keeps_sources
           (midi_reader_read (fun _ => [0x90; 60])
              (add_sources [3] (midi_reader_init MIDIR_EXPAND None)))
           (frame_of [0x90; 60; 100; 62; 101])).
  cbn. lia.
Defined.

(** ** Opening a source by path *)

(** X21.  [midi_reader_add_source_path] never leaks the descriptor it
    opens: when [open] succeeds, the descriptor is either registered (the
    call returns true and a registered source carries it) or, the table
    being full, closed again (the call returns false and the reader is
    unchanged).  When [open] fails or the path is null, nothing is
    changed and nothing is closed. *)
Theorem add_source_path_no_leak (r : midi_reader_t) (open_ : string -> Z)
    (p : string) (chan : Z) :
  reader_wf r ->
  (0 <= open_ p -> nsources r < MIDI_READER_IN_MAX ->
   exists r',
     midi_reader_add_source_path r open_ (Some p) chan = (true, r', [])
     /\ has_fd r' (open_ p))
  /\ (0 <= open_ p -> nsources r = MIDI_READER_IN_MAX ->
      midi_reader_add_source_path r open_ (Some p) chan
      = (false, r, [EvClose (open_ p)]))
  /\ (open_ p < 0 ->
      midi_reader_add_source_path r open_ (Some p) chan = (false, r, []))
  /\ midi_reader_add_source_path r open_ None chan = (false, r, []).
Proof.
  intros (Hlen & Hn & _). unfold MIDI_READER_IN_MAX in *.
  unfold midi_reader_add_source_path, midi_reader_add_source.
  split; [|split; [|split; [|reflexivity]]].
  - intros Hf Hroom.
    destruct (Z.gtb_spec (open_ p) (-1)); [|lia].
    destruct (Z.ltb_spec (nsources r) MIDI_READER_IN_MAX);
      [|unfold MIDI_READER_IN_MAX in *; lia].
    cbn [andb].
    pose proof (find_fd_bounds (sources r) (Z.to_nat (nsources r)) 0
                  (open_ p)) as Hb.
    destruct (Z.ltb_spec (find_fd (sources r) (Z.to_nat (nsources r)) 0
                            (open_ p)) (nsources r)) as [Hlt|Hge].
    + cbn [negb]. eexists. split; [reflexivity|].
      exists (find_fd (sources r) (Z.to_nat (nsources r)) 0 (open_ p)).
      split; [lia|].
      pose proof (find_fd_hit (sources r) (Z.to_nat (nsources r)) 0 (open_ p)
                    ltac:(lia) ltac:(lia)) as Hh.
      rewrite Z.sub_0_r in Hh. exact Hh.
    + cbn [negb]. eexists. split; [reflexivity|].
      exists (nsources r). cbn [nsources set_nsources set_sources].
      split; [lia|]. unfold get_source at 1.
      cbn [sources set_nsources set_sources].
      rewrite nth_zset_eq by lia.
      destruct ((chan >=? 1) && (chan <=? 16)); reflexivity.
  - intros Hf Hfull.
    destruct (Z.gtb_spec (open_ p) (-1)); [|lia].
    destruct (Z.ltb_spec (nsources r) MIDI_READER_IN_MAX);
      [unfold MIDI_READER_IN_MAX in *; lia|].
    reflexivity.
  - intros Hf. destruct (Z.gtb_spec (open_ p) (-1)); [lia|]. reflexivity.
Qed.

Lemma add_source_path_no_leak_witness :
  let r := add_sources [3] (midi_reader_init MIDIR_NONE None) in
  let open_ := fun _ : string => 9 in
  exists r',
    midi_reader_add_source_path r open_ (Some "/dev/midi1"%string) 2
    = (true, r', [])
    /\ has_fd r' 9.
Proof.
  cbv zeta.
  refine (proj1 (add_source_path_no_leak
                   (add_sources [3] (midi_reader_init MIDIR_NONE None))
                   (fun _ => 9) "/dev/midi1"%string 2 _) _ _).
  - repeat split; try reflexivity; vm_compute; congruence.
  - lia.
  - vm_compute. reflexivity.
Defined.

(** ** The frame queue seen from the C++ side *)

(** X22.  [MidiReader::available] counts the frames stored, not the
    frames still to be read: while unread frames are queued,
    [midi_reader_get_next] returns the oldest one and moves the read
    offset past it, but the value of [available] does not go down. *)
Theorem available_counts_stored (start : Z) (rd : Z -> list Z)
    (r : midi_reader_t) :
  queue_pending (frames r) ->
  exists start' r' evs,
    midi_reader_get_next start rd r
    = (Some (get_frame (frames r) (q_offset (frames r))), start', r', evs)
    /\ MidiReader_available r <= MidiReader_available r'
    /\ q_offset (frames r') = q_offset (frames r) + 1
    /\ MidiReader_available r' - q_offset (frames r')
       < MidiReader_available r'.
Proof.
  intros Hp. pose proof Hp as (_ & Ho & _).
  destruct (get_next_pending start rd r Hp)
    as (st & r' & evs & E & _ & B2 & B3 & _).
  exists st, r', evs. unfold MidiReader_available.
  split; [exact E|]. split; [lia|]. split; [exact B2|]. lia.
Qed.

Lemma available_counts_stored_witness :
  exists start' r' evs,
    midi_reader_get_next 0 (fun _ => []) clogged_reader
    = (Some (get_frame (frames clogged_reader)
                       (q_offset (frames clogged_reader))),
       start', r', evs)
    /\ MidiReader_available clogged_reader <= MidiReader_available r'
    /\ q_offset (frames r') = q_offset (frames clogged_reader) + 1
    /\ MidiReader_available r' - q_offset (frames r')
       < MidiReader_available r'.
Proof.
  apply (available_counts_stored 0 (fun _ => []) clogged_reader).
  repeat split; try reflexivity; vm_compute; congruence.
Defined.

(** ** The hexadecimal dump *)

Lemma hex2_injective (a b : Z) :
  0 <= a <= 255 -> 0 <= b <= 255 -> hex2 a = hex2 b -> a = b.
Proof.
  intros Ha Hb E.
  assert (Hall : forallb (fun x => forallb (hex2_distinct x) all_bytes)
                         all_bytes = true) by (vm_compute; reflexivity).
  assert (Hin : forall x, 0 <= x <= 255 -> In x all_bytes).
  { intros x Hx. unfold all_bytes. apply in_map_iff.
    exists (Z.to_nat x). split; [lia|]. apply in_seq. lia. }
  rewrite forallb_forall in Hall. specialize (Hall a (Hin a Ha)).
  rewrite forallb_forall in Hall. specialize (Hall b (Hin b Hb)).
  unfold hex2_distinct in Hall. rewrite E, String.eqb_refl in Hall.
  cbn [implb] in Hall. apply Z.eqb_eq. exact Hall.
Qed.

Lemma map_injective_on {A B : Type} (P : A -> Prop) (g : A -> B) :
  (forall a b, P a -> P b -> g a = g b -> a = b) ->
  forall l l', Forall P l -> Forall P l' -> map g l = map g l' -> l = l'.
Proof.
  intros Hg. induction l as [|x l IH]; intros [|y l'] Hl Hl' E;
    cbn [map] in E; try congruence.
  injection E as E1 E2.
  f_equal.
  - apply Hg; [exact (Forall_inv Hl)|exact (Forall_inv Hl')|exact E1].
  - apply IH; [exact (Forall_inv_tail Hl)|exact (Forall_inv_tail Hl')|exact E2].
Qed.

Lemma dump_as_map (mf : midi_frame_t) (f : Z) :
  f > -1 -> (Z.to_nat (len mf) <= length (data mf))%nat ->
  midi_frame_dump mf f
  = map (fun b => EvDprintf f (hex2 b)) (frame_bytes mf).
Proof.
  intros Hf Hlen. unfold midi_frame_dump, frame_bytes.
  destruct (Z.gtb_spec f (-1)); [|lia].
  assert (Ht : take (Z.to_nat (len mf)) (data mf)
               = map (fun j => zget (data mf) (Z.of_nat j))
                     (seq 0 (Z.to_nat (len mf)))).
  { apply (nth_ext _ _ 0 0).
    - rewrite length_map, length_seq, length_take. lia.
    - intros j Hj. rewrite length_take in Hj.
      rewrite nth_firstn.
      destruct (Nat.ltb_spec j (Z.to_nat (len mf))); [|lia].
      rewrite (nth_indep
                 (map (fun j => zget (data mf) (Z.of_nat j))
                      (seq 0 (Z.to_nat (len mf))))
                 0 (zget (data mf) (Z.of_nat 0)))
        by (rewrite length_map, length_seq; lia).
      rewrite (map_nth (fun j => zget (data mf) (Z.of_nat j))).
      rewrite seq_nth by lia. unfold zget. rewrite Nat2Z.id. reflexivity. }
  rewrite Ht, map_map. reflexivity.
Qed.

(** X23.  The hexadecimal dump of a frame ([midi_frame_dump], used for
    the debug output and for the dump descriptor under MIDIR_DUMPHEX) is
    lossless: it makes one [dprintf] per byte of the frame, in order,
    and two frames with the same dump hold the same bytes.  On a
    descriptor below 0 nothing is printed. *)
Theorem frame_dump_lossless (mf mf' : midi_frame_t) (f : Z) :
  (Z.to_nat (len mf) <= length (data mf))%nat ->
  (Z.to_nat (len mf') <= length (data mf'))%nat ->
  Forall (fun b => 0 <= b <= 255) (frame_bytes mf) ->
  Forall (fun b => 0 <= b <= 255) (frame_bytes mf') ->
  (f > -1 ->
   length (midi_frame_dump mf f) = Z.to_nat (len mf)
   /\ (midi_frame_dump mf f = midi_frame_dump mf' f ->
       frame_bytes mf = frame_bytes mf'))
  /\ (f <= -1 -> midi_frame_dump mf f = []).
Proof.
  intros Hl Hl' Hb Hb'. split.
  - intros Hf. rewrite !dump_as_map by assumption. split.
    + rewrite length_map. unfold frame_bytes. rewrite length_take. lia.
    + apply (map_injective_on (fun b => 0 <= b <= 255)); try assumption.
      intros a b Ha Hb0 E.
      assert (E' : hex2 a = hex2 b) by congruence.
      apply hex2_injective; [exact Ha|exact Hb0|exact E'].
  - intros Hf. unfold midi_frame_dump.
    destruct (Z.gtb_spec f (-1)); [lia|reflexivity].
Qed.

Lemma frame_dump_lossless_witness :
  midi_frame_dump (frame_of [0x90; 60; 100]) 2
  = [EvDprintf 2 "90 "; EvDprintf 2 "3c "; EvDprintf 2 "64 "]
  /\ length (midi_frame_dump (frame_of [0x90; 60; 100]) 2) = 3%nat
  /\ (midi_frame_dump (frame_of [0x90; 60; 100]) 2
      = midi_frame_dump (frame_of [0x90; 60; 100]) 2 ->
      frame_bytes (frame_of [0x90; 60; 100])
      = frame_bytes (frame_of [0x90; 60; 100])).
Proof.
  split; [vm_compute; reflexivity|].
  apply (proj1 (frame_dump_lossless (frame_of [0x90; 60; 100])
                  (frame_of [0x90; 60; 100]) 2
                  ltac:(cbn; lia) ltac:(cbn; lia)
                  ltac:(repeat constructor; lia)
                  ltac:(repeat constructor; lia))).
  lia.
Defined.

(** ** The queue within its capacity *)

(** X24.  Once every queued frame has been consumed the queue is used
    again from its first slot, wherever its offsets stood: from such a
    state, up to 1024 acceptable frames finalized in a row are all
    stored (each call returns MIDIF_COMPLETE, the cumulative [missed],
    [errors] and [skipped] counters do not move), and as many calls of
    get-next return them in completion order, whatever the sources
    deliver meanwhile. *)
Theorem queue_fifo (r : midi_reader_t) (ss : list midi_reader_source_t) :
  length (q_frames (frames r)) = Z.to_nat MIDI_READER_FRAMES_MAX ->
  q_len (frames r) = q_offset (frames r) ->
  (1 <= length ss)%nat ->
  Z.of_nat (length ss) <= MIDI_READER_FRAMES_MAX ->
  forallb (acceptable r) ss = true ->
  exists r' evs,
    process_all r ss
    = (repeat MIDIF_COMPLETE (length ss), r',
       map (processed_source r) ss, evs)
    /\ q_offset (frames r') = 0
    /\ q_len (frames r') = Z.of_nat (length ss)
    /\ (forall start rds,
          length rds = length ss ->
          fst (get_next_all start rds r')
          = map (fun s => Some (delivered_frame r s)) ss)
    /\ missed (total r') = missed (total r)
    /\ errors (total r') = errors (total r)
    /\ skipped (total r') = skipped (total r).
Proof.
  intros Hlen Hempty Hne Hss Hacc.
  destruct (process_all_holds r ss r [] eq_refl eq_refl eq_refl eq_refl Hacc)
    as (r' & evs & Hall & Hq & He & Hs & Hm).
  { unfold queue_holds. split; [exact Hlen|].
    split; [simpl; unfold MIDI_READER_FRAMES_MAX; lia|].
    split; [left; auto|]. intros j Hj. simpl in Hj. lia. }
  exists r', evs.
  cbn [app] in Hq.
  rewrite firstn_all2 in Hq
    by (rewrite length_map; unfold MIDI_READER_FRAMES_MAX in *; lia).
  set (fs := map (delivered_frame r) ss) in *.
  assert (Hfs : length fs = length ss) by (unfold fs; apply length_map).
  destruct Hq as (Q1 & Q2 & Q3 & Q4).
  destruct Q3 as [(Hnil & _)|(_ & Q5 & Q6)].
  { rewrite Hnil in Hfs. simpl in Hfs. lia. }
  split; [exact Hall|]. split; [exact Q5|].
  split; [rewrite Q6, Hfs; reflexivity|].
  split.
  { intros start rds Hrds.
    rewrite get_next_all_pending;
      [| exact Q1 | lia | rewrite Q5, Q6, Hfs, Hrds; lia
       | rewrite Q6, Hfs; lia ].
    transitivity (map Some fs); [|unfold fs; apply map_map].
    rewrite Q5, Hrds, <- Hfs.
    assert (H : map Some fs
                = map Some (map (fun j => nth j fs zero_frame)
                                (seq 0 (length fs))))
      by (rewrite map_nth_seq_id; reflexivity).
    rewrite H, map_map. apply map_ext_in. intros j Hj.
    apply in_seq in Hj.
    unfold get_frame. rewrite Z.add_0_l, Nat2Z.id.
    f_equal. apply Q4. lia. }
  split; [|split; [exact He|exact Hs]].
  rewrite Hm. cbv zeta. simpl length.
  destruct (Z.leb_spec (Z.of_nat 0 + Z.of_nat (length ss)
                        - MIDI_READER_FRAMES_MAX) 0); [reflexivity|lia].
Qed.

Lemma queue_fifo_witness :
  let r := set_frames (mk_frames 700 700 (q_frames (frames clogged_reader)))
             clogged_reader in
  let ss := [set_current (frame_of [0x90; 60; 100]) fresh_source;
             set_current (frame_of [0xf8]) fresh_source] in
  exists r' evs,
    process_all r ss
    = (repeat MIDIF_COMPLETE (length ss), r',
       map (processed_source r) ss, evs)
    /\ q_offset (frames r') = 0
    /\ q_len (frames r') = Z.of_nat (length ss)
    /\ (forall start rds,
          length rds = length ss ->
          fst (get_next_all start rds r')
          = map (fun s => Some (delivered_frame r s)) ss)
    /\ missed (total r') = missed (total r)
    /\ errors (total r') = errors (total r)
    /\ skipped (total r') = skipped (total r).
Proof.
  apply (queue_fifo
           (set_frames (mk_frames 700 700 (q_frames (frames clogged_reader)))
              clogged_reader)
           [set_current (frame_of [0x90; 60; 100]) fresh_source;
            set_current (frame_of [0xf8]) fresh_source]).
  - reflexivity.
  - reflexivity.
  - cbn. lia.
  - cbn. unfold MIDI_READER_FRAMES_MAX. lia.
  - vm_compute. reflexivity.
Defined.

(** ** The dump descriptor *)

(** X25.  [midi_reader_set_dump_file] never closes a descriptor: its
    [close] is unreachable, since [midi_reader_set_dump_fd] cannot refuse
    a descriptor that [open] returned, and the dump descriptor that was
    set before is replaced without being closed.  The call succeeds
    exactly when the path is not null and [open] succeeds; otherwise the
    reader is unchanged. *)
Theorem set_dump_file_never_closes (r : midi_reader_t)
    (open_ : string -> bool -> Z) (path : option string) (trunc : bool) :
  snd (midi_reader_set_dump_file r open_ path trunc) = []
  /\ fst (midi_reader_set_dump_file r open_ path trunc)
     = match path with
       | Some p =>
           if open_ p trunc >? -1
           then (true, set_dumpfd (open_ p trunc) r)
           else (false, r)
       | None => (false, r)
       end.
Proof.
  unfold midi_reader_set_dump_file, midi_reader_set_dump_fd.
  destruct path as [p|]; [|split; reflexivity].
  destruct (open_ p trunc >? -1); split; reflexivity.
Qed.
